(** * Preprocessing pipeline for landscape-connectivity rasters

    A shallow embedding of the control logic of the [preprocessing] package:

    - [Decay]          the distance-decay functions applied to a proximity raster;
    - [Impedance]      [ImpedanceWrapper.calculate_impedance], the loop over the
                       stressor registry, on top of the interface of the
                       [Impedance_processor] class;
    - [Validation]     [ImpedanceWrapper.validate_impedance_config];
    - [Buffer]         the SQL expression [vector_preprocessor.buffer_features]
                       hands to ogr2ogr;
    - [GeometryRepair] [OsmGeojson_to_gpkg.fix_geometries_in_gpkg];
    - [OsmFilter]      [Osm_PreProcessor.fix_invalid_geometries];
    - [Shell]          [utils.run_shell_command].

    Raster cells are real numbers; files, GDAL/OGR primitives and external
    processes appear as parameters of the sections that use them. *)

From Stdlib Require Import String Ascii Reals Lra ZArith QArith Bool Lia Arith List.
Import ListNotations.

Set Warnings "-register-all".

(* ===================================================================== *)
(** ** Distance decay *)
(* ===================================================================== *)

Module Decay.
Local Open Scope R_scope.

(** [decline_type] of a stressor in [config_impedance.yaml]. *)
Inductive decline_type : Set :=
| exp_decline
| prop_decline.

(** The decay parameters of one stressor alias:
    [{decline_type, exp_decline: {lambda_decay}, prop_decline: {k_value}}]. *)
Record decay_params : Type := mk_decay_params {
  decline : decline_type;
  lambda_decay : R;
  k_value : R
}.

(** A raster band, row-major: one value per cell. *)
Definition raster : Type := list R.

(** Modelled from the spec: the decay step of the absent class
    [Impedance_processor] ("exponential decline:
    effect = impedance_max * exp(-distance / lambda_decay)"). *)
Definition exp_effect (impedance_max lambda distance : R) : R :=
  impedance_max * exp (- distance / lambda).

(** Modelled from the spec: the decay step of the absent class
    [Impedance_processor] ("proportional decline:
    effect = impedance_max * k_value / (k_value + distance)"). *)
Definition prop_effect (impedance_max k distance : R) : R :=
  impedance_max * k / (k + distance).

(** Modelled from the spec: the stressor's configured decay function, chosen
    by its [decline_type] ([Impedance_processor] is not among the sources). *)
Definition decay (p : decay_params) (impedance_max distance : R) : R :=
  match decline p with
  | exp_decline => exp_effect impedance_max (lambda_decay p) distance
  | prop_decline => prop_effect impedance_max (k_value p) distance
  end.

(** Modelled from the spec: "apply the stressor's configured decay function
    to the proximity raster", cell by cell. *)
Definition apply_decay (p : decay_params) (impedance_max : R) (proximity : raster) : raster :=
  map (decay p impedance_max) proximity.

(** *** Facts about the two decay curves *)

Lemma exp_effect_at_zero (M lam : R) : exp_effect M lam 0 = M.
Proof.
  unfold exp_effect.
  replace (- 0 / lam) with 0 by (unfold Rdiv; ring).
  rewrite exp_0; ring.
Qed.

Lemma exp_effect_pos (M lam d : R) : 0 < M -> 0 < exp_effect M lam d.
Proof.
  intros HM; unfold exp_effect.
  apply Rmult_lt_0_compat; [assumption | apply exp_pos].
Qed.

Lemma exp_effect_decreasing (M lam d1 d2 : R) :
  0 < M -> 0 < lam -> d1 < d2 -> exp_effect M lam d2 < exp_effect M lam d1.
Proof.
  intros HM Hl Hd; unfold exp_effect.
  apply Rmult_lt_compat_l; [assumption|].
  apply exp_increasing.
  unfold Rdiv.
  apply Rmult_lt_compat_r; [apply Rinv_0_lt_compat; assumption | lra].
Qed.

Lemma exp_effect_le_max (M lam d : R) :
  0 < M -> 0 < lam -> 0 <= d -> exp_effect M lam d <= M.
Proof.
  intros HM Hl [Hd | <-].
  - left. rewrite <- (exp_effect_at_zero M lam) at 2.
    now apply exp_effect_decreasing.
  - right. apply exp_effect_at_zero.
Qed.

Lemma prop_effect_at_zero (M k : R) : 0 < k -> prop_effect M k 0 = M.
Proof.
  intros Hk; unfold prop_effect. field. lra.
Qed.

Lemma prop_effect_pos (M k d : R) : 0 < M -> 0 < k -> 0 <= d -> 0 < prop_effect M k d.
Proof.
  intros HM Hk Hd; unfold prop_effect, Rdiv.
  apply Rmult_lt_0_compat.
  - now apply Rmult_lt_0_compat.
  - apply Rinv_0_lt_compat; lra.
Qed.

Lemma prop_effect_decreasing (M k d1 d2 : R) :
  0 < M -> 0 < k -> 0 <= d1 -> d1 < d2 -> prop_effect M k d2 < prop_effect M k d1.
Proof.
  intros HM Hk H1 H12; unfold prop_effect, Rdiv.
  apply Rmult_lt_compat_l.
  - now apply Rmult_lt_0_compat.
  - apply Rinv_lt_contravar; [apply Rmult_lt_0_compat; lra | lra].
Qed.

Lemma prop_effect_le_max (M k d : R) :
  0 < M -> 0 < k -> 0 <= d -> prop_effect M k d <= M.
Proof.
  intros HM Hk [Hd | <-].
  - left. rewrite <- (prop_effect_at_zero M k Hk) at 2.
    apply prop_effect_decreasing; lra.
  - right. now apply prop_effect_at_zero.
Qed.

(** C1. For a proximity raster of distances >= 0 and positive [lambda_decay],
    [k_value] and [impedance_max], the decay step yields, at every cell,
    [impedance_max * exp(-distance / lambda_decay)] under [exp_decline] and
    [impedance_max * k_value / (k_value + distance)] under [prop_decline];
    the value lies in (0, impedance_max], the curve is strictly decreasing in
    the distance, and it equals [impedance_max] at distance 0. *)
Theorem decay_step_formula_and_bounds :
  forall (p : decay_params) (impedance_max : R) (proximity : raster),
    0 < lambda_decay p -> 0 < k_value p -> 0 < impedance_max ->
    Forall (fun d => 0 <= d) proximity ->
    length (apply_decay p impedance_max proximity) = length proximity
    /\ (forall (cell : nat) (d : R),
          nth_error proximity cell = Some d ->
          nth_error (apply_decay p impedance_max proximity) cell
            = Some (match decline p with
                    | exp_decline => impedance_max * exp (- d / lambda_decay p)
                    | prop_decline => impedance_max * k_value p / (k_value p + d)
                    end)
          /\ 0 < decay p impedance_max d <= impedance_max)
    /\ (forall d1 d2 : R,
          0 <= d1 -> d1 < d2 -> decay p impedance_max d2 < decay p impedance_max d1)
    /\ decay p impedance_max 0 = impedance_max.
Proof.
  intros p M prox Hl Hk HM Hprox.
  split; [apply length_map|].
  split; [|split].
  - intros cell d Hnth.
    assert (Hd : 0 <= d).
    { rewrite Forall_forall in Hprox. apply Hprox.
      eapply nth_error_In; eassumption. }
    split.
    + unfold apply_decay. rewrite nth_error_map, Hnth. simpl.
      unfold decay, exp_effect, prop_effect. now destruct (decline p).
    + unfold decay. destruct (decline p).
      * split; [now apply exp_effect_pos | now apply exp_effect_le_max].
      * split; [now apply prop_effect_pos | now apply prop_effect_le_max].
  - intros d1 d2 H1 H12. unfold decay. destruct (decline p).
    + now apply exp_effect_decreasing.
    + now apply prop_effect_decreasing.
  - unfold decay. destruct (decline p).
    + apply exp_effect_at_zero.
    + now apply prop_effect_at_zero.
Qed.

Definition sample_params : decay_params :=
  {| decline := exp_decline; lambda_decay := 500; k_value := 500 |}.

Lemma decay_step_formula_and_bounds_witness :
  length (apply_decay sample_params 10 [0; 250]) = length [0; 250]
  /\ (forall (cell : nat) (d : R),
        nth_error [0; 250] cell = Some d ->
        nth_error (apply_decay sample_params 10 [0; 250]) cell
          = Some (match decline sample_params with
                  | exp_decline => 10 * exp (- d / lambda_decay sample_params)
                  | prop_decline => 10 * k_value sample_params / (k_value sample_params + d)
                  end)
        /\ 0 < decay sample_params 10 d <= 10)
  /\ (forall d1 d2 : R,
        0 <= d1 -> d1 < d2 -> decay sample_params 10 d2 < decay sample_params 10 d1)
  /\ decay sample_params 10 0 = 10.
Proof.
  apply (decay_step_formula_and_bounds sample_params 10 [0; 250]).
  - simpl; lra.
  - simpl; lra.
  - lra.
  - repeat constructor; lra.
Defined.

End Decay.

(* ===================================================================== *)
(** ** The accumulation loop of [ImpedanceWrapper.calculate_impedance] *)
(* ===================================================================== *)

Module Impedance.

(** The methods [calculate_impedance] calls on [Impedance_processor]
    (impedance_wrapper.py, lines 133-155).  The class itself is imported
    from [Impedance.impedance_processor]; the wrapper only sees this
    interface.  A method that mutates the object returns its new state.
    The constructor receives the running [max_result] and [cumul_result],
    the YAML alias and the raster path; its other arguments ([parent_dir],
    [config_impedance], the drivers, [impedance_ds], [impedance_max]) are
    the same for every stressor of a run and belong to the instance. *)
Class ProcessorAPI (Raster Processor Decayed : Type) : Type := {
  new_processor : option Raster -> option Raster -> string -> string -> Processor;
  ds_is_none : Processor -> bool;
  handle_no_data : Processor -> Processor;
  compute_proximity : Processor -> Processor * Raster;
  calculate_edge_effect : Processor -> Raster -> Processor * Raster;
  update_impedance_with_decay : Processor -> Decayed
}.

(** What the loop prints and which methods it calls, in order. *)
Inductive event : Set :=
| Processing (stressor_raster yaml_stressor : string)
| FailedToOpen (stressor_raster : string)
| HandleNoData (yaml_stressor : string)
| ComputeProximity (yaml_stressor : string)
| CalculateEdgeEffect (yaml_stressor : string).

(** Calling a method on [None]. *)
Inductive exn : Set :=
| AttributeError (attribute : string).

Section Wrapper.
Context {Raster Processor Decayed : Type} `{API : ProcessorAPI Raster Processor Decayed}.

(** The local variables of [calculate_impedance] that the loop reads or
    writes, and the trace of what it did. *)
Record loop_state : Type := mk_loop_state {
  max_result : option Raster;
  cumul_result : option Raster;
  impedance_processor : option Processor;
  log : list event
}.

(** Lines 122-126. *)
Definition initial_state : loop_state :=
  {| max_result := None; cumul_result := None;
     impedance_processor := None; log := [] |}.

(** One iteration of [for yaml_stressor, stressor_raster in
    impedance_stressors.items()] (lines 128-151). *)
Definition loop_body (st : loop_state) (entry : string * string) : loop_state :=
  let '(yaml_stressor, stressor_raster) := entry in
  let p := new_processor (max_result st) (cumul_result st) yaml_stressor stressor_raster in
  if ds_is_none p then
    (* print "Failed to open ..., skipping..."; continue *)
    {| max_result := max_result st;
       cumul_result := cumul_result st;
       impedance_processor := Some p;
       log := log st ++ [Processing stressor_raster yaml_stressor;
                         FailedToOpen stressor_raster] |}
  else
    let p1 := handle_no_data p in
    let '(p2, proximity_data) := compute_proximity p1 in
    let '(p3, new_max) := calculate_edge_effect p2 proximity_data in
    {| max_result := Some new_max;
       cumul_result := cumul_result st;
       impedance_processor := Some p3;
       log := log st ++ [Processing stressor_raster yaml_stressor;
                         HandleNoData yaml_stressor;
                         ComputeProximity yaml_stressor;
                         CalculateEdgeEffect yaml_stressor] |}.

(** The whole loop over the registry, in insertion order. *)
Definition run_loop (impedance_stressors : list (string * string)) (st : loop_state)
  : loop_state :=
  fold_left loop_body impedance_stressors st.

(** [calculate_impedance] (lines 120-155): the loop, then
    [impedance_processor.update_impedance_with_decay()] on whatever object
    the variable refers to after the loop. *)
Definition calculate_impedance (impedance_stressors : list (string * string))
  : exn + (loop_state * Decayed) :=
  let st := run_loop impedance_stressors initial_state in
  match impedance_processor st with
  | None => inl (AttributeError "update_impedance_with_decay")
  | Some p => inr (st, update_impedance_with_decay p)
  end.

(** The processor object built for one registry entry, as the loop body
    leaves it: untouched when its dataset is [None], after the three method
    calls otherwise. *)
Definition processor_after_body (acc cumul : option Raster) (entry : string * string)
  : Processor :=
  let p := new_processor acc cumul (fst entry) (snd entry) in
  if ds_is_none p then p
  else
    let '(p2, proximity_data) := compute_proximity (handle_no_data p) in
    fst (calculate_edge_effect p2 proximity_data).

(** *** Properties of the loop *)

Lemma run_loop_app (xs ys : list (string * string)) (st : loop_state) :
  run_loop (xs ++ ys) st = run_loop ys (run_loop xs st).
Proof. unfold run_loop. apply fold_left_app. Qed.

Lemma cumul_result_loop_body (st : loop_state) (e : string * string) :
  cumul_result (loop_body st e) = cumul_result st.
Proof.
  destruct e as [y r]; unfold loop_body.
  destruct (ds_is_none _); [reflexivity|].
  destruct (compute_proximity _) as [p2 prox].
  destruct (calculate_edge_effect _ _) as [p3 m]. reflexivity.
Qed.

Lemma cumul_result_run_loop (xs : list (string * string)) (st : loop_state) :
  cumul_result (run_loop xs st) = cumul_result st.
Proof.
  revert st; induction xs as [|e xs IH]; intros st; [reflexivity|].
  simpl. rewrite IH. apply cumul_result_loop_body.
Qed.

(** An iteration reads only [max_result] and [cumul_result] of the state;
    the previous processor and the log do not influence what it computes. *)
Lemma loop_body_frame (s1 s2 : loop_state) (e : string * string) :
  max_result s1 = max_result s2 ->
  cumul_result s1 = cumul_result s2 ->
  max_result (loop_body s1 e) = max_result (loop_body s2 e)
  /\ cumul_result (loop_body s1 e) = cumul_result (loop_body s2 e)
  /\ impedance_processor (loop_body s1 e) = impedance_processor (loop_body s2 e)
  /\ exists evs, log (loop_body s1 e) = log s1 ++ evs
              /\ log (loop_body s2 e) = log s2 ++ evs.
Proof.
  intros Hm Hc. destruct e as [y r]; unfold loop_body.
  rewrite Hm, Hc.
  destruct (ds_is_none _).
  - simpl. repeat split; try assumption. eexists; split; reflexivity.
  - destruct (compute_proximity _) as [p2 prox].
    destruct (calculate_edge_effect _ _) as [p3 m]. simpl.
    repeat split; try assumption. eexists; split; reflexivity.
Qed.

Lemma run_loop_frame (xs : list (string * string)) :
  forall s1 s2 : loop_state,
    max_result s1 = max_result s2 ->
    cumul_result s1 = cumul_result s2 ->
    max_result (run_loop xs s1) = max_result (run_loop xs s2)
    /\ exists evs, log (run_loop xs s1) = log s1 ++ evs
                /\ log (run_loop xs s2) = log s2 ++ evs.
Proof.
  induction xs as [|e xs IH]; intros s1 s2 Hm Hc.
  - simpl. split; [assumption|]. exists []. now rewrite !app_nil_r.
  - simpl.
    destruct (loop_body_frame s1 s2 e Hm Hc) as (Hm' & Hc' & _ & evs & L1 & L2).
    destruct (IH _ _ Hm' Hc') as (Hmax & evs' & L1' & L2').
    split; [assumption|].
    exists (evs ++ evs'). rewrite L1', L2', L1, L2, !app_assoc. split; reflexivity.
Qed.

(** C5. A stressor whose raster fails to open is logged and skipped: the
    iteration calls none of [handle_no_data], [compute_proximity],
    [calculate_edge_effect], leaves the accumulator as it was, and the loop
    goes on with the remaining stressors exactly as if the entry were not in
    the registry (same accumulator, same calls for the later entries). *)
Theorem failed_open_is_skipped :
  forall (pre post : list (string * string)) (yaml_stressor stressor_raster : string),
    ds_is_none (new_processor (max_result (run_loop pre initial_state))
                              (cumul_result (run_loop pre initial_state))
                              yaml_stressor stressor_raster) = true ->
    max_result (run_loop (pre ++ [(yaml_stressor, stressor_raster)]) initial_state)
      = max_result (run_loop pre initial_state)
    /\ log (run_loop (pre ++ [(yaml_stressor, stressor_raster)]) initial_state)
       = log (run_loop pre initial_state)
           ++ [Processing stressor_raster yaml_stressor; FailedToOpen stressor_raster]
    /\ run_loop (pre ++ (yaml_stressor, stressor_raster) :: post) initial_state
       = run_loop post (run_loop (pre ++ [(yaml_stressor, stressor_raster)]) initial_state)
    /\ max_result (run_loop (pre ++ (yaml_stressor, stressor_raster) :: post) initial_state)
       = max_result (run_loop (pre ++ post) initial_state)
    /\ exists later : list event,
         log (run_loop (pre ++ (yaml_stressor, stressor_raster) :: post) initial_state)
           = log (run_loop pre initial_state)
               ++ [Processing stressor_raster yaml_stressor; FailedToOpen stressor_raster]
               ++ later
         /\ log (run_loop (pre ++ post) initial_state)
            = log (run_loop pre initial_state) ++ later.
Proof.
  intros pre post y r Hnone.
  set (st := run_loop pre initial_state) in *.
  assert (Hstep : run_loop (pre ++ [(y, r)]) initial_state
                  = {| max_result := max_result st;
                       cumul_result := cumul_result st;
                       impedance_processor :=
                         Some (new_processor (max_result st) (cumul_result st) y r);
                       log := log st ++ [Processing r y; FailedToOpen r] |}).
  { rewrite run_loop_app. fold st. simpl. now rewrite Hnone. }
  assert (Hcons : run_loop (pre ++ (y, r) :: post) initial_state
                  = run_loop post (run_loop (pre ++ [(y, r)]) initial_state)).
  { replace (pre ++ (y, r) :: post) with ((pre ++ [(y, r)]) ++ post)
      by now rewrite <- app_assoc.
    apply run_loop_app. }
  split; [now rewrite Hstep|].
  split; [now rewrite Hstep|].
  split; [exact Hcons|].
  rewrite Hcons, Hstep, (run_loop_app pre post). fold st.
  match goal with |- context [run_loop post ?s] =>
    destruct (run_loop_frame post s st eq_refl eq_refl) as (Hmax & evs & L1 & L2)
  end.
  split; [exact Hmax|].
  exists evs. rewrite L1, L2. simpl. rewrite <- app_assoc. split; reflexivity.
Qed.

(** C9. The final decay step is invoked on whatever the loop variable
    [impedance_processor] holds: for an empty registry it is still [None]
    and the call raises [AttributeError]; otherwise it is the object built
    for the last registry entry, and when that entry's raster failed to
    open it is that very object, on which no method has run. *)
Theorem final_decay_on_last_processor :
  calculate_impedance [] = inl (AttributeError "update_impedance_with_decay")
  /\ (forall (pre : list (string * string)) (last_entry : string * string),
        calculate_impedance (pre ++ [last_entry])
        = inr (run_loop (pre ++ [last_entry]) initial_state,
               update_impedance_with_decay
                 (processor_after_body (max_result (run_loop pre initial_state))
                                       None last_entry)))
  /\ (forall (pre : list (string * string)) (last_entry : string * string),
        ds_is_none (new_processor (max_result (run_loop pre initial_state)) None
                                  (fst last_entry) (snd last_entry)) = true ->
        calculate_impedance (pre ++ [last_entry])
        = inr (run_loop (pre ++ [last_entry]) initial_state,
               update_impedance_with_decay
                 (new_processor (max_result (run_loop pre initial_state)) None
                                (fst last_entry) (snd last_entry)))).
Proof.
  assert (Hlast : forall pre last_entry,
             impedance_processor (run_loop (pre ++ [last_entry]) initial_state)
             = Some (processor_after_body (max_result (run_loop pre initial_state))
                                          None last_entry)).
  { intros pre [y r]. rewrite run_loop_app. simpl.
    unfold loop_body, processor_after_body.
    rewrite (cumul_result_run_loop pre initial_state). simpl.
    destruct (ds_is_none _); [reflexivity|].
    destruct (compute_proximity _) as [p2 prox].
    destruct (calculate_edge_effect _ _) as [p3 m]. reflexivity. }
  split; [reflexivity|]. split.
  - intros pre last_entry. unfold calculate_impedance. now rewrite Hlast.
  - intros pre last_entry Hnone. unfold calculate_impedance. rewrite Hlast.
    unfold processor_after_body. now rewrite Hnone.
Qed.

End Wrapper.

(** *** The processor of the specification

    [Impedance_processor] is not among the sources; this instance follows
    the description of the accumulation engine. *)
Section SpecProcessor.
Local Open Scope R_scope.
Import Decay.

(** [gdal.Open] on a stressor raster path: [None] when the file is missing
    or corrupt. *)
Variable open_raster : string -> option raster.
(** Step 2, "normalize nodata handling", and step 3, "compute a proximity
    raster": GDAL primitives, on the same grid. *)
Variable normalize_nodata : raster -> raster.
Variable proximity_of : raster -> raster.
(** Decay parameters of each alias in [config_impedance], and the maximum
    of the impedance raster. *)
Variable config_impedance : string -> decay_params.
Variable impedance_max : R.

Record processor : Type := mk_processor {
  p_max_result : option raster;
  p_cumul_result : option raster;
  p_yaml_stressor : string;
  p_stressor_raster : string;
  p_ds : option raster
}.

(** Modelled from the spec: the cell-wise maximum of two rasters of the
    accumulation step 5 ([Impedance_processor.calculate_edge_effect] is
    absent). *)
Fixpoint cellwise_max (a b : raster) : raster :=
  match a, b with
  | x :: a', y :: b' => Rmax x y :: cellwise_max a' b'
  | _, _ => []
  end.

(** Modelled from the spec: "update the running accumulator with the
    cell-wise maximum of the prior accumulator and this stressor's effect
    raster (first stressor initializes the accumulator)". *)
Definition merge (acc : option raster) (effect : raster) : raster :=
  match acc with
  | None => effect
  | Some prior => cellwise_max prior effect
  end.

(** Modelled from the spec: steps 4 and 5 of the accumulation engine, the
    body of the absent method [calculate_edge_effect]. *)
Definition spec_calculate_edge_effect (p : processor) (proximity_data : raster)
  : processor * raster :=
  let effect := apply_decay (config_impedance (p_yaml_stressor p)) impedance_max
                            proximity_data in
  (p, merge (p_max_result p) effect).

(** Modelled from the spec: the absent class [Impedance_processor]; the
    final rescaling is only named by the spec, so the instance returns the
    object it is invoked on. *)
#[local] Instance spec_processor : ProcessorAPI raster processor processor := {
  new_processor acc cumul yaml_stressor stressor_raster :=
    {| p_max_result := acc; p_cumul_result := cumul;
       p_yaml_stressor := yaml_stressor; p_stressor_raster := stressor_raster;
       p_ds := open_raster stressor_raster |};
  ds_is_none p := match p_ds p with None => true | Some _ => false end;
  handle_no_data p :=
    {| p_max_result := p_max_result p; p_cumul_result := p_cumul_result p;
       p_yaml_stressor := p_yaml_stressor p; p_stressor_raster := p_stressor_raster p;
       p_ds := option_map normalize_nodata (p_ds p) |};
  compute_proximity p :=
    (p, match p_ds p with Some ds => proximity_of ds | None => [] end);
  calculate_edge_effect := spec_calculate_edge_effect;
  update_impedance_with_decay p := p
}.

(** The effect raster of one registry entry whose raster opened as [ds]. *)
Definition effect_raster (yaml_stressor : string) (ds : raster) : raster :=
  apply_decay (config_impedance yaml_stressor) impedance_max
              (proximity_of (normalize_nodata ds)).

(** The effect rasters of the processed stressors of a registry, in
    registry order; entries that fail to open contribute none. *)
Fixpoint processed_effects (impedance_stressors : list (string * string)) : list raster :=
  match impedance_stressors with
  | [] => []
  | (yaml_stressor, stressor_raster) :: rest =>
      match open_raster stressor_raster with
      | Some ds => effect_raster yaml_stressor ds :: processed_effects rest
      | None => processed_effects rest
      end
  end.

(** The accumulator after merging a list of effect rasters in order. *)
Definition merge_all (acc : option raster) (effects : list raster) : option raster :=
  fold_left (fun a e => Some (merge a e)) effects acc.

(** *** The accumulator is a running cell-wise maximum *)

Lemma length_cellwise_max (a b : raster) :
  length (cellwise_max a b) = Nat.min (length a) (length b).
Proof.
  revert b; induction a as [|x a IH]; intros [|y b]; simpl; auto.
Qed.

Lemma nth_error_cellwise_max (a b : raster) (cell : nat) (x y : R) :
  nth_error a cell = Some x -> nth_error b cell = Some y ->
  nth_error (cellwise_max a b) cell = Some (Rmax x y).
Proof.
  revert b cell; induction a as [|x0 a IH]; intros [|y0 b] [|cell]; simpl;
    try discriminate.
  - intros [= ->] [= ->]. reflexivity.
  - apply IH.
Qed.

Lemma nth_cellwise_max (a b : raster) (cell : nat) :
  (cell < length a)%nat -> (cell < length b)%nat ->
  nth cell (cellwise_max a b) 0 = Rmax (nth cell a 0) (nth cell b 0).
Proof.
  revert b cell; induction a as [|x0 a IH]; intros [|y0 b] [|cell]; simpl;
    try lia; intros Ha Hb; [reflexivity | apply IH; lia].
Qed.

Lemma cellwise_max_absorb (a e : raster) :
  cellwise_max (cellwise_max a e) e = cellwise_max a e.
Proof.
  revert e; induction a as [|x a IH]; intros [|y e]; simpl; try reflexivity.
  rewrite IH. f_equal.
  apply Rmax_left, Rmax_r.
Qed.

Lemma cellwise_max_self (e : raster) : cellwise_max e e = e.
Proof.
  induction e as [|y e IH]; simpl; [reflexivity|].
  rewrite IH. f_equal. apply Rmax_left. lra.
Qed.

Lemma merge_idempotent (acc : option raster) (effect : raster) :
  merge (Some (merge acc effect)) effect = merge acc effect.
Proof.
  destruct acc as [prior|]; simpl.
  - apply cellwise_max_absorb.
  - apply cellwise_max_self.
Qed.

Lemma loop_body_max_result (st : loop_state) (yaml_stressor stressor_raster : string) :
  max_result (loop_body st (yaml_stressor, stressor_raster))
  = match open_raster stressor_raster with
    | Some ds => Some (merge (max_result st) (effect_raster yaml_stressor ds))
    | None => max_result st
    end.
Proof.
  unfold loop_body; simpl.
  destruct (open_raster stressor_raster) as [ds|]; reflexivity.
Qed.

Lemma run_loop_max_result (impedance_stressors : list (string * string)) :
  forall st : loop_state,
    max_result (run_loop impedance_stressors st)
    = merge_all (max_result st) (processed_effects impedance_stressors).
Proof.
  induction impedance_stressors as [|[y r] rest IH]; intros st; [reflexivity|].
  change (run_loop ((y, r) :: rest) st) with (run_loop rest (loop_body st (y, r))).
  rewrite IH, loop_body_max_result. simpl.
  destruct (open_raster r); reflexivity.
Qed.

(** Merging rasters of one grid into an accumulator of that grid gives, at
    every cell, the largest of the values met. *)
Lemma merge_all_is_max (n : nat) (effects : list raster) :
  forall acc : raster,
    length acc = n ->
    Forall (fun e => length e = n) effects ->
    exists acc' : raster,
      merge_all (Some acc) effects = Some acc'
      /\ length acc' = n
      /\ forall cell : nat, (cell < n)%nat ->
           nth cell acc 0 <= nth cell acc' 0
           /\ (forall e, In e effects -> nth cell e 0 <= nth cell acc' 0)
           /\ (nth cell acc' 0 = nth cell acc 0
               \/ exists e, In e effects /\ nth cell acc' 0 = nth cell e 0).
Proof.
  induction effects as [|e es IH]; intros acc Hacc Hall.
  - exists acc. split; [reflexivity|]. split; [assumption|].
    intros cell Hc. split; [lra|]. split; [intros e []|now left].
  - apply Forall_cons_iff in Hall as [He Hes].
    assert (Hlen : length (cellwise_max acc e) = n).
    { rewrite length_cellwise_max, Hacc, He. apply Nat.min_id. }
    destruct (IH (cellwise_max acc e) Hlen Hes) as (acc' & Hrun & Hlen' & Hcells).
    exists acc'. split; [exact Hrun|]. split; [exact Hlen'|].
    intros cell Hc. destruct (Hcells cell Hc) as (Hge & Hub & Hatt).
    rewrite nth_cellwise_max in Hge, Hatt by lia.
    pose proof (Rmax_l (nth cell acc 0) (nth cell e 0)) as Hl.
    pose proof (Rmax_r (nth cell acc 0) (nth cell e 0)) as Hr.
    split; [lra|]. split.
    + intros e' [<- | Hin]; [lra | now apply Hub].
    + destruct Hatt as [Heq | (e' & Hin & Heq)].
      * destruct (Rle_dec (nth cell acc 0) (nth cell e 0)) as [Hle | Hnle].
        -- rewrite Rmax_right in Heq by assumption.
           right. exists e. split; [now left | exact Heq].
        -- rewrite Rmax_left in Heq by lra. now left.
      * right. exists e'. split; [now right | exact Heq].
Qed.

(** C2. Each processed stressor replaces the accumulator by the cell-wise
    maximum of the prior accumulator and the stressor's effect raster, the
    first one initialising it; merging the same effect raster a second time
    changes nothing; and after the loop the accumulator holds, at every cell,
    the maximum of the processed stressors' effect values at that cell (an
    upper bound of all of them that one of them attains). *)
Theorem accumulator_is_cellwise_maximum :
  (forall (st : loop_state) (yaml_stressor stressor_raster : string) (ds : raster),
      open_raster stressor_raster = Some ds ->
      max_result (loop_body st (yaml_stressor, stressor_raster))
      = Some (merge (max_result st) (effect_raster yaml_stressor ds)))
  /\ (forall effect : raster, merge None effect = effect)
  /\ (forall (prior effect : raster) (cell : nat) (x y : R),
        nth_error prior cell = Some x -> nth_error effect cell = Some y ->
        nth_error (merge (Some prior) effect) cell = Some (Rmax x y))
  /\ (forall (acc : option raster) (effect : raster),
        merge (Some (merge acc effect)) effect = merge acc effect)
  /\ (forall (impedance_stressors : list (string * string)) (n : nat),
        processed_effects impedance_stressors <> [] ->
        Forall (fun e => length e = n) (processed_effects impedance_stressors) ->
        exists acc : raster,
          max_result (run_loop impedance_stressors initial_state) = Some acc
          /\ length acc = n
          /\ forall cell : nat, (cell < n)%nat ->
               (forall e, In e (processed_effects impedance_stressors) ->
                          nth cell e 0 <= nth cell acc 0)
               /\ (exists e, In e (processed_effects impedance_stressors)
                             /\ nth cell acc 0 = nth cell e 0)).
Proof.
  split; [|split; [|split; [|split]]].
  - intros st y r ds Hopen. now rewrite loop_body_max_result, Hopen.
  - reflexivity.
  - intros prior effect cell x y Hx Hy. simpl. now apply nth_error_cellwise_max.
  - apply merge_idempotent.
  - intros reg n Hne Hall.
    rewrite run_loop_max_result. simpl.
    destruct (processed_effects reg) as [|e es]; [congruence|].
    apply Forall_cons_iff in Hall as [He Hes].
    destruct (merge_all_is_max n es e He Hes)
      as (acc & Hrun & Hlen & Hcells).
    exists acc. split; [exact Hrun|]. split; [exact Hlen|].
    intros cell Hc. destruct (Hcells cell Hc) as (Hge & Hub & Hatt).
    split.
    + intros e' [<- | Hin]; [exact Hge | now apply Hub].
    + destruct Hatt as [Heq | (e' & Hin & Heq)].
      * exists e. split; [now left | exact Heq].
      * exists e'. split; [now right | exact Heq].
Qed.

End SpecProcessor.

(** *** A run on a two-stressor registry with one unreadable raster *)

Definition scenario_open (path : string) : option Decay.raster :=
  if String.eqb path "roads.tif" then Some [0%R; 100%R]
  else if String.eqb path "rail.tif" then Some [50%R; 0%R]
  else None.

Definition scenario_api : ProcessorAPI Decay.raster processor processor :=
  spec_processor scenario_open (fun ds => ds) (fun ds => ds)
                 (fun _ => Decay.sample_params) 10%R.

Definition roads_entry : string * string := ("roads_primary"%string, "roads.tif"%string).
Definition rail_entry : string * string := ("rail"%string, "rail.tif"%string).
Definition missing_entry : string * string := ("quarry"%string, "quarry.tif"%string).

Lemma accumulator_is_cellwise_maximum_witness :
  exists acc : Decay.raster,
    max_result (run_loop (API := scenario_api) [roads_entry; rail_entry] initial_state)
      = Some acc
    /\ length acc = 2%nat
    /\ forall cell : nat, (cell < 2)%nat ->
         (forall e, In e (processed_effects scenario_open (fun ds => ds) (fun ds => ds)
                            (fun _ => Decay.sample_params) 10%R [roads_entry; rail_entry]) ->
                    (nth cell e 0 <= nth cell acc 0)%R)
         /\ (exists e, In e (processed_effects scenario_open (fun ds => ds) (fun ds => ds)
                               (fun _ => Decay.sample_params) 10%R [roads_entry; rail_entry])
                       /\ nth cell acc 0%R = nth cell e 0%R).
Proof.
  apply (proj2 (proj2 (proj2 (proj2
           (accumulator_is_cellwise_maximum scenario_open (fun ds => ds) (fun ds => ds)
              (fun _ => Decay.sample_params) 10%R))))).
  - simpl. discriminate.
  - simpl. repeat constructor.
Defined.

Lemma failed_open_is_skipped_witness :
  max_result (run_loop (API := scenario_api) ([roads_entry] ++ [missing_entry]) initial_state)
  = max_result (run_loop (API := scenario_api) [roads_entry] initial_state)
  /\ max_result (run_loop (API := scenario_api)
                   ([roads_entry] ++ missing_entry :: [rail_entry]) initial_state)
     = max_result (run_loop (API := scenario_api) ([roads_entry] ++ [rail_entry]) initial_state).
Proof.
  pose proof (failed_open_is_skipped (API := scenario_api)
                [roads_entry] [rail_entry] "quarry" "quarry.tif" eq_refl) as H.
  split; [exact (proj1 H) | exact (proj1 (proj2 (proj2 (proj2 H))))].
Defined.

Lemma final_decay_on_last_processor_witness :
  exists st : loop_state,
    calculate_impedance (API := scenario_api) ([roads_entry] ++ [missing_entry])
    = inr (st, {| p_max_result := max_result (run_loop (API := scenario_api)
                                                 [roads_entry] initial_state);
                  p_cumul_result := None;
                  p_yaml_stressor := "quarry";
                  p_stressor_raster := "quarry.tif";
                  p_ds := None |}).
Proof.
  eexists.
  exact (proj2 (proj2 (final_decay_on_last_processor (API := scenario_api)))
           [roads_entry] missing_entry eq_refl).
Defined.

End Impedance.

(* ===================================================================== *)
(** ** [ImpedanceWrapper.validate_impedance_config] *)
(* ===================================================================== *)

Module Validation.

(** The values [yaml.safe_load] produces and the constructor arguments of
    [ImpedanceWrapper], with their Python types. *)
Inductive py_type : Set :=
| NoneType | PyBool | PyInt | PyFloat | PyStr | PyList | PyDict.

Inductive py_value : Type :=
| PNone
| PBool (b : bool)
| PInt (z : Z)
| PFloat (q : Q)
| PStr (s : string)
| PList (items : list py_value)
| PDict (items : list (string * py_value)).

(** A Python [dict] with string keys, in insertion order. *)
Definition dict : Type := list (string * py_value).

Definition keys (d : dict) : list string := map fst d.

(** [type(value)]. *)
Definition type_of (v : py_value) : py_type :=
  match v with
  | PNone => NoneType
  | PBool _ => PyBool
  | PInt _ => PyInt
  | PFloat _ => PyFloat
  | PStr _ => PyStr
  | PList _ => PyList
  | PDict _ => PyDict
  end.

Definition py_type_eqb (a b : py_type) : bool :=
  match a, b with
  | NoneType, NoneType | PyBool, PyBool | PyInt, PyInt | PyFloat, PyFloat
  | PyStr, PyStr | PyList, PyList | PyDict, PyDict => true
  | _, _ => false
  end.

(** [issubclass]: among these types only [bool] has a proper base, [int]. *)
Definition issubclass (a b : py_type) : bool :=
  match a, b with
  | PyBool, PyInt => true
  | _, _ => py_type_eqb a b
  end.

(** [isinstance(value, t)]. *)
Definition isinstance (v : py_value) (t : py_type) : bool :=
  issubclass (type_of v) t.

(** [d.get(key)]; [key in d] is [contains]. *)
Fixpoint get (d : dict) (key : string) : option py_value :=
  match d with
  | [] => None
  | (k, v) :: rest => if String.eqb key k then Some v else get rest key
  end.

Definition contains (d : dict) (key : string) : bool :=
  match get d key with Some _ => true | None => false end.

(** [self.params_placeholder] as [__init__] builds it (lines 30-39) from
    [types: str = None], [decline_type: str], [lambda_decay] and [k_value]. *)
Definition make_params_placeholder (types : option string) (decline_type : string)
    (lambda_decay k_value : py_value) : dict :=
  [ ("types"%string, match types with Some s => PStr s | None => PNone end);
    ("decline_type"%string, PStr decline_type);
    ("exp_decline"%string, PDict [("lambda_decay"%string, lambda_decay)]);
    ("prop_decline"%string, PDict [("k_value"%string, k_value)]) ].

(** The three [warnings.warn] calls of the validator. *)
Inductive warning : Set :=
| NotInPlaceholder (key : string)
| DifferentDatatype (key : string) (expected got : py_type)
| MissingFromConfig (key : string).

Inductive exn : Set :=
| ValueError.

(** The mutable state of a validation run: [error_flag] and the warnings
    emitted so far. *)
Record vstate : Set := mk_vstate {
  error_flag : bool;
  warnings : list warning
}.

(** [warnings.warn(w); error_flag = True]. *)
Definition warn_and_flag (w : warning) (st : vstate) : vstate :=
  {| error_flag := true; warnings := warnings st ++ [w] |}.

Section Validator.
(** [self.params_placeholder], the YAML file as loaded, and the helper
    [utils.find_stressor_params], which returns the parameter set of an
    alias. *)
Variable params_placeholder : dict.
Variable validation_config : py_value.
Variable find_stressor_params : py_value -> string -> dict.

(** Lines 66-73: one iteration of [for key, value in stressor_params.items()]. *)
Definition check_param (st : vstate) (kv : string * py_value) : vstate :=
  let '(key, value) := kv in
  match get params_placeholder key with
  | None => warn_and_flag (NotInPlaceholder key) st
  | Some template =>
      if isinstance value (type_of template) then st
      else warn_and_flag (DifferentDatatype key (type_of template) (type_of value)) st
  end.

(** Lines 78-81: one iteration of [for key in self.params_placeholder.keys()]. *)
Definition check_present (stressor_params : dict) (st : vstate) (key : string) : vstate :=
  if contains stressor_params key then st
  else warn_and_flag (MissingFromConfig key) st.

(** Lines 64-81: the checks on one stressor. *)
Definition check_stressor (stressor_params : dict) (st : vstate) : vstate :=
  let st1 := fold_left check_param stressor_params st in
  if Nat.eqb (length stressor_params) (length params_placeholder) then st1
  else fold_left (check_present stressor_params) (keys params_placeholder) st1.

(** Lines 62-84: the loop over the aliases; the [raise] is the last
    statement of the loop body. *)
Fixpoint validate_loop (aliases : list string) (st : vstate) : vstate * option exn :=
  match aliases with
  | [] => (st, None)
  | yaml_stressor :: rest =>
      let st' :=
        check_stressor (find_stressor_params validation_config yaml_stressor) st in
      if error_flag st' then (st', Some ValueError)
      else validate_loop rest st'
  end.

(** [validate_impedance_config]: the warnings emitted, and the exception
    raised if any. *)
Definition validate_impedance_config (impedance_stressors : list (string * string))
  : list warning * option exn :=
  let '(st, raised) :=
    validate_loop (map fst impedance_stressors)
                  {| error_flag := false; warnings := [] |} in
  (warnings st, raised).

(** *** The warnings of one stressor, as a list *)

Definition param_warnings (kv : string * py_value) : list warning :=
  match get params_placeholder (fst kv) with
  | None => [NotInPlaceholder (fst kv)]
  | Some template =>
      if isinstance (snd kv) (type_of template) then []
      else [DifferentDatatype (fst kv) (type_of template) (type_of (snd kv))]
  end.

Definition presence_warnings (stressor_params : dict) (key : string) : list warning :=
  if contains stressor_params key then [] else [MissingFromConfig key].

Definition stressor_warnings (stressor_params : dict) : list warning :=
  flat_map param_warnings stressor_params
  ++ (if Nat.eqb (length stressor_params) (length params_placeholder) then []
      else flat_map (presence_warnings stressor_params) (keys params_placeholder)).

Definition emit (ws : list warning) (st : vstate) : vstate :=
  {| error_flag := error_flag st || negb (Nat.eqb (length ws) 0);
     warnings := warnings st ++ ws |}.

Lemma emit_nil (st : vstate) : emit [] st = st.
Proof. destruct st; unfold emit; simpl. now rewrite orb_false_r, app_nil_r. Qed.

Lemma emit_app (ws1 ws2 : list warning) (st : vstate) :
  emit ws2 (emit ws1 st) = emit (ws1 ++ ws2) st.
Proof.
  unfold emit; simpl. rewrite <- app_assoc, <- orb_assoc, length_app. f_equal.
  f_equal. destruct ws1, ws2; reflexivity.
Qed.

Lemma warn_and_flag_emit (w : warning) (st : vstate) :
  warn_and_flag w st = emit [w] st.
Proof. unfold warn_and_flag, emit; simpl. now rewrite orb_true_r. Qed.

Lemma fold_check_param (ps : dict) :
  forall st, fold_left check_param ps st = emit (flat_map param_warnings ps) st.
Proof.
  induction ps as [|[k v] ps IH]; intros st; simpl.
  - now rewrite emit_nil.
  - rewrite IH, <- emit_app. f_equal.
    unfold param_warnings; simpl.
    destruct (get params_placeholder k) as [template|].
    + destruct (isinstance v (type_of template));
        [now rewrite emit_nil | apply warn_and_flag_emit].
    + apply warn_and_flag_emit.
Qed.

Lemma fold_check_present (stressor_params : dict) (ks : list string) :
  forall st,
    fold_left (check_present stressor_params) ks st
    = emit (flat_map (presence_warnings stressor_params) ks) st.
Proof.
  induction ks as [|k ks IH]; intros st; simpl.
  - now rewrite emit_nil.
  - rewrite IH, <- emit_app. f_equal.
    unfold check_present, presence_warnings.
    destruct (contains stressor_params k);
      [now rewrite emit_nil | apply warn_and_flag_emit].
Qed.

Lemma check_stressor_emit (stressor_params : dict) (st : vstate) :
  check_stressor stressor_params st = emit (stressor_warnings stressor_params) st.
Proof.
  unfold check_stressor, stressor_warnings.
  rewrite fold_check_param.
  destruct (Nat.eqb _ _).
  - now rewrite app_nil_r.
  - now rewrite fold_check_present, emit_app.
Qed.

(** The loop stops at the first alias that yields a warning. *)
Lemma validate_loop_clean_prefix (pre rest : list string) (st : vstate) :
  error_flag st = false ->
  Forall (fun a => stressor_warnings (find_stressor_params validation_config a) = []) pre ->
  validate_loop (pre ++ rest) st = validate_loop rest st.
Proof.
  intros Hflag Hpre. induction Hpre as [|a pre Ha _ IH]; [reflexivity|].
  simpl. rewrite check_stressor_emit, Ha, emit_nil, Hflag. exact IH.
Qed.

Lemma validate_loop_first_dirty (alias : string) (rest : list string) (st : vstate) :
  stressor_warnings (find_stressor_params validation_config alias) <> [] ->
  validate_loop (alias :: rest) st
  = (emit (stressor_warnings (find_stressor_params validation_config alias)) st,
     Some ValueError).
Proof.
  intros Hne. simpl. rewrite check_stressor_emit.
  destruct (stressor_warnings _) as [|w ws]; [congruence|].
  unfold emit at 1; simpl. now rewrite orb_true_r.
Qed.

Lemma validate_loop_raises_iff (aliases : list string) (st : vstate) :
  error_flag st = false ->
  (snd (validate_loop aliases st) = Some ValueError
   <-> exists a, In a aliases
                 /\ stressor_warnings (find_stressor_params validation_config a) <> []).
Proof.
  intros Hflag. induction aliases as [|a rest IH].
  - simpl. split; [discriminate | intros (a & [] & _)].
  - destruct (stressor_warnings (find_stressor_params validation_config a))
      as [|w ws] eqn:Hw.
    + change (a :: rest) with ([a] ++ rest) at 1.
      rewrite validate_loop_clean_prefix by (auto; now constructor).
      rewrite IH. split.
      * intros (b & Hin & Hb). exists b. split; [now right | exact Hb].
      * intros (b & [<- | Hin] & Hb); [congruence|]. now exists b.
    + rewrite validate_loop_first_dirty by (rewrite Hw; discriminate).
      simpl. split; [|reflexivity].
      intros _. exists a. split; [now left | rewrite Hw; discriminate].
Qed.

(** *** Violations of the template *)

(** A key of the parameter set that the template does not have. *)
Definition unexpected_key (stressor_params : dict) : Prop :=
  exists k v, In (k, v) stressor_params /\ get params_placeholder k = None.

(** A key whose value has another type than the template's value. *)
Definition type_mismatch (stressor_params : dict) : Prop :=
  exists k v template,
    In (k, v) stressor_params
    /\ get params_placeholder k = Some template
    /\ type_of v <> type_of template.

(** A key of the template that the parameter set lacks. *)
Definition missing_key (stressor_params : dict) : Prop :=
  exists k, In k (keys params_placeholder) /\ get stressor_params k = None.

Definition violation (stressor_params : dict) : Prop :=
  unexpected_key stressor_params
  \/ type_mismatch stressor_params
  \/ missing_key stressor_params.

(** The parameter set lacks [missing] and no other key of the template. *)
Definition missing_exactly (stressor_params : dict) (missing : string) : Prop :=
  In missing (keys params_placeholder)
  /\ get stressor_params missing = None
  /\ forall k, In k (keys params_placeholder) -> k <> missing ->
               get stressor_params k <> None.

Lemma get_None_not_In (d : dict) (k : string) :
  get d k = None <-> ~ In k (keys d).
Proof.
  induction d as [|[k' v] d IH]; simpl; [tauto|].
  destruct (String.eqb_spec k k') as [-> | Hne].
  - split; [discriminate | intros H; exfalso; apply H; now left].
  - rewrite IH. split; [intros H [E | I]; [congruence | tauto] | tauto].
Qed.

Lemma get_Some_In (d : dict) (k : string) (v : py_value) :
  get d k = Some v -> In (k, v) d.
Proof.
  induction d as [|[k' v'] d IH]; simpl; [discriminate|].
  destruct (String.eqb_spec k k') as [-> | Hne].
  - intros [= ->]. now left.
  - intros H. right. now apply IH.
Qed.

Lemma issubclass_refl (a : py_type) : issubclass a a = true.
Proof. now destruct a. Qed.

Lemma issubclass_true (a b : py_type) :
  issubclass a b = true -> a = b \/ b = PyInt.
Proof. destruct a, b; simpl; intros H; try discriminate; auto. Qed.

Lemma flat_map_nonempty {A B : Type} (f : A -> list B) (l : list A) :
  flat_map f l <> [] -> exists x, In x l /\ f x <> [].
Proof.
  induction l as [|x l IH]; simpl; [congruence|].
  intros H. destruct (f x) as [|y ys] eqn:E.
  - destruct (IH H) as (x' & Hin & Hx'). exists x'. split; [now right | exact Hx'].
  - exists x. split; [now left | rewrite E; discriminate].
Qed.

Lemma flat_map_In_nonempty {A B : Type} (f : A -> list B) (l : list A) (x : A) :
  In x l -> f x <> [] -> flat_map f l <> [].
Proof.
  intros Hin Hx Hnil. destruct (f x) as [|y ys] eqn:E; [congruence|].
  assert (Hy : In y (flat_map f l)).
  { apply in_flat_map. exists x. split; [exact Hin | rewrite E; now left]. }
  rewrite Hnil in Hy. exact Hy.
Qed.

Lemma flat_map_all_nil {A B : Type} (f : A -> list B) (l : list A) :
  (forall x, In x l -> f x = []) -> flat_map f l = [].
Proof.
  induction l as [|x l IH]; simpl; intros H; [reflexivity|].
  rewrite (H x) by now left. apply IH. intros y Hy. apply H. now right.
Qed.

(** Every warning stems from a violation. *)
Lemma warnings_imply_violation (stressor_params : dict) :
  stressor_warnings stressor_params <> [] -> violation stressor_params.
Proof.
  unfold stressor_warnings. intros Hne.
  destruct (flat_map param_warnings stressor_params) as [|w ws] eqn:Hparams.
  - simpl in Hne. destruct (Nat.eqb _ _); [congruence|].
    apply flat_map_nonempty in Hne as (k & Hin & Hk).
    unfold presence_warnings, contains in Hk.
    destruct (get stressor_params k) eqn:Hget; [congruence|].
    right; right. now exists k.
  - assert (Hn : flat_map param_warnings stressor_params <> [])
      by (rewrite Hparams; discriminate).
    apply flat_map_nonempty in Hn as ([k v] & Hin & Hkv).
    unfold param_warnings in Hkv; simpl in Hkv.
    destruct (get params_placeholder k) as [template|] eqn:Hget.
    + right; left. exists k, v, template. repeat split; try assumption.
      intros Heq. unfold isinstance in Hkv.
      rewrite Heq, issubclass_refl in Hkv. congruence.
    + left. now exists k, v.
Qed.

(** With as many keys as the template and one of its keys absent, a
    dictionary has a key that is not in the template. *)
Lemma same_size_missing_has_unexpected (stressor_params : dict) (k : string) :
  NoDup (keys stressor_params) ->
  length stressor_params = length params_placeholder ->
  In k (keys params_placeholder) ->
  get stressor_params k = None ->
  exists k' v', In (k', v') stressor_params /\ get params_placeholder k' = None.
Proof.
  intros Hnd Hlen Hin Hget.
  destruct (Exists_dec (fun kv => get params_placeholder (fst kv) = None) stressor_params)
    as [Hex | Hall].
  - intros kv. destruct (get params_placeholder (fst kv)); [right; discriminate | now left].
  - apply Exists_exists in Hex as ([k' v'] & Hin' & Hnone). now exists k', v'.
  - exfalso.
    assert (Hincl : incl (keys stressor_params)
                         (remove string_dec k (keys params_placeholder))).
    { intros k' Hk'. apply in_in_remove.
      - intros ->. apply get_None_not_In in Hget. contradiction.
      - unfold keys in Hk'. apply in_map_iff in Hk' as ([k0 v0] & <- & Hkv).
        destruct (get params_placeholder k0) eqn:E.
        + simpl. apply get_Some_In in E. unfold keys.
          apply in_map_iff. now exists (k0, p).
        + exfalso. apply Hall. apply Exists_exists. now exists (k0, v0). }
    pose proof (NoDup_incl_length Hnd Hincl) as Hle.
    pose proof (remove_length_lt string_dec (keys params_placeholder) k Hin) as Hlt.
    unfold keys in Hle, Hlt. rewrite !length_map in *. lia.
Qed.

(** Where no template value is an [int], a violation always yields a
    warning. *)
Lemma violation_implies_warnings (stressor_params : dict) :
  Forall (fun kv => type_of (snd kv) <> PyInt) params_placeholder ->
  NoDup (keys stressor_params) ->
  violation stressor_params -> stressor_warnings stressor_params <> [].
Proof.
  intros Hnoint Hnd Hviol.
  assert (Hunexp : forall k v, In (k, v) stressor_params ->
                               get params_placeholder k = None ->
                               stressor_warnings stressor_params <> []).
  { intros k v Hin Hget Hnil. unfold stressor_warnings in Hnil.
    apply app_eq_nil in Hnil as [Hnil _]. revert Hnil.
    apply (flat_map_In_nonempty param_warnings _ (k, v) Hin).
    unfold param_warnings; simpl. rewrite Hget. discriminate. }
  destruct Hviol as [(k & v & Hin & Hget) | [(k & v & t & Hin & Hget & Hty) | (k & Hin & Hget)]].
  - now apply (Hunexp k v).
  - intros Hnil. unfold stressor_warnings in Hnil.
    apply app_eq_nil in Hnil as [Hnil _]. revert Hnil.
    apply (flat_map_In_nonempty param_warnings _ (k, v) Hin).
    unfold param_warnings; simpl. rewrite Hget.
    destruct (isinstance v (type_of t)) eqn:Hinst; [|discriminate].
    exfalso. apply issubclass_true in Hinst as [Heq | Hint]; [contradiction|].
    rewrite Forall_forall in Hnoint.
    apply (Hnoint (k, t)); [now apply get_Some_In | exact Hint].
  - destruct (Nat.eqb (length stressor_params) (length params_placeholder)) eqn:Hlen.
    + apply Nat.eqb_eq in Hlen.
      destruct (same_size_missing_has_unexpected stressor_params k Hnd Hlen Hin Hget)
        as (k' & v' & Hin' & Hget').
      now apply (Hunexp k' v').
    + intros Hnil. unfold stressor_warnings in Hnil. rewrite Hlen in Hnil.
      apply app_eq_nil in Hnil as [_ Hnil]. revert Hnil.
      apply (flat_map_In_nonempty _ _ k Hin).
      unfold presence_warnings, contains. rewrite Hget. discriminate.
Qed.

Lemma presence_warnings_single (stressor_params : dict) (missing : string)
      (ks : list string) :
  NoDup ks ->
  get stressor_params missing = None ->
  (forall k, In k ks -> k <> missing -> get stressor_params k <> None) ->
  flat_map (presence_warnings stressor_params) ks
  = if in_dec string_dec missing ks then [MissingFromConfig missing] else [].
Proof.
  intros Hnd Hmiss Hothers. induction ks as [|k ks IH]; [reflexivity|].
  apply NoDup_cons_iff in Hnd as [Hnotin Hnd].
  simpl flat_map. rewrite IH; auto; [|intros k' Hk'; apply Hothers; now right].
  unfold presence_warnings, contains.
  destruct (string_dec k missing) as [-> | Hne].
  - rewrite Hmiss.
    destruct (in_dec string_dec missing ks) as [Hin | _]; [contradiction|].
    destruct (in_dec string_dec missing (missing :: ks)) as [_ | Hout];
      [reflexivity | exfalso; apply Hout; now left].
  - destruct (get stressor_params k) eqn:Hget;
      [|exfalso; now apply (Hothers k (or_introl eq_refl) Hne)].
    destruct (in_dec string_dec missing ks) as [Hin | Hout];
      destruct (in_dec string_dec missing (k :: ks)) as [Hin' | Hout'];
      try reflexivity.
    + exfalso. apply Hout'. now right.
    + exfalso. destruct Hin' as [E | I]; [congruence | contradiction].
Qed.

(** A parameter set that lacks exactly one template key and is otherwise
    as the template yields exactly one warning, for that key. *)
Lemma missing_one_warnings (stressor_params : dict) (missing : string) :
  NoDup (keys params_placeholder) ->
  NoDup (keys stressor_params) ->
  missing_exactly stressor_params missing ->
  ~ unexpected_key stressor_params ->
  ~ type_mismatch stressor_params ->
  stressor_warnings stressor_params = [MissingFromConfig missing].
Proof.
  intros Hndp Hnd (Hin & Hmiss & Hothers) Hnounexp Hnomis.
  unfold stressor_warnings.
  rewrite flat_map_all_nil.
  - destruct (Nat.eqb (length stressor_params) (length params_placeholder)) eqn:Hlen.
    + exfalso. apply Nat.eqb_eq in Hlen.
      destruct (same_size_missing_has_unexpected stressor_params missing Hnd Hlen Hin Hmiss)
        as (k' & v' & Hin' & Hget').
      apply Hnounexp. now exists k', v'.
    + simpl. rewrite (presence_warnings_single stressor_params missing); auto.
      destruct (in_dec string_dec missing (keys params_placeholder)); [reflexivity | contradiction].
  - intros [k v] Hkv. unfold param_warnings; simpl.
    destruct (get params_placeholder k) as [t|] eqn:Hget.
    + destruct (isinstance v (type_of t)) eqn:Hinst; [reflexivity|].
      exfalso. apply Hnomis. exists k, v, t. repeat split; try assumption.
      intros Heq. unfold isinstance in Hinst.
      rewrite Heq, issubclass_refl in Hinst. discriminate.
    + exfalso. apply Hnounexp. now exists k, v.
Qed.

End Validator.

(** *** The validator against the template of [__init__] *)

Lemma placeholder_keys_NoDup (types : option string) (decline_type : string)
      (lambda_decay k_value : py_value) :
  NoDup (keys (make_params_placeholder types decline_type lambda_decay k_value)).
Proof.
  simpl. repeat constructor; simpl; intuition discriminate.
Qed.

Lemma placeholder_no_int (types : option string) (decline_type : string)
      (lambda_decay k_value : py_value) :
  Forall (fun kv => type_of (snd kv) <> PyInt)
         (make_params_placeholder types decline_type lambda_decay k_value).
Proof.
  unfold make_params_placeholder.
  repeat constructor; simpl; try discriminate. destruct types; discriminate.
Qed.

Lemma validate_unfold (placeholder : dict) (validation_config : py_value)
      (find_stressor_params : py_value -> string -> dict)
      (impedance_stressors : list (string * string)) :
  validate_impedance_config placeholder validation_config find_stressor_params
                            impedance_stressors
  = (warnings (fst (validate_loop placeholder validation_config find_stressor_params
                      (map fst impedance_stressors)
                      {| error_flag := false; warnings := [] |})),
     snd (validate_loop placeholder validation_config find_stressor_params
            (map fst impedance_stressors)
            {| error_flag := false; warnings := [] |})).
Proof.
  unfold validate_impedance_config. now destruct (validate_loop _ _ _ _ _).
Qed.

Section AgainstTemplate.
Variables (types : option string) (decline_type : string) (lambda_decay k_value : py_value).
Variable validation_config : py_value.
Variable find_stressor_params : py_value -> string -> dict.

Local Abbreviation placeholder :=
  (make_params_placeholder types decline_type lambda_decay k_value).
Local Abbreviation params_of alias := (find_stressor_params validation_config alias).

(** C3. Against the template built by [__init__], the validator raises
    exactly when some alias of the registry has a parameter set with a key
    that is not in the template, a key whose type differs from the
    template's, or a template key absent.  In particular, when the first
    offending parameter set lacks exactly one template key and is otherwise
    as the template, it raises and the warnings are exactly the one for
    that key. *)
Theorem validate_raises_exactly_on_violation :
  forall impedance_stressors : list (string * string),
    (forall alias, In alias (map fst impedance_stressors) ->
                   NoDup (keys (params_of alias))) ->
    (snd (validate_impedance_config placeholder validation_config find_stressor_params
                                    impedance_stressors) = Some ValueError
     <-> exists alias, In alias (map fst impedance_stressors)
                       /\ violation placeholder (params_of alias))
    /\ (forall (pre post : list (string * string)) (alias path missing : string),
          impedance_stressors = pre ++ (alias, path) :: post ->
          Forall (fun entry => ~ violation placeholder (params_of (fst entry))) pre ->
          missing_exactly placeholder (params_of alias) missing ->
          ~ unexpected_key placeholder (params_of alias) ->
          ~ type_mismatch placeholder (params_of alias) ->
          validate_impedance_config placeholder validation_config find_stressor_params
                                    impedance_stressors
          = ([MissingFromConfig missing], Some ValueError)).
Proof.
  intros registry Hnd. split.
  - rewrite validate_unfold. simpl snd.
    rewrite validate_loop_raises_iff by reflexivity.
    split; intros (alias & Hin & H); exists alias; (split; [exact Hin|]).
    + now apply warnings_imply_violation.
    + apply violation_implies_warnings; auto using placeholder_no_int.
  - intros pre post alias path missing -> Hpre Hmiss Hnounexp Hnomis.
    rewrite validate_unfold, map_app. simpl map.
    rewrite validate_loop_clean_prefix; [|reflexivity|].
    + assert (Hw : stressor_warnings placeholder (params_of alias)
                   = [MissingFromConfig missing]).
      { apply missing_one_warnings; auto using placeholder_keys_NoDup.
        apply Hnd. rewrite map_app. apply in_or_app. right. now left. }
      rewrite validate_loop_first_dirty by (rewrite Hw; discriminate).
      now rewrite Hw.
    + rewrite Forall_map. eapply Forall_impl; [|exact Hpre].
      intros entry Hclean. simpl in Hclean.
      destruct (stressor_warnings placeholder (params_of (fst entry))) as [|w ws] eqn:Hw;
        [reflexivity|].
      exfalso. apply Hclean. apply warnings_imply_violation. rewrite Hw. discriminate.
Qed.

End AgainstTemplate.

(** *** Runs on concrete configuration files *)

(** [find_stressor_params] for a configuration whose aliases are top-level
    keys. *)
Definition lookup_top_level (config : py_value) (alias : string) : dict :=
  match config with
  | PDict items =>
      match get items alias with
      | Some (PDict params) => params
      | _ => []
      end
  | _ => []
  end.

Definition default_placeholder : dict :=
  make_params_placeholder None "exp_decline" (PInt 500) (PInt 500).

Definition full_params : py_value :=
  PDict [ ("types"%string, PNone);
          ("decline_type"%string, PStr "prop_decline");
          ("exp_decline"%string, PDict [("lambda_decay"%string, PInt 300)]);
          ("prop_decline"%string, PDict [("k_value"%string, PInt 200)]) ].

(** [decline_type] left out. *)
Definition params_without_decline_type : py_value :=
  PDict [ ("types"%string, PNone);
          ("exp_decline"%string, PDict [("lambda_decay"%string, PInt 300)]);
          ("prop_decline"%string, PDict [("k_value"%string, PInt 200)]) ].

(** [decline_type] misspelt: one template key absent, one key too many. *)
Definition params_with_misspelt_key : py_value :=
  PDict [ ("types"%string, PNone);
          ("decline_typ"%string, PStr "exp_decline");
          ("exp_decline"%string, PDict [("lambda_decay"%string, PInt 300)]);
          ("prop_decline"%string, PDict [("k_value"%string, PInt 200)]) ].

(** [types] left out. *)
Definition params_without_types : py_value :=
  PDict [ ("decline_type"%string, PStr "exp_decline");
          ("exp_decline"%string, PDict [("lambda_decay"%string, PInt 300)]);
          ("prop_decline"%string, PDict [("k_value"%string, PInt 200)]) ].

Definition registry_two : list (string * string) :=
  [("roads_primary"%string, "roads.tif"%string); ("rail"%string, "rail.tif"%string)].

Definition config_missing_in_rail : py_value :=
  PDict [("roads_primary"%string, full_params);
         ("rail"%string, params_without_decline_type)].

Definition config_misspelt : py_value :=
  PDict [("roads_primary"%string, params_with_misspelt_key);
         ("rail"%string, full_params)].

Definition config_two_bad : py_value :=
  PDict [("roads_primary"%string, params_without_types);
         ("rail"%string, params_without_decline_type)].

Lemma validate_raises_exactly_on_violation_witness :
  validate_impedance_config default_placeholder config_missing_in_rail lookup_top_level
                            registry_two
  = ([MissingFromConfig "decline_type"], Some ValueError).
Proof.
  refine (proj2 (validate_raises_exactly_on_violation None "exp_decline" (PInt 500) (PInt 500)
                   config_missing_in_rail lookup_top_level registry_two _)
                [("roads_primary"%string, "roads.tif"%string)] []
                "rail"%string "rail.tif"%string "decline_type"%string eq_refl _ _ _ _).
  - intros alias [<- | [<- | []]]; simpl;
      repeat constructor; simpl; intuition discriminate.
  - constructor; [|constructor]. simpl.
    intros [(k & v & Hin & Hget) | [(k & v & t & Hin & Hget & Hty) | (k & Hin & Hget)]];
      simpl in Hin;
      repeat (destruct Hin as [Hin | Hin];
              [try (injection Hin as <- <-); try subst k; simpl in *;
               try discriminate; try (injection Hget as <-; now apply Hty) |]);
      try contradiction.
  - split; [simpl; tauto|]. split; [reflexivity|].
    intros k Hin Hne. simpl in Hin.
    repeat (destruct Hin as [<- | Hin]; [simpl; congruence |]). contradiction.
  - intros (k & v & Hin & Hget). simpl in Hin.
    repeat (destruct Hin as [Hin | Hin]; [injection Hin as <- <-; discriminate |]).
    contradiction.
  - intros (k & v & t & Hin & Hget & Hty). simpl in Hin.
    repeat (destruct Hin as [Hin | Hin];
            [injection Hin as <- <-; simpl in Hget; injection Hget as <-; now apply Hty |]).
    contradiction.
Defined.

(** C4 (the code departs from it). With [decline_type] misspelt the
    validator warns about the unknown key only, never about the absent
    template key; and with a violation under each of two aliases it raises
    after the first alias, so the second one's violation is not reported. *)
Theorem validation_reports_less_than_every_violation :
  validate_impedance_config default_placeholder config_misspelt lookup_top_level
                            registry_two
  = ([NotInPlaceholder "decline_typ"], Some ValueError)
  /\ get (lookup_top_level config_misspelt "roads_primary") "decline_type" = None
  /\ validate_impedance_config default_placeholder config_two_bad lookup_top_level
                               registry_two
     = ([MissingFromConfig "types"], Some ValueError)
  /\ get (lookup_top_level config_two_bad "rail") "decline_type" = None.
Proof.
  repeat split; reflexivity.
Qed.

End Validation.

(* ===================================================================== *)
(** ** The buffer distance of [vector_preprocessor.buffer_features] *)
(* ===================================================================== *)

Module Buffer.

(** Values of the SQL engine ogr2ogr runs the statement on
    ([-dialect SQLite]). *)
Inductive sql_value : Set :=
| SqlNull
| SqlInteger (z : Z)
| SqlReal (q : Q)
| SqlText (s : string).

(** The fragment of SQL the [subquery] string of [buffer_features] is
    written in. *)
Inductive expr : Set :=
| Column (name : string)
| IntLit (z : Z)
| IsNull (e : expr)
| Or (a b : expr)
| CastReal (e : expr)
| InTexts (e : expr) (choices : list string)
| Divide (a b : expr)
| CaseWhen (branches : list (expr * expr)) (otherwise : expr).

(** A row of the layer: the value of each column. *)
Definition row : Set := string -> sql_value.

Definition sql_bool (b : bool) : sql_value :=
  SqlInteger (if b then 1 else 0)%Z.

Section Engine.
(** What [CAST(text AS REAL)] yields for a text value: [None] stands for
    NULL, the case in which the text cannot be cast to a number. *)
Variable cast_text_as_real : string -> option Q.

(** [CAST(v AS REAL)]. *)
Definition cast_real (v : sql_value) : sql_value :=
  match v with
  | SqlNull => SqlNull
  | SqlInteger z => SqlReal (inject_Z z)
  | SqlReal q => SqlReal q
  | SqlText s =>
      match cast_text_as_real s with
      | Some q => SqlReal q
      | None => SqlNull
      end
  end.

(** The truth value of a condition: [None] is SQL's unknown. *)
Definition truth (v : sql_value) : option bool :=
  match cast_real v with
  | SqlReal q => Some (negb (Qeq_bool q 0))
  | _ => None
  end.

(** Three-valued OR. *)
Definition sql_or (a b : sql_value) : sql_value :=
  match truth a, truth b with
  | Some true, _ | _, Some true => sql_bool true
  | Some false, Some false => sql_bool false
  | _, _ => SqlNull
  end.

(** [a / b]: integer division on two integers, real division otherwise;
    NULL on a NULL operand or a zero divisor. *)
Definition sql_divide (a b : sql_value) : sql_value :=
  match a, b with
  | SqlInteger x, SqlInteger y =>
      if Z.eqb y 0 then SqlNull else SqlInteger (Z.quot x y)
  | _, _ =>
      match cast_real a, cast_real b with
      | SqlReal x, SqlReal y =>
          if Qeq_bool y 0 then SqlNull else SqlReal (Qdiv x y)
      | _, _ => SqlNull
      end
  end.

(** [v IN ('t1', 't2', ...)] against text literals. *)
Definition sql_in_texts (v : sql_value) (choices : list string) : sql_value :=
  match v with
  | SqlNull => SqlNull
  | SqlText s => sql_bool (existsb (String.eqb s) choices)
  | _ => sql_bool false
  end.

Fixpoint eval (r : row) (e : expr) : sql_value :=
  match e with
  | Column name => r name
  | IntLit z => SqlInteger z
  | IsNull e1 =>
      match eval r e1 with
      | SqlNull => sql_bool true
      | _ => sql_bool false
      end
  | Or a b => sql_or (eval r a) (eval r b)
  | CastReal e1 => cast_real (eval r e1)
  | InTexts e1 choices => sql_in_texts (eval r e1) choices
  | Divide a b => sql_divide (eval r a) (eval r b)
  | CaseWhen branches otherwise =>
      (fix first_true (bs : list (expr * expr)) : sql_value :=
         match bs with
         | [] => eval r otherwise
         | (cond, result) :: rest =>
             match truth (eval r cond) with
             | Some true => eval r result
             | _ => first_true rest
             end
         end) branches
  end.

Definition motorway_classes : list string :=
  ["motorway"; "motorway_link"; "trunk"; "trunk_link"]%string.

Definition primary_classes : list string :=
  ["primary"; "primary_link"; "secondary"; "secondary_link"]%string.

(** The [subquery] string of [buffer_features] (lines 98-108), the second
    argument of [ST_Buffer] in both forms of the query. *)
Definition subquery : expr :=
  CaseWhen
    [ (Or (IsNull (Column "width")) (IsNull (CastReal (Column "width"))),
       CaseWhen
         [ (InTexts (Column "highway") motorway_classes, Divide (IntLit 30) (IntLit 2));
           (InTexts (Column "highway") primary_classes, Divide (IntLit 20) (IntLit 2)) ]
         (Divide (IntLit 10) (IntLit 2))) ]
    (Divide (CastReal (Column "width")) (IntLit 2)).

(** The distance a feature is buffered by. *)
Definition buffer_distance (r : row) : sql_value := eval r subquery.

(** The fallback half-width by highway class, as the contract states it:
    15 for motorways and trunks, 10 for primary and secondary roads, 5 for
    everything else. *)
Definition fallback_half_width (highway : sql_value) : Z :=
  match highway with
  | SqlText h =>
      if existsb (String.eqb h) motorway_classes then 15
      else if existsb (String.eqb h) primary_classes then 10
      else 5
  | _ => 5
  end%Z.

Lemma eval_case_single (r : row) (cond result otherwise : expr) :
  eval r (CaseWhen [(cond, result)] otherwise)
  = match truth (eval r cond) with
    | Some true => eval r result
    | _ => eval r otherwise
    end.
Proof. reflexivity. Qed.

Lemma fallback_distance (r : row) :
  eval r (CaseWhen
            [ (InTexts (Column "highway") motorway_classes, Divide (IntLit 30) (IntLit 2));
              (InTexts (Column "highway") primary_classes, Divide (IntLit 20) (IntLit 2)) ]
            (Divide (IntLit 10) (IntLit 2)))
  = SqlInteger (fallback_half_width (r "highway"%string)).
Proof.
  simpl. unfold fallback_half_width, sql_in_texts.
  destruct (r "highway"%string) as [| z | q | h]; try reflexivity.
  destruct (existsb (String.eqb h) motorway_classes); [reflexivity|].
  destruct (existsb (String.eqb h) primary_classes); reflexivity.
Qed.

Lemma width_condition (r : row) :
  truth (eval r (Or (IsNull (Column "width")) (IsNull (CastReal (Column "width")))))
  = Some (match cast_real (r "width"%string) with SqlNull => true | _ => false end).
Proof.
  simpl. destruct (r "width"%string) as [| z | q | s]; try reflexivity.
  simpl. destruct (cast_text_as_real s); reflexivity.
Qed.

Lemma distance_of_null_cast (r : row) :
  cast_real (r "width"%string) = SqlNull ->
  buffer_distance r = SqlInteger (fallback_half_width (r "highway"%string)).
Proof.
  intros Hcast. unfold buffer_distance, subquery.
  rewrite eval_case_single, width_condition, Hcast.
  apply fallback_distance.
Qed.

Lemma distance_of_real_cast (r : row) (w : Q) :
  cast_real (r "width"%string) = SqlReal w ->
  buffer_distance r = SqlReal (w / inject_Z 2).
Proof.
  intros Hw. unfold buffer_distance, subquery.
  rewrite eval_case_single, width_condition, Hw.
  cbn [eval]. rewrite Hw. reflexivity.
Qed.

Lemma fallback_half_width_by_class (highway : sql_value) :
  (forall h, highway = SqlText h -> In h motorway_classes ->
             fallback_half_width highway = 15%Z)
  /\ (forall h, highway = SqlText h -> In h primary_classes ->
                fallback_half_width highway = 10%Z)
  /\ ((forall h, highway = SqlText h ->
                 ~ In h motorway_classes /\ ~ In h primary_classes) ->
      fallback_half_width highway = 5%Z).
Proof.
  split; [|split].
  - intros h -> Hin. unfold motorway_classes in Hin. simpl in Hin.
    repeat (destruct Hin as [<- | Hin]; [reflexivity|]). contradiction.
  - intros h -> Hin. unfold primary_classes in Hin. simpl in Hin.
    repeat (destruct Hin as [<- | Hin]; [reflexivity|]). contradiction.
  - intros Hother. unfold fallback_half_width.
    destruct highway as [| z | q | h]; try reflexivity.
    destruct (Hother h eq_refl) as [Hm Hp].
    destruct (existsb (String.eqb h) motorway_classes) eqn:Em.
    { exfalso. apply Hm. apply existsb_exists in Em as (x & Hx & Heq).
      apply String.eqb_eq in Heq. now subst. }
    destruct (existsb (String.eqb h) primary_classes) eqn:Ep; [|reflexivity].
    exfalso. apply Hp. apply existsb_exists in Ep as (x & Hx & Heq).
    apply String.eqb_eq in Heq. now subst.
Qed.

(** On an engine whose cast of a text never yields NULL, only a NULL
    [width] takes the fallback. *)
Remark fallback_only_for_null_when_cast_is_total :
  (forall s, cast_text_as_real s <> None) ->
  forall r : row, cast_real (r "width"%string) = SqlNull -> r "width"%string = SqlNull.
Proof.
  intros Htotal r. destruct (r "width"%string) as [| z | q | s]; simpl;
    try discriminate; [reflexivity|].
  destruct (cast_text_as_real s) eqn:E; [discriminate|].
  now destruct (Htotal s).
Qed.

End Engine.

(** *** The cast of the SQLite dialect *)

(** The statement is run with [-dialect SQLite] (line 132).  SQLite casts a
    text to REAL by reading the longest prefix that is a number, after any
    leading white space, and ignoring the rest; a text without such a
    prefix gives 0.0.  The cast never yields NULL. *)

Definition is_space (c : ascii) : bool :=
  let n := nat_of_ascii c in
  Nat.eqb n 32 || (Nat.leb 9 n && Nat.leb n 13).

Definition digit_value (c : ascii) : option Z :=
  let n := nat_of_ascii c in
  if Nat.leb 48 n && Nat.leb n 57 then Some (Z.of_nat (n - 48)) else None.

Fixpoint skip_spaces (s : string) : string :=
  match s with
  | String c rest => if is_space c then skip_spaces rest else s
  | EmptyString => s
  end.

(** Whether the text starts with a minus sign, and the text after the
    sign. *)
Definition read_sign (s : string) : bool * string :=
  match s with
  | String c rest =>
      if Ascii.eqb c "-" then (true, rest)
      else if Ascii.eqb c "+" then (false, rest)
      else (false, s)
  | EmptyString => (false, s)
  end.

(** The digits at the start of the text, appended to the number read so
    far; how many digits have been read; and the text after them. *)
Fixpoint read_digits (value : Z) (count : nat) (s : string) : Z * nat * string :=
  match s with
  | String c rest =>
      match digit_value c with
      | Some d => read_digits (10 * value + d) (S count) rest
      | None => (value, count, s)
      end
  | EmptyString => (value, count, s)
  end.

(** The exponent at the start of the text: [e] or [E], a sign and at least
    one digit; 0 when there is none. *)
Definition read_exponent (s : string) : Z :=
  match s with
  | String c rest =>
      if Ascii.eqb c "e" || Ascii.eqb c "E" then
        let '(negative, rest1) := read_sign rest in
        let '(e, count, _) := read_digits 0 0 rest1 in
        if Nat.eqb count 0 then 0 else if negative then - e else e
      else 0
  | EmptyString => 0
  end%Z.

Definition pow10 (e : Z) : Q :=
  if Z.leb 0 e then inject_Z (10 ^ e) else 1 / inject_Z (10 ^ (- e)).

(** The number SQLite reads from a text. *)
Definition sqlite_text_to_real (s : string) : Q :=
  let '(negative, s1) := read_sign (skip_spaces s) in
  let '(whole, whole_digits, s2) := read_digits 0 0 s1 in
  let '(mantissa, digits, s3) :=
    match s2 with
    | String c rest =>
        if Ascii.eqb c "." then read_digits whole whole_digits rest
        else (whole, whole_digits, s2)
    | EmptyString => (whole, whole_digits, s2)
    end in
  if Nat.eqb digits 0 then 0
  else
    (if negative then - inject_Z mantissa else inject_Z mantissa)
    * pow10 (read_exponent s3 - Z.of_nat (digits - whole_digits)).

(** [CAST(text AS REAL)] in SQLite. *)
Definition sqlite_cast_text_as_real (s : string) : option Q :=
  Some (sqlite_text_to_real s).

(** A motorway whose [width] tag is not a number. *)
Definition motorway_row : row :=
  fun column =>
    if String.eqb column "width" then SqlText "wide"
    else if String.eqb column "highway" then SqlText "motorway"
    else SqlNull.

(** C6, where the code departs from it.  On the SQLite dialect the code
    asks for, the condition [CAST("width" AS REAL) IS NULL] never holds for
    a width that is there: a NULL width takes the default of the highway
    class (15, 10 or 5) and a numeric width gives half of it, as stated,
    but a width that is a text is always buffered by half of the number
    SQLite reads from it.  A motorway with the width "wide" is buffered by
    0, not by 15. *)
Theorem text_width_never_takes_the_class_default :
  (forall r : row,
      (cast_real sqlite_cast_text_as_real (r "width"%string) = SqlNull
       <-> r "width"%string = SqlNull)
      /\ (r "width"%string = SqlNull ->
            buffer_distance sqlite_cast_text_as_real r
            = SqlInteger (fallback_half_width (r "highway"%string))
            /\ (forall h, r "highway"%string = SqlText h -> In h motorway_classes ->
                          buffer_distance sqlite_cast_text_as_real r = SqlInteger 15)
            /\ (forall h, r "highway"%string = SqlText h -> In h primary_classes ->
                          buffer_distance sqlite_cast_text_as_real r = SqlInteger 10)
            /\ ((forall h, r "highway"%string = SqlText h ->
                           ~ In h motorway_classes /\ ~ In h primary_classes) ->
                buffer_distance sqlite_cast_text_as_real r = SqlInteger 5))
      /\ (forall z : Z, r "width"%string = SqlInteger z ->
            buffer_distance sqlite_cast_text_as_real r
            = SqlReal (inject_Z z / inject_Z 2))
      /\ (forall q : Q, r "width"%string = SqlReal q ->
            buffer_distance sqlite_cast_text_as_real r = SqlReal (q / inject_Z 2))
      /\ (forall s : string, r "width"%string = SqlText s ->
            buffer_distance sqlite_cast_text_as_real r
            = SqlReal (sqlite_text_to_real s / inject_Z 2)))
  /\ motorway_row "width"%string = SqlText "wide"
  /\ fallback_half_width (motorway_row "highway"%string) = 15%Z
  /\ sqlite_text_to_real "wide" = 0
  /\ buffer_distance sqlite_cast_text_as_real motorway_row = SqlReal (0 / inject_Z 2)
  /\ buffer_distance sqlite_cast_text_as_real motorway_row <> SqlInteger 15.
Proof.
  split.
  - intros r. split; [|split; [|split; [|split]]].
    + split.
      * apply fallback_only_for_null_when_cast_is_total. discriminate.
      * now intros ->.
    + intros Hnull.
      assert (Hd : buffer_distance sqlite_cast_text_as_real r
                   = SqlInteger (fallback_half_width (r "highway"%string))).
      { apply distance_of_null_cast. now rewrite Hnull. }
      destruct (fallback_half_width_by_class (r "highway"%string)) as (Hm & Hp & Ho).
      rewrite Hd. split; [reflexivity|]. split; [|split].
      * intros h Hh Hin. now rewrite (Hm h Hh Hin).
      * intros h Hh Hin. now rewrite (Hp h Hh Hin).
      * intros Hother. now rewrite (Ho Hother).
    + intros z Hz. apply distance_of_real_cast. now rewrite Hz.
    + intros q Hq. apply distance_of_real_cast. now rewrite Hq.
    + intros s Hs. apply distance_of_real_cast. now rewrite Hs.
  - split; [reflexivity|]. split; [reflexivity|]. split; [reflexivity|].
    assert (Hd : buffer_distance sqlite_cast_text_as_real motorway_row
                 = SqlReal (0 / inject_Z 2)).
    { apply (distance_of_real_cast sqlite_cast_text_as_real motorway_row 0).
      reflexivity. }
    split; [exact Hd|]. rewrite Hd. discriminate.
Qed.

End Buffer.

(* ===================================================================== *)
(** ** [OsmGeojson_to_gpkg.fix_geometries_in_gpkg] *)
(* ===================================================================== *)

Module GeometryRepair.
Local Open Scope nat_scope.

(** What the routine prints. *)
Inductive output : Set :=
| FixedInvalid (layer_name : string) (fid : Z)
| CouldNotFix (layer_name : string) (fid : Z)
| AllValid (layer_name : string)
| GeometriesFixed (layer_name : string) (count : nat)
| GeometriesNotFixed (layer_name : string) (count : nat).

(** The three counters, reset at the start of every layer (lines 95-97). *)
Record counters : Set := mk_counters {
  feature_to_fix_count : nat;
  fixed_feature_count : nat;
  invalid_feature_count : nat
}.

Definition no_counts : counters :=
  {| feature_to_fix_count := 0; fixed_feature_count := 0; invalid_feature_count := 0 |}.

(** Reading a local variable that no statement has assigned. *)
Inductive exn : Set :=
| UnboundLocalError (variable : string).

Section Repair.
(** OGR geometries with [Geometry.IsValid] and [Geometry.MakeValid]; the
    routine treats the result of [MakeValid] as a geometry. *)
Variable Geometry : Type.
Variable IsValid : Geometry -> bool.
Variable MakeValid : Geometry -> Geometry.

Record feature : Type := mk_feature {
  fid : Z;
  geometry : Geometry
}.

Record layer : Type := mk_layer {
  layer_name : string;
  features : list feature
}.

(** Lines 100-115: the body of [for feature in layer], on the features
    written so far, the counters and the output. *)
Definition fix_feature (name : string)
    (acc : list feature * counters * list output) (f : feature)
  : list feature * counters * list output :=
  let '(written, c, out) := acc in
  if IsValid (geometry f) then (written ++ [f], c, out)
  else
    let fixed_geometry := MakeValid (geometry f) in
    if IsValid fixed_geometry then
      (written ++ [{| fid := fid f; geometry := fixed_geometry |}],
       {| feature_to_fix_count := S (feature_to_fix_count c);
          fixed_feature_count := S (fixed_feature_count c);
          invalid_feature_count := invalid_feature_count c |},
       out ++ [FixedInvalid name (fid f)])
    else
      (written ++ [f],
       {| feature_to_fix_count := S (feature_to_fix_count c);
          fixed_feature_count := fixed_feature_count c;
          invalid_feature_count := S (invalid_feature_count c) |},
       out ++ [CouldNotFix name (fid f)]).

(** The local variables that survive an iteration of the layer loop:
    the layers as rewritten, [layer_name] with the three counters of the
    layer handled last, and the output. *)
Definition fix_layer
    (st : list layer * option (string * counters) * list output) (l : layer)
  : list layer * option (string * counters) * list output :=
  let '(layers, _, out) := st in
  let '(written, c, out') :=
    fold_left (fix_feature (layer_name l)) (features l) ([], no_counts, out) in
  (layers ++ [{| layer_name := layer_name l; features := written |}],
   Some (layer_name l, c), out').

(** Lines 92-125 of [fix_geometries_in_gpkg] on the opened data source: the
    loop over the layers, then the summary, which stands after the loop.
    The copies between [input_gpkg] and [fixed_gpkg] around it move the
    file as a whole and are left out. *)
Definition fix_geometries_in_gpkg (data_source : list layer)
  : exn + (list layer * list output) :=
  let '(layers, last, out) := fold_left fix_layer data_source ([], None, []) in
  match last with
  | None => inl (UnboundLocalError "feature_to_fix_count")
  | Some (name, c) =>
      if Nat.eqb (feature_to_fix_count c) 0 then
        inr (layers, out ++ [AllValid name])
      else
        inr (layers, out ++ [GeometriesFixed name (fixed_feature_count c);
                             GeometriesNotFixed name (invalid_feature_count c)])
  end.

(** *** What one layer's pass does *)

(** The feature as the pass leaves it. *)
Definition repaired (f : feature) : feature :=
  if IsValid (geometry f) then f
  else if IsValid (MakeValid (geometry f)) then
         {| fid := fid f; geometry := MakeValid (geometry f) |}
       else f.

Definition invalid_features (fs : list feature) : list feature :=
  filter (fun f => negb (IsValid (geometry f))) fs.

Definition fixable_features (fs : list feature) : list feature :=
  filter (fun f => IsValid (MakeValid (geometry f))) (invalid_features fs).

Definition unfixable_features (fs : list feature) : list feature :=
  filter (fun f => negb (IsValid (MakeValid (geometry f)))) (invalid_features fs).

Lemma fixable_unfixable_split (fs : list feature) :
  length (fixable_features fs) + length (unfixable_features fs)
  = length (invalid_features fs).
Proof.
  unfold fixable_features, unfixable_features.
  induction (invalid_features fs) as [|f l IH]; simpl; [reflexivity|].
  destruct (IsValid (MakeValid (geometry f))); simpl; lia.
Qed.

Lemma fix_feature_step (name : string) (written : list feature) (c : counters)
      (out : list output) (f : feature) :
  exists out' : list output,
    fix_feature name (written, c, out) f
    = (written ++ [repaired f],
       {| feature_to_fix_count :=
            feature_to_fix_count c + length (invalid_features [f]);
          fixed_feature_count :=
            fixed_feature_count c + length (fixable_features [f]);
          invalid_feature_count :=
            invalid_feature_count c + length (unfixable_features [f]) |},
       out').
Proof.
  unfold fix_feature, repaired, fixable_features, unfixable_features, invalid_features.
  simpl filter.
  destruct (IsValid (geometry f)) eqn:Hv; simpl.
  - exists out. rewrite !Nat.add_0_r. now destruct c.
  - destruct (IsValid (MakeValid (geometry f))) eqn:Hm; simpl;
      eexists; rewrite ?Nat.add_0_r, ?Nat.add_1_r; reflexivity.
Qed.

Lemma invalid_features_cons (f : feature) (fs : list feature) :
  length (invalid_features (f :: fs))
  = length (invalid_features [f]) + length (invalid_features fs).
Proof.
  unfold invalid_features. simpl.
  destruct (negb (IsValid (geometry f))); reflexivity.
Qed.

Lemma fixable_features_cons (f : feature) (fs : list feature) :
  length (fixable_features (f :: fs))
  = length (fixable_features [f]) + length (fixable_features fs).
Proof.
  unfold fixable_features, invalid_features. simpl.
  destruct (negb (IsValid (geometry f))); simpl; [|reflexivity].
  destruct (IsValid (MakeValid (geometry f))); reflexivity.
Qed.

Lemma unfixable_features_cons (f : feature) (fs : list feature) :
  length (unfixable_features (f :: fs))
  = length (unfixable_features [f]) + length (unfixable_features fs).
Proof.
  unfold unfixable_features, invalid_features. simpl.
  destruct (negb (IsValid (geometry f))); simpl; [|reflexivity].
  destruct (negb (IsValid (MakeValid (geometry f)))); reflexivity.
Qed.

Lemma fold_fix_feature (name : string) (fs : list feature) :
  forall (written : list feature) (c : counters) (out : list output),
  exists out' : list output,
    fold_left (fix_feature name) fs (written, c, out)
    = (written ++ map repaired fs,
       {| feature_to_fix_count :=
            feature_to_fix_count c + length (invalid_features fs);
          fixed_feature_count :=
            fixed_feature_count c + length (fixable_features fs);
          invalid_feature_count :=
            invalid_feature_count c + length (unfixable_features fs) |},
       out').
Proof.
  induction fs as [|f fs IH]; intros written c out.
  - exists out. simpl. rewrite app_nil_r, !Nat.add_0_r. now destruct c.
  - change (fold_left (fix_feature name) (f :: fs) (written, c, out))
      with (fold_left (fix_feature name) fs (fix_feature name (written, c, out) f)).
    destruct (fix_feature_step name written c out f) as (out1 & ->).
    match goal with |- context [fold_left _ fs (?w, ?c', ?o)] =>
      destruct (IH w c' o) as (out' & ->) end.
    exists out'. cbn [feature_to_fix_count fixed_feature_count invalid_feature_count].
    rewrite (invalid_features_cons f fs), (fixable_features_cons f fs),
            (unfixable_features_cons f fs), <- app_assoc, !Nat.add_assoc.
    reflexivity.
Qed.

(** For a layer with N invalid features the pass counts N features to fix,
    the fixed and the unfixable ones add up to N, a feature with a valid
    geometry is written back unchanged, and an invalid one receives the
    result of [MakeValid] exactly when that result is valid. *)
Lemma layer_pass_counts (l : layer) (layers : list layer)
      (prev : option (string * counters)) (out : list output) :
  exists (c : counters) (out' : list output),
    fix_layer (layers, prev, out) l
    = (layers ++ [{| layer_name := layer_name l; features := map repaired (features l) |}],
       Some (layer_name l, c), out')
    /\ feature_to_fix_count c = length (invalid_features (features l))
    /\ fixed_feature_count c + invalid_feature_count c = feature_to_fix_count c
    /\ forall f, IsValid (geometry f) = true -> repaired f = f.
Proof.
  unfold fix_layer.
  destruct (fold_fix_feature (layer_name l) (features l) [] no_counts out)
    as (out' & ->).
  eexists. exists out'. split; [reflexivity|]. simpl.
  split; [reflexivity|]. split; [apply fixable_unfixable_split|].
  intros f Hv. unfold repaired. now rewrite Hv.
Qed.

End Repair.

(** *** A data source with two layers *)

Inductive shape : Set := Sound | Repairable | Broken.

Definition shape_is_valid (g : shape) : bool :=
  match g with Sound => true | _ => false end.

Definition shape_make_valid (g : shape) : shape :=
  match g with Repairable => Sound | other => other end.

Definition two_layers : list (layer shape) :=
  [ {| layer_name := "roads";
       features := [ {| fid := 1; geometry := Repairable |};
                     {| fid := 2; geometry := Broken |} ] |};
    {| layer_name := "railways";
       features := [ {| fid := 1; geometry := Sound |} ] |} ].

(** C7 (the code departs from it). The summary of the counts stands after
    the loop over the layers: on a data source whose first layer has two
    invalid features and whose second layer has none, the routine repairs
    what it can but prints a summary for the last layer only, so the counts
    of the first layer are never reported; and on a data source without
    layers the summary reads counters that were never assigned. *)
Theorem counts_reported_for_last_layer_only :
  fix_geometries_in_gpkg shape shape_is_valid shape_make_valid two_layers
  = inr ([ {| layer_name := "roads";
              features := [ {| fid := 1; geometry := Sound |};
                            {| fid := 2; geometry := Broken |} ] |};
           {| layer_name := "railways";
              features := [ {| fid := 1; geometry := Sound |} ] |} ],
         [ FixedInvalid "roads" 1; CouldNotFix "roads" 2; AllValid "railways" ])
  /\ fix_geometries_in_gpkg shape shape_is_valid shape_make_valid []
     = inl (UnboundLocalError "feature_to_fix_count").
Proof.
  split; reflexivity.
Qed.

End GeometryRepair.

(* ===================================================================== *)
(** ** [Osm_PreProcessor.fix_invalid_geometries] *)
(* ===================================================================== *)

Module OsmFilter.
Local Open Scope nat_scope.

(** What [json.load] returns; Python's [None] is [JNull]. *)
Inductive json : Type :=
| JNull
| JBool (b : bool)
| JInt (z : Z)
| JFloat (q : Q)
| JStr (s : string)
| JArr (items : list json)
| JObj (members : list (string * json)).

(** A Python [dict] with string keys, in insertion order. *)
Definition dict : Type := list (string * json).

Record geometry : Type := mk_geometry {
  geometry_type : string;
  coordinates : json
}.

(** A GeoJSON feature as osmtogeojson writes it. *)
Record feature : Type := mk_feature {
  feature_id : string;
  geom : geometry;
  properties : dict
}.

Fixpoint lookup (d : dict) (key : string) : option json :=
  match d with
  | [] => None
  | (k, v) :: rest => if String.eqb key k then Some v else lookup rest key
  end.

(** [d.get(key)]: [None] when the key is absent. *)
Definition py_get (d : dict) (key : string) : json :=
  match lookup d key with
  | Some v => v
  | None => JNull
  end.

(** [d[key] = v]: a key already present keeps its place. *)
Fixpoint dict_set (d : dict) (key : string) (v : json) : dict :=
  match d with
  | [] => [(key, v)]
  | (k, v0) :: rest =>
      if String.eqb key k then (k, v) :: rest
      else (k, v0) :: dict_set rest key v
  end.

(** [v == 0] in Python: the integer 0, the float 0.0 and [False]; a text,
    ["0"] included, is not equal to 0. *)
Definition equals_zero (v : json) : bool :=
  match v with
  | JInt z => Z.eqb z 0
  | JFloat q => Qeq_bool q 0
  | JBool b => negb b
  | _ => false
  end.

(** [v in (None, 0)]. *)
Definition in_none_or_zero (v : json) : bool :=
  match v with
  | JNull => true
  | _ => equals_zero v
  end.

Definition mem (s : string) (l : list string) : bool := existsb (String.eqb s) l.

Definition line_themes : list string := ["roads"; "railways"; "waterways"]%string.
Definition line_types : list string := ["LineString"; "MultiLineString"]%string.
Definition polygon_types : list string := ["Polygon"; "MultiPolygon"]%string.

(** The conditions of the three list comprehensions (lines 322-342). *)
Definition keep (query_name : string) (f : feature) : bool :=
  if mem query_name line_themes then
    mem (geometry_type (geom f)) line_types
    && in_none_or_zero (py_get (properties f) "level")
  else if String.eqb query_name "waterbodies" then
    mem (geometry_type (geom f)) polygon_types
  else true.


Section LowerCasing.
(** [str.lower].  It follows the Unicode tables, not only the letters A to
    Z, and nothing is assumed about it here. *)
Variable lower : string -> string.

(** [{property_key.lower(): property_value for property_key, property_value
    in v.items()}] (line 347). *)
Definition lower_keys (props : dict) : dict :=
  fold_left (fun d kv => dict_set d (lower (fst kv)) (snd kv)) props [].

(** The feature rebuilt by the comprehension of lines 345-351: only the value
    under ["properties"] is replaced. *)
Definition lowercase_keys (f : feature) : feature :=
  {| feature_id := feature_id f;
     geom := geom f;
     properties := lower_keys (properties f) |}.

(** [filtered_features] as written to the output file. *)
Definition filtered_features (query_name : string) (features : list feature)
  : list feature :=
  map lowercase_keys (filter (keep query_name) features).


(** *** Dictionaries rebuilt with lower-case keys *)




Lemma dict_set_fresh (d : dict) (key : string) (v : json) :
  ~ In key (map fst d) -> dict_set d key v = d ++ [(key, v)].
Proof.
  induction d as [|[k0 v0] d IH]; simpl; intros Hfresh; [reflexivity|].
  destruct (String.eqb_spec key k0) as [-> | Hne]; [exfalso; auto|].
  rewrite IH; auto.
Qed.

Definition set_lowered (d : dict) (kv : string * json) : dict :=
  dict_set d (lower (fst kv)) (snd kv).



Lemma fold_set_lowered_injective (props : dict) :
  forall d : dict,
    NoDup (map lower (map fst props)) ->
    (forall k, In k (map fst d) -> ~ In k (map lower (map fst props))) ->
    fold_left set_lowered props d
    = d ++ map (fun kv => (lower (fst kv), snd kv)) props.
Proof.
  induction props as [|[k v] props IH]; intros d Hnd Hdisj; simpl.
  - now rewrite app_nil_r.
  - simpl in Hnd. apply NoDup_cons_iff in Hnd as [Hnotin Hnd].
    unfold set_lowered at 2. simpl.
    rewrite dict_set_fresh by (intros Hin; apply (Hdisj _ Hin); now left).
    rewrite IH; [now rewrite <- app_assoc | exact Hnd |].
    intros k' Hk'. rewrite map_app in Hk'. apply in_app_or in Hk' as [Hk' | [<- | []]].
    + intros Hin. apply (Hdisj _ Hk'). now right.
    + exact Hnotin.
Qed.




(** *** The filter, stated on its own *)







End LowerCasing.

(** *** Features with ASCII keys *)

(** What [str.lower] does to a text of ASCII characters: the letters A to Z
    become a to z and every other character stays.  The keys of the
    features below are ASCII. *)
Definition lower_ascii_letter (c : ascii) : ascii :=
  let n := nat_of_ascii c in
  if (65 <=? n) && (n <=? 90) then ascii_of_nat (n + 32) else c.

Fixpoint lower_ascii_text (s : string) : string :=
  match s with
  | EmptyString => EmptyString
  | String c rest => String (lower_ascii_letter c) (lower_ascii_text rest)
  end.






End OsmFilter.

(* ===================================================================== *)
(** ** [utils.run_shell_command] *)
(* ===================================================================== *)

Module Shell.
Local Open Scope nat_scope.

(** What [Popen(...).communicate()] leaves behind; the outputs are byte
    strings. *)
Record completed : Set := mk_completed {
  returncode : Z;
  stdout : string;
  stderr : string
}.

(** [needle in haystack] on byte strings. *)
Fixpoint contains (needle haystack : string) : bool :=
  match haystack with
  | EmptyString => String.prefix needle EmptyString
  | String _ rest => String.prefix needle haystack || contains needle rest
  end.

Definition has_syntax_error (proc : completed) : bool :=
  contains "syntax error" (stderr proc).

(** *** [stdout.decode('utf-8')] *)

Definition byte_in (low high : nat) (c : ascii) : bool :=
  (low <=? nat_of_ascii c) && (nat_of_ascii c <=? high).

Definition continuation (c : ascii) : bool := byte_in 128 191 c.

(** The first two bytes of a three-byte sequence: no overlong form and no
    surrogate. *)
Definition three_byte_start (b0 b1 : ascii) : bool :=
  (byte_in 224 224 b0 && byte_in 160 191 b1)
  || (byte_in 225 236 b0 && continuation b1)
  || (byte_in 237 237 b0 && byte_in 128 159 b1)
  || (byte_in 238 239 b0 && continuation b1).

(** The first two bytes of a four-byte sequence: no overlong form and
    nothing above U+10FFFF. *)
Definition four_byte_start (b0 b1 : ascii) : bool :=
  (byte_in 240 240 b0 && byte_in 144 191 b1)
  || (byte_in 241 243 b0 && continuation b1)
  || (byte_in 244 244 b0 && byte_in 128 143 b1).

(** Whether the bytes are well-formed UTF-8, which is when the strict
    decoder does not raise. *)
Fixpoint valid_utf8 (s : string) : bool :=
  match s with
  | EmptyString => true
  | String b0 s1 =>
      if byte_in 0 127 b0 then valid_utf8 s1
      else
        match s1 with
        | EmptyString => false
        | String b1 s2 =>
            if byte_in 194 223 b0 then continuation b1 && valid_utf8 s2
            else
              match s2 with
              | EmptyString => false
              | String b2 s3 =>
                  if byte_in 224 239 b0
                  then three_byte_start b0 b1 && continuation b2 && valid_utf8 s3
                  else
                    match s3 with
                    | EmptyString => false
                    | String b3 s4 =>
                        four_byte_start b0 b1 && continuation b2 && continuation b3
                        && valid_utf8 s4
                    end
              end
        end
  end.

(** How a call ends.  The text printed is kept in its UTF-8 bytes. *)
Inductive outcome : Set :=
| Returned (printed : string)
| CalledProcessError (code : Z) (output err : string)
| RecursionError
| UnicodeDecodeError
| UnicodeEncodeError.

(** The processes the function starts, in order. *)
Inductive event : Set :=
| RunBash
| RunDos2unix.

Section Runner.
(** The machine the script runs on: executing [bash path_to_script] yields
    the process result and the machine afterwards; [dos2unix] rewrites the
    script file. *)
Variable World : Type.
Variable bash : World -> completed * World.
Variable dos2unix : World -> World.

(** The interpreter: how many nested Python frames [Popen(...)] with
    [communicate()] and [subprocess.run(...)] need below the frame of
    [run_shell_command], and whether [sys.stdout] can encode a text. *)
Variable popen_frames : nat.
Variable run_frames : nat.
Variable stream_encodes : string -> bool.

(** [print(stdout.decode('utf-8'))] (line 49). *)
Definition print_decoded (out : string) : outcome :=
  if valid_utf8 out then
    if stream_encodes out then Returned out else UnicodeEncodeError
  else UnicodeDecodeError.

(** [run_shell_command] (lines 24-49), called when the recursion limit
    leaves room for [frames] more Python frames.  The retry is a call of
    the function by itself, one frame deeper; a call, or a library call
    inside it, that does not fit raises [RecursionError], which nothing
    catches. *)
Fixpoint run_shell_command (frames : nat) (w : World) : list event * World * outcome :=
  match frames with
  | O => ([], w, RecursionError)
  | S room =>
      if (room <? popen_frames) then ([], w, RecursionError)
      else
        let '(proc, w1) := bash w in
        if negb (Z.eqb (returncode proc) 0) then
          if has_syntax_error proc then
            if (room <? run_frames) then ([RunBash], w1, RecursionError)
            else
              let '(events, w2, o) := run_shell_command room (dos2unix w1) in
              (RunBash :: RunDos2unix :: events, w2, o)
          else
            ([RunBash], w1,
             CalledProcessError (returncode proc) (stdout proc) (stderr proc))
        else
          ([RunBash], w1, print_decoded (stdout proc))
  end.

(** The machine at the start of the call after a failed attempt. *)
Definition after_retry (w : World) : World := dos2unix (snd (bash w)).

Fixpoint after_retries (n : nat) (w : World) : World :=
  match n with
  | O => w
  | S n' => after_retries n' (after_retry w)
  end.

(** The attempt made on this machine exits non-zero with "syntax error"
    on its standard error. *)
Definition syntax_failure (w : World) : Prop :=
  returncode (fst (bash w)) <> 0%Z /\ has_syntax_error (fst (bash w)) = true.

Fixpoint retry_events (n : nat) : list event :=
  match n with
  | O => []
  | S n' => RunBash :: RunDos2unix :: retry_events n'
  end.

(** The room a full retry needs. *)
Definition retry_frames : nat := Nat.max popen_frames run_frames.

Lemma run_unfold (room : nat) (w : World) :
  run_shell_command (S room) w
  = if (room <? popen_frames) then ([], w, RecursionError)
    else if Z.eqb (returncode (fst (bash w))) 0
    then ([RunBash], snd (bash w), print_decoded (stdout (fst (bash w))))
    else if has_syntax_error (fst (bash w)) then
      if (room <? run_frames) then ([RunBash], snd (bash w), RecursionError)
      else (RunBash :: RunDos2unix :: fst (fst (run_shell_command room (after_retry w))),
            snd (fst (run_shell_command room (after_retry w))),
            snd (run_shell_command room (after_retry w)))
    else ([RunBash], snd (bash w),
          CalledProcessError (returncode (fst (bash w))) (stdout (fst (bash w)))
                             (stderr (fst (bash w)))).
Proof.
  unfold after_retry. cbn [run_shell_command].
  destruct (room <? popen_frames); [reflexivity|].
  destruct (bash w) as [proc w1]. cbn [fst snd].
  destruct (Z.eqb (returncode proc) 0); cbn [negb]; [reflexivity|].
  destruct (has_syntax_error proc); [|reflexivity].
  destruct (room <? run_frames); [reflexivity|].
  now destruct (run_shell_command room (dos2unix w1)) as [[events w2] o].
Qed.

Lemma run_unfold_ok (room : nat) (w : World) :
  popen_frames <= room ->
  returncode (fst (bash w)) = 0%Z ->
  run_shell_command (S room) w
  = ([RunBash], snd (bash w), print_decoded (stdout (fst (bash w)))).
Proof.
  intros Hroom Hrc. rewrite run_unfold.
  apply Nat.ltb_ge in Hroom. now rewrite Hroom, Hrc.
Qed.

Lemma run_unfold_raise (room : nat) (w : World) :
  popen_frames <= room ->
  returncode (fst (bash w)) <> 0%Z ->
  has_syntax_error (fst (bash w)) = false ->
  run_shell_command (S room) w
  = ([RunBash], snd (bash w),
     CalledProcessError (returncode (fst (bash w))) (stdout (fst (bash w)))
                        (stderr (fst (bash w)))).
Proof.
  intros Hroom Hrc Hse. rewrite run_unfold.
  apply Nat.ltb_ge in Hroom. apply Z.eqb_neq in Hrc. now rewrite Hroom, Hrc, Hse.
Qed.

Lemma run_unfold_retry (room : nat) (w : World) :
  retry_frames <= room ->
  syntax_failure w ->
  run_shell_command (S room) w
  = (RunBash :: RunDos2unix :: fst (fst (run_shell_command room (after_retry w))),
     snd (fst (run_shell_command room (after_retry w))),
     snd (run_shell_command room (after_retry w))).
Proof.
  unfold retry_frames. intros Hroom [Hrc Hse]. rewrite run_unfold.
  assert (Hp : (room <? popen_frames) = false) by (apply Nat.ltb_ge; lia).
  assert (Hr : (room <? run_frames) = false) by (apply Nat.ltb_ge; lia).
  apply Z.eqb_neq in Hrc. now rewrite Hp, Hrc, Hse, Hr.
Qed.

Lemma print_decoded_cases (out : string) :
  (print_decoded out = Returned out
   /\ valid_utf8 out = true /\ stream_encodes out = true)
  \/ (print_decoded out = UnicodeEncodeError
      /\ valid_utf8 out = true /\ stream_encodes out = false)
  \/ (print_decoded out = UnicodeDecodeError /\ valid_utf8 out = false).
Proof.
  unfold print_decoded.
  destruct (valid_utf8 out); [|now right; right].
  destruct (stream_encodes out); [now left | now right; left].
Qed.

(** A call that ends in [CalledProcessError] made some attempt that exited
    non-zero without "syntax error" on its standard error, after syntax
    failures only, and raises that attempt's result. *)
Lemma raise_only_without_syntax_error (frames : nat) :
  forall (w : World) (code : Z) (out err : string),
    snd (run_shell_command frames w) = CalledProcessError code out err ->
    exists n,
      (forall m, m < n -> syntax_failure (after_retries m w))
      /\ returncode (fst (bash (after_retries n w))) <> 0%Z
      /\ has_syntax_error (fst (bash (after_retries n w))) = false
      /\ code = returncode (fst (bash (after_retries n w)))
      /\ out = stdout (fst (bash (after_retries n w)))
      /\ err = stderr (fst (bash (after_retries n w))).
Proof.
  induction frames as [|room IH]; intros w code out err; [discriminate|].
  rewrite run_unfold.
  destruct (room <? popen_frames); [discriminate|].
  destruct (Z.eqb (returncode (fst (bash w))) 0) eqn:Hrc.
  { cbn [snd].
    destruct (print_decoded_cases (stdout (fst (bash w))))
      as [(-> & _) | [(-> & _) | (-> & _)]]; discriminate. }
  apply Z.eqb_neq in Hrc.
  destruct (has_syntax_error (fst (bash w))) eqn:Hse.
  - destruct (room <? run_frames); [discriminate|]. cbn [snd]. intros Hrest.
    destruct (IH _ _ _ _ Hrest) as (n & Hbefore & Hlast).
    exists (S n). split; [|exact Hlast].
    intros [|m] Hm; [split; assumption | apply Hbefore; lia].
  - cbn [snd]. intros [= <- <- <-]. exists 0. simpl.
    split; [intros m Hm; lia|]. repeat split; assumption.
Qed.

(** A call that returns made some attempt that exited with code 0, after
    syntax failures only, and printed that attempt's output, which was
    well-formed UTF-8 that the stream could encode. *)
Lemma return_only_on_exit_code_zero (frames : nat) :
  forall (w : World) (printed : string),
    snd (run_shell_command frames w) = Returned printed ->
    exists n,
      (forall m, m < n -> syntax_failure (after_retries m w))
      /\ returncode (fst (bash (after_retries n w))) = 0%Z
      /\ printed = stdout (fst (bash (after_retries n w)))
      /\ valid_utf8 printed = true
      /\ stream_encodes printed = true.
Proof.
  induction frames as [|room IH]; intros w printed; [discriminate|].
  rewrite run_unfold.
  destruct (room <? popen_frames); [discriminate|].
  destruct (Z.eqb (returncode (fst (bash w))) 0) eqn:Hrc.
  { cbn [snd]. apply Z.eqb_eq in Hrc.
    destruct (print_decoded_cases (stdout (fst (bash w))))
      as [(-> & Hv & He) | [(-> & _) | (-> & _)]]; try discriminate.
    intros [= <-]. exists 0. simpl.
    split; [intros m Hm; lia|]. repeat split; assumption. }
  apply Z.eqb_neq in Hrc.
  destruct (has_syntax_error (fst (bash w))) eqn:Hse; [|discriminate].
  destruct (room <? run_frames); [discriminate|]. cbn [snd]. intros Hrest.
  destruct (IH _ _ Hrest) as (n & Hbefore & Hlast).
  exists (S n). split; [|exact Hlast].
  intros [|m] Hm; [split; assumption | apply Hbefore; lia].
Qed.

(** While every attempt is a syntax failure, the call repeats bash and
    dos2unix once per frame of room and then raises [RecursionError]. *)
Lemma always_failing_exhausts_the_stack (frames : nat) :
  forall w : World,
    (forall n, syntax_failure (after_retries n w)) ->
    snd (run_shell_command frames w) = RecursionError
    /\ exists tail,
         fst (fst (run_shell_command frames w))
         = retry_events (frames - retry_frames) ++ tail
         /\ (tail = [] \/ tail = [RunBash]).
Proof.
  induction frames as [|room IH]; intros w Hall.
  - split; [reflexivity|]. exists []. split; [reflexivity | now left].
  - destruct (le_lt_dec retry_frames room) as [Hroom | Hroom].
    + rewrite (run_unfold_retry room w Hroom (Hall 0)). cbn [fst snd].
      destruct (IH (after_retry w) (fun n => Hall (S n))) as (Hout & tail & Hev & Htail).
      split; [exact Hout|]. exists tail. split; [|exact Htail].
      rewrite Hev. replace (S room - retry_frames) with (S (room - retry_frames)) by lia.
      reflexivity.
    + replace (S room - retry_frames) with 0 by lia.
      rewrite run_unfold. destruct (Hall 0) as [Hrc Hse]. simpl in Hrc, Hse.
      apply Z.eqb_neq in Hrc. rewrite Hrc, Hse.
      destruct (room <? popen_frames) eqn:Hp.
      * split; [reflexivity|]. exists []. split; [reflexivity | now left].
      * assert (Hr : (room <? run_frames) = true).
        { apply Nat.ltb_ge in Hp. apply Nat.ltb_lt. unfold retry_frames in Hroom. lia. }
        rewrite Hr. split; [reflexivity|]. exists [RunBash]. split; [reflexivity | now right].
Qed.

(** C10, as the code has it.  The function has no retry counter: an
    attempt that exits non-zero with "syntax error" on its standard error
    runs dos2unix and makes the same call again, one frame deeper.  The
    only bound is the interpreter's stack: while every attempt fails that
    way the call repeats bash and dos2unix once for every frame of room
    above what a retry needs and then ends with [RecursionError]; it does
    not run for ever, and it ends neither normally nor with
    [CalledProcessError].  [CalledProcessError] is raised only for an
    attempt that exited non-zero without "syntax error".  The call returns
    only after an attempt with exit code 0 whose output is well-formed
    UTF-8 that the output stream can encode; on exit code 0 with other
    output it raises [UnicodeDecodeError] or [UnicodeEncodeError]. *)
Theorem run_shell_command_retries_until_the_stack_is_exhausted :
  forall w : World,
    (forall room,
        popen_frames <= room ->
        returncode (fst (bash w)) = 0%Z ->
        run_shell_command (S room) w
        = ([RunBash], snd (bash w), print_decoded (stdout (fst (bash w))))
        /\ (print_decoded (stdout (fst (bash w))) = Returned (stdout (fst (bash w)))
            <-> valid_utf8 (stdout (fst (bash w))) = true
                /\ stream_encodes (stdout (fst (bash w))) = true)
        /\ (print_decoded (stdout (fst (bash w))) = UnicodeDecodeError
            <-> valid_utf8 (stdout (fst (bash w))) = false))
    /\ (forall room,
          popen_frames <= room ->
          returncode (fst (bash w)) <> 0%Z ->
          has_syntax_error (fst (bash w)) = false ->
          run_shell_command (S room) w
          = ([RunBash], snd (bash w),
             CalledProcessError (returncode (fst (bash w)))
                                (stdout (fst (bash w)))
                                (stderr (fst (bash w)))))
    /\ (forall room,
          retry_frames <= room ->
          syntax_failure w ->
          run_shell_command (S room) w
          = (RunBash :: RunDos2unix
               :: fst (fst (run_shell_command room (dos2unix (snd (bash w))))),
             snd (fst (run_shell_command room (dos2unix (snd (bash w))))),
             snd (run_shell_command room (dos2unix (snd (bash w))))))
    /\ (forall frames code out err,
          snd (run_shell_command frames w) = CalledProcessError code out err ->
          exists n,
            (forall m, m < n -> syntax_failure (after_retries m w))
            /\ returncode (fst (bash (after_retries n w))) <> 0%Z
            /\ has_syntax_error (fst (bash (after_retries n w))) = false
            /\ code = returncode (fst (bash (after_retries n w)))
            /\ out = stdout (fst (bash (after_retries n w)))
            /\ err = stderr (fst (bash (after_retries n w))))
    /\ (forall frames printed,
          snd (run_shell_command frames w) = Returned printed ->
          exists n,
            (forall m, m < n -> syntax_failure (after_retries m w))
            /\ returncode (fst (bash (after_retries n w))) = 0%Z
            /\ printed = stdout (fst (bash (after_retries n w)))
            /\ valid_utf8 printed = true
            /\ stream_encodes printed = true)
    /\ ((forall n, syntax_failure (after_retries n w)) ->
        forall frames,
          snd (run_shell_command frames w) = RecursionError
          /\ exists tail,
               fst (fst (run_shell_command frames w))
               = retry_events (frames - retry_frames) ++ tail
               /\ (tail = [] \/ tail = [RunBash])).
Proof.
  intros w. split; [|split; [|split; [|split; [|split]]]].
  - intros room Hroom Hrc. split; [now apply run_unfold_ok|].
    destruct (print_decoded_cases (stdout (fst (bash w))))
      as [(-> & Hv & He) | [(-> & Hv & He) | (-> & Hv)]]; rewrite Hv; try rewrite He;
      repeat split; try discriminate; try tauto; intros [? ?]; discriminate.
  - intros room Hroom Hrc Hse. now apply run_unfold_raise.
  - intros room Hroom Hfail. now apply run_unfold_retry.
  - intros frames. apply raise_only_without_syntax_error.
  - intros frames. apply return_only_on_exit_code_zero.
  - intros Hall frames. now apply always_failing_exhausts_the_stack.
Qed.

End Runner.

(** *** A script that dos2unix does not cure *)

(** The machine is the number of conversions made so far; the script fails
    the same way each time. *)
Definition broken_script (conversions : nat) : completed * nat :=
  ({| returncode := 2;
      stdout := "";
      stderr := "script.sh: line 3: syntax error near unexpected token" |},
   conversions).

(** A script that succeeds and writes the single byte 0xFF. *)
Definition latin1_script (conversions : nat) : completed * nat :=
  ({| returncode := 0;
      stdout := String (ascii_of_nat 255) EmptyString;
      stderr := "" |},
   conversions).

(** With room for four frames, of which the process calls need one and two,
    the call on the broken script does end: after three runs of bash and two
    of dos2unix it raises [RecursionError].  And the call on a script that
    exits with code 0 does not return when the output is not UTF-8. *)
Lemma always_failing_call_ends_in_RecursionError :
  run_shell_command nat broken_script S 1 2 (fun _ => true) 4 0
  = ([RunBash; RunDos2unix; RunBash; RunDos2unix; RunBash], 2, RecursionError)
  /\ run_shell_command nat latin1_script S 1 2 (fun _ => true) 4 0
     = ([RunBash], 0, UnicodeDecodeError).
Proof. split; reflexivity. Qed.

Lemma run_shell_command_retries_until_the_stack_is_exhausted_witness :
  snd (run_shell_command nat broken_script S 1 2 (fun _ => true) 4 0) = RecursionError.
Proof.
  refine (proj1 (proj2 (proj2 (proj2 (proj2 (proj2
            (run_shell_command_retries_until_the_stack_is_exhausted
               nat broken_script S 1 2 (fun _ => true) 0))))) _ 4)).
  intros n. split; [discriminate | reflexivity].
Defined.

End Shell.

(* ===================================================================== *)
(** ** [utils.run_shell_command]: when the call ends *)
(* ===================================================================== *)

Module ShellTermination.
Import Shell.
Local Open Scope nat_scope.

Section Ending.
Variable World : Type.
Variable bash : World -> completed * World.
Variable dos2unix : World -> World.
Variable popen_frames : nat.
Variable run_frames : nat.
Variable stream_encodes : string -> bool.

Local Abbreviation run := (run_shell_command World bash dos2unix popen_frames run_frames
                                            stream_encodes).
Local Abbreviation failing := (syntax_failure World bash).
Local Abbreviation later := (after_retries World bash dos2unix).

(** How a call ends on an attempt that is not a syntax failure. *)
Definition outcome_of (proc : completed) : outcome :=
  if Z.eqb (returncode proc) 0 then print_decoded stream_encodes (stdout proc)
  else CalledProcessError (returncode proc) (stdout proc) (stderr proc).

Lemma run_unfold_other (room : nat) (w : World) :
  popen_frames <= room ->
  ~ failing w ->
  run (S room) w = ([RunBash], snd (bash w), outcome_of (fst (bash w))).
Proof.
  intros Hroom Hnot. unfold outcome_of. rewrite run_unfold.
  apply Nat.ltb_ge in Hroom. rewrite Hroom.
  destruct (Z.eqb (returncode (fst (bash w))) 0) eqn:Hrc; [reflexivity|].
  destruct (has_syntax_error (fst (bash w))) eqn:Hse; [|reflexivity].
  exfalso. apply Hnot. split; [now apply Z.eqb_neq | exact Hse].
Qed.

Lemma ends_after_the_failures (n : nat) :
  forall (w : World) (frames : nat),
    (forall m, m < n -> failing (later m w)) ->
    ~ failing (later n w) ->
    n + retry_frames popen_frames run_frames < frames ->
    run frames w
    = (retry_events n ++ [RunBash], snd (bash (later n w)),
       outcome_of (fst (bash (later n w)))).
Proof.
  unfold retry_frames.
  induction n as [|n IH]; intros w frames Hbefore Hlast Hroom.
  - destruct frames as [|room]; [lia|]. simpl in Hlast |- *.
    apply run_unfold_other; [lia | exact Hlast].
  - destruct frames as [|room]; [lia|].
    rewrite run_unfold_retry; [| unfold retry_frames; lia | apply (Hbefore 0); lia].
    rewrite (IH (after_retry World bash dos2unix w) room); [reflexivity | | exact Hlast | lia].
    intros m Hm. apply (Hbefore (S m)). lia.
Qed.

Lemma stack_exhausted_during_the_failures (frames : nat) :
  forall (w : World) (n : nat),
    (forall m, m < n -> failing (later m w)) ->
    frames <= n ->
    snd (run frames w) = RecursionError.
Proof.
  induction frames as [|room IH]; intros w n Hbefore Hroom; [reflexivity|].
  rewrite run_unfold. destruct n as [|n]; [lia|].
  destruct (Hbefore 0) as [Hrc Hse]; [lia|]. simpl in Hrc, Hse.
  apply Z.eqb_neq in Hrc. rewrite Hrc, Hse.
  destruct (room <? popen_frames); [reflexivity|].
  destruct (room <? run_frames); [reflexivity|]. cbn [snd].
  apply (IH _ n); [|lia].
  intros m Hm. apply (Hbefore (S m)). lia.
Qed.

(** When the first [n] attempts are syntax failures and the next one is
    not, and the stack has room for the [n] retries and the last attempt,
    the call ends with that attempt's outcome, having run bash [n + 1]
    times and dos2unix [n] times: [CalledProcessError] for a non-zero exit,
    and for exit code 0 a normal return when the output decodes and
    prints, [UnicodeDecodeError] or [UnicodeEncodeError] when it does not.
    With room for no more than [n] frames the call ends with
    [RecursionError] instead. *)
Theorem first_other_attempt_ends_the_call :
  forall (n : nat) (w : World),
    (forall m, m < n -> failing (later m w)) ->
    ~ failing (later n w) ->
    (forall frames : nat,
        n + retry_frames popen_frames run_frames < frames ->
        fst (fst (run frames w)) = retry_events n ++ [RunBash]
        /\ snd (fst (run frames w)) = snd (bash (later n w))
        /\ snd (run frames w) = outcome_of (fst (bash (later n w))))
    /\ (forall frames : nat, frames <= n -> snd (run frames w) = RecursionError).
Proof.
  intros n w Hbefore Hlast. split.
  - intros frames Hroom.
    rewrite (ends_after_the_failures n w frames Hbefore Hlast Hroom).
    repeat split.
  - intros frames Hroom.
    now apply (stack_exhausted_during_the_failures frames w n).
Qed.

End Ending.

(** A script with DOS line endings: it fails until converted once. *)
Definition crlf_script (conversions : nat) : completed * nat :=
  match conversions with
  | O => ({| returncode := 2; stdout := "";
             stderr := "script.sh: line 2: syntax error: unexpected end of file" |},
          conversions)
  | S _ => ({| returncode := 0; stdout := "done"; stderr := "" |}, conversions)
  end.

Lemma first_other_attempt_ends_the_call_witness :
  fst (fst (run_shell_command nat crlf_script S 1 2 (fun _ => true) 5 0))
  = [RunBash; RunDos2unix; RunBash]
  /\ snd (fst (run_shell_command nat crlf_script S 1 2 (fun _ => true) 5 0)) = 1
  /\ snd (run_shell_command nat crlf_script S 1 2 (fun _ => true) 5 0) = Returned "done".
Proof.
  refine (proj1 (first_other_attempt_ends_the_call nat crlf_script S 1 2 (fun _ => true)
                   1 0 _ _) 5 _).
  - intros m Hm. assert (m = 0) as -> by lia. split; [discriminate | reflexivity].
  - intros [Hrc _]. now apply Hrc.
  - simpl. lia.
Defined.

End ShellTermination.

(* ===================================================================== *)
(** ** [validate_impedance_config]: what the warnings say *)
(* ===================================================================== *)

Module ValidationReport.
Import Validation.

Section Report.
Variable params_placeholder : dict.
Variable validation_config : py_value.
Variable find_stressor_params : py_value -> string -> dict.

(** What a warning asserts about a parameter set. *)
Definition justified (stressor_params : dict) (w : warning) : Prop :=
  match w with
  | NotInPlaceholder key =>
      exists v, In (key, v) stressor_params /\ get params_placeholder key = None
  | DifferentDatatype key expected got =>
      exists v template,
        In (key, v) stressor_params
        /\ get params_placeholder key = Some template
        /\ expected = type_of template /\ got = type_of v
        /\ isinstance v expected = false
  | MissingFromConfig key =>
      In key (keys params_placeholder) /\ get stressor_params key = None
  end.

Lemma stressor_warnings_justified (stressor_params : dict) (w : warning) :
  In w (stressor_warnings params_placeholder stressor_params) ->
  justified stressor_params w.
Proof.
  unfold stressor_warnings. intros Hin. apply in_app_or in Hin as [Hin | Hin].
  - apply in_flat_map in Hin as ([k v] & Hkv & Hw).
    unfold param_warnings in Hw; simpl in Hw.
    destruct (get params_placeholder k) as [template|] eqn:Hget.
    + destruct (isinstance v (type_of template)) eqn:Hinst; [contradiction|].
      destruct Hw as [<- | []]. simpl. exists v, template. repeat split; assumption.
    + destruct Hw as [<- | []]. simpl. now exists v.
  - destruct (Nat.eqb _ _); [contradiction|].
    apply in_flat_map in Hin as (k & Hk & Hw).
    unfold presence_warnings, contains in Hw.
    destruct (get stressor_params k) eqn:Hget; [contradiction|].
    destruct Hw as [<- | []]. simpl. split; assumption.
Qed.

(** The state of the loop when it stops: either no warning was added and
    nothing is raised, or the warnings added are those of one alias, the
    first that has any, and [ValueError] is raised. *)
Lemma validate_loop_report (aliases : list string) :
  forall st : vstate,
    error_flag st = false ->
    (validate_loop params_placeholder validation_config find_stressor_params aliases st
     = (st, None)
     /\ Forall (fun a => stressor_warnings params_placeholder
                           (find_stressor_params validation_config a) = []) aliases)
    \/ exists pre alias post,
         aliases = pre ++ alias :: post
         /\ Forall (fun a => stressor_warnings params_placeholder
                               (find_stressor_params validation_config a) = []) pre
         /\ stressor_warnings params_placeholder
              (find_stressor_params validation_config alias) <> []
         /\ validate_loop params_placeholder validation_config find_stressor_params
                          aliases st
            = (emit (stressor_warnings params_placeholder
                       (find_stressor_params validation_config alias)) st,
               Some ValueError).
Proof.
  induction aliases as [|a rest IH]; intros st Hflag.
  - left. split; [reflexivity | constructor].
  - destruct (stressor_warnings params_placeholder
                (find_stressor_params validation_config a)) as [|w ws] eqn:Hw.
    + change (a :: rest) with ([a] ++ rest).
      rewrite validate_loop_clean_prefix by (auto; now constructor).
      destruct (IH st Hflag) as [[Heq Hall] | (pre & alias & post & -> & Hpre & Hne & Heq)].
      * left. split; [exact Heq | now constructor].
      * right. exists (a :: pre), alias, post.
        repeat split; try assumption. now constructor.
    + right. exists [], a, rest.
      split; [reflexivity|]. split; [constructor|].
      split; [rewrite Hw; discriminate|].
      apply validate_loop_first_dirty. rewrite Hw. discriminate.
Qed.

(** The validator returns normally exactly when it emitted no warning; when
    it raises, the warnings all concern one alias of the registry, the
    first with a defect, and each of them is true of that alias's
    parameter set: the key it names is unknown to the template, holds a
    value that is no instance of the template's type, or is a template key
    the set lacks. *)
Theorem warnings_are_justified_and_decide_the_outcome :
  forall impedance_stressors : list (string * string),
    (snd (validate_impedance_config params_placeholder validation_config
            find_stressor_params impedance_stressors) = None
     <-> fst (validate_impedance_config params_placeholder validation_config
                find_stressor_params impedance_stressors) = [])
    /\ (fst (validate_impedance_config params_placeholder validation_config
               find_stressor_params impedance_stressors) = []
        \/ exists pre alias post,
             map fst impedance_stressors = pre ++ alias :: post
             /\ Forall (fun a => stressor_warnings params_placeholder
                                   (find_stressor_params validation_config a) = []) pre
             /\ forall w,
                  In w (fst (validate_impedance_config params_placeholder
                               validation_config find_stressor_params
                               impedance_stressors)) ->
                  justified (find_stressor_params validation_config alias) w).
Proof.
  intros registry. rewrite validate_unfold. simpl fst. simpl snd.
  destruct (validate_loop_report (map fst registry)
              {| error_flag := false; warnings := [] |} eq_refl)
    as [[Heq _] | (pre & alias & post & Hsplit & Hpre & Hne & Heq)];
    rewrite Heq; simpl.
  - split; [tauto | now left].
  - split.
    + split; [discriminate|]. intros Hnil. contradiction.
    + right. exists pre, alias, post. repeat split; try assumption.
      intros w Hin. now apply stressor_warnings_justified.
Qed.

End Report.
End ValidationReport.

(* ===================================================================== *)
(** ** [calculate_impedance]: what a run leaves in its log *)
(* ===================================================================== *)

Module ImpedanceRuns.
Import Impedance.
Local Open Scope nat_scope.

Definition is_processing (e : event) : bool :=
  match e with Processing _ _ => true | _ => false end.

Definition is_failed_to_open (e : event) : bool :=
  match e with FailedToOpen _ => true | _ => false end.

Definition is_handle_no_data (e : event) : bool :=
  match e with HandleNoData _ => true | _ => false end.

Definition is_compute_proximity (e : event) : bool :=
  match e with ComputeProximity _ => true | _ => false end.

Definition is_calculate_edge_effect (e : event) : bool :=
  match e with CalculateEdgeEffect _ => true | _ => false end.

Definition count (p : event -> bool) (events : list event) : nat :=
  length (filter p events).

Section AnyProcessor.
Context {Raster Processor Decayed : Type} `{API : ProcessorAPI Raster Processor Decayed}.

(** The events one iteration appends. *)
Definition events_of_entry (st : @loop_state Raster Processor) (entry : string * string) : list event :=
  if ds_is_none (new_processor (max_result st) (cumul_result st) (fst entry) (snd entry))
  then [Processing (snd entry) (fst entry); FailedToOpen (snd entry)]
  else [Processing (snd entry) (fst entry); HandleNoData (fst entry);
        ComputeProximity (fst entry); CalculateEdgeEffect (fst entry)].

Lemma log_loop_body (st : @loop_state Raster Processor) (entry : string * string) :
  log (loop_body st entry) = log st ++ events_of_entry st entry.
Proof.
  destruct entry as [y r]. unfold loop_body, events_of_entry. simpl.
  destruct (ds_is_none _); [reflexivity|].
  destruct (compute_proximity _) as [p2 prox].
  destruct (calculate_edge_effect _ _) as [p3 m]. reflexivity.
Qed.

(** The log of a run, relative to the log it started from. *)
Lemma log_run_loop (impedance_stressors : list (string * string)) :
  forall st : @loop_state Raster Processor,
  exists added : list event,
    log (run_loop impedance_stressors st) = log st ++ added
    /\ filter is_processing added
       = map (fun entry => Processing (snd entry) (fst entry)) impedance_stressors
    /\ count is_failed_to_open added + count is_calculate_edge_effect added
       = length impedance_stressors
    /\ count is_handle_no_data added = count is_calculate_edge_effect added
    /\ count is_compute_proximity added = count is_calculate_edge_effect added.
Proof.
  induction impedance_stressors as [|entry rest IH]; intros st.
  - exists []. simpl. rewrite app_nil_r. repeat split.
  - change (run_loop (entry :: rest) st) with (run_loop rest (loop_body st entry)).
    destruct (IH (loop_body st entry)) as (added & Hlog & Hproc & Hcount & Hnd & Hprox).
    exists (events_of_entry st entry ++ added).
    rewrite Hlog, log_loop_body, <- app_assoc. split; [reflexivity|].
    unfold count in *. rewrite !filter_app, !length_app, Hproc.
    unfold events_of_entry. destruct (ds_is_none _); simpl; repeat split; lia.
Qed.

(** Every registry entry is visited exactly once and in registry order;
    each visit either reports a failure to open or calls [handle_no_data],
    [compute_proximity] and [calculate_edge_effect] once each. *)
Theorem every_entry_is_visited_once :
  forall impedance_stressors : list (string * string),
    filter is_processing (log (run_loop impedance_stressors initial_state))
    = map (fun entry => Processing (snd entry) (fst entry)) impedance_stressors
    /\ count is_failed_to_open (log (run_loop impedance_stressors initial_state))
       + count is_calculate_edge_effect (log (run_loop impedance_stressors initial_state))
       = length impedance_stressors
    /\ count is_handle_no_data (log (run_loop impedance_stressors initial_state))
       = count is_calculate_edge_effect (log (run_loop impedance_stressors initial_state))
    /\ count is_compute_proximity (log (run_loop impedance_stressors initial_state))
       = count is_calculate_edge_effect (log (run_loop impedance_stressors initial_state)).
Proof.
  intros reg.
  destruct (log_run_loop reg initial_state) as (added & Hlog & H).
  simpl in Hlog. rewrite Hlog. exact H.
Qed.

Lemma unreadable_run (impedance_stressors : list (string * string)) :
  forall st : @loop_state Raster Processor,
    max_result st = None ->
    cumul_result st = None ->
    (forall entry, In entry impedance_stressors ->
                   ds_is_none (new_processor None None (fst entry) (snd entry)) = true) ->
    max_result (run_loop impedance_stressors st) = None
    /\ log (run_loop impedance_stressors st)
       = log st ++ flat_map (fun entry => [Processing (snd entry) (fst entry);
                                           FailedToOpen (snd entry)])
                            impedance_stressors.
Proof.
  induction impedance_stressors as [|[y r] rest IH]; intros st Hmax Hcumul Hall.
  - simpl. now rewrite app_nil_r.
  - change (run_loop ((y, r) :: rest) st) with (run_loop rest (loop_body st (y, r))).
    assert (Hbody : loop_body st (y, r)
                    = {| max_result := None; cumul_result := None;
                         impedance_processor := Some (new_processor None None y r);
                         log := log st ++ [Processing r y; FailedToOpen r] |}).
    { pose proof (Hall (y, r) (or_introl eq_refl)) as Hnone. simpl in Hnone.
      unfold loop_body. rewrite Hmax, Hcumul. now rewrite Hnone. }
    rewrite Hbody.
    destruct (IH {| max_result := None; cumul_result := None;
                    impedance_processor := Some (new_processor None None y r);
                    log := log st ++ [Processing r y; FailedToOpen r] |}
                 eq_refl eq_refl) as [Hm Hl].
    + intros entry Hin. apply Hall. now right.
    + split; [exact Hm|]. rewrite Hl. simpl. now rewrite <- app_assoc.
Qed.

(** When no raster of a non-empty registry opens, the run calls no
    processing method and keeps no accumulator, and the final decay step is
    still invoked, on the processor of the last entry, which was built
    without an accumulator and without a dataset. *)
Theorem no_raster_opens_final_step_without_accumulator :
  forall (pre : list (string * string)) (last_entry : string * string),
    (forall entry, In entry (pre ++ [last_entry]) ->
                   ds_is_none (new_processor None None (fst entry) (snd entry)) = true) ->
    max_result (run_loop (pre ++ [last_entry]) initial_state) = None
    /\ log (run_loop (pre ++ [last_entry]) initial_state)
       = flat_map (fun entry => [Processing (snd entry) (fst entry);
                                 FailedToOpen (snd entry)])
                  (pre ++ [last_entry])
    /\ calculate_impedance (pre ++ [last_entry])
       = inr (run_loop (pre ++ [last_entry]) initial_state,
              update_impedance_with_decay
                (new_processor None None (fst last_entry) (snd last_entry))).
Proof.
  intros pre last_entry Hall.
  destruct (unreadable_run (pre ++ [last_entry]) initial_state eq_refl eq_refl Hall)
    as [Hmax Hlog].
  split; [exact Hmax|]. split; [exact Hlog|].
  destruct (unreadable_run pre initial_state eq_refl eq_refl) as [Hpre _].
  { intros entry Hin. apply Hall. apply in_or_app. now left. }
  unfold calculate_impedance. rewrite run_loop_app.
  destruct last_entry as [y r]. simpl.
  assert (Hnone : ds_is_none (new_processor None None y r) = true).
  { apply (Hall (y, r)). apply in_or_app. right. now left. }
  unfold loop_body. rewrite Hpre, cumul_result_run_loop. simpl.
  now rewrite Hnone.
Qed.

End AnyProcessor.

Lemma no_raster_opens_final_step_without_accumulator_witness :
  max_result (run_loop (API := scenario_api) ([missing_entry] ++ [missing_entry])
                       initial_state) = None.
Proof.
  refine (proj1 (no_raster_opens_final_step_without_accumulator (API := scenario_api)
                   [missing_entry] missing_entry _)).
  intros entry [<- | [<- | []]]; reflexivity.
Defined.

End ImpedanceRuns.

(* ===================================================================== *)
(** ** [buffer_features]: the range of the buffer distance *)
(* ===================================================================== *)

Module BufferRange.
Import Buffer.

Section Engine.
Variable cast_text_as_real : string -> option Q.

Lemma cast_real_null_or_real (v : sql_value) :
  cast_real cast_text_as_real v = SqlNull
  \/ exists w, cast_real cast_text_as_real v = SqlReal w.
Proof.
  destruct v as [| z | q | s]; simpl; eauto.
  destruct (cast_text_as_real s); eauto.
Qed.

Lemma fallback_half_width_values (highway : sql_value) :
  fallback_half_width highway = 5%Z
  \/ fallback_half_width highway = 10%Z
  \/ fallback_half_width highway = 15%Z.
Proof.
  unfold fallback_half_width. destruct highway as [| z | q | h]; auto.
  destruct (existsb (String.eqb h) motorway_classes); auto.
  destruct (existsb (String.eqb h) primary_classes); auto.
Qed.

Lemma distance_when_cast_is_null (r : row) :
  cast_real cast_text_as_real (r "width"%string) = SqlNull ->
  buffer_distance cast_text_as_real r
  = SqlInteger (fallback_half_width (r "highway"%string)).
Proof.
  intros Hcast. unfold buffer_distance, subquery.
  rewrite eval_case_single, width_condition, Hcast.
  apply fallback_distance.
Qed.

Lemma distance_when_cast_is_real (r : row) (w : Q) :
  cast_real cast_text_as_real (r "width"%string) = SqlReal w ->
  buffer_distance cast_text_as_real r = SqlReal (w / inject_Z 2).
Proof.
  intros Hw. unfold buffer_distance, subquery.
  rewrite eval_case_single, width_condition, Hw.
  cbn [eval]. rewrite Hw. reflexivity.
Qed.

(** Whatever the row holds, the distance handed to [ST_Buffer] is a number
    and never NULL or a text: one of the integers 5, 10 and 15 when the
    cast of [width] is NULL, and otherwise half of the cast width, which is
    not negative unless the width is. *)
Theorem buffer_distance_is_a_number :
  forall r : row,
    buffer_distance cast_text_as_real r <> SqlNull
    /\ (forall s, buffer_distance cast_text_as_real r <> SqlText s)
    /\ ((cast_real cast_text_as_real (r "width"%string) = SqlNull
         /\ exists z, buffer_distance cast_text_as_real r = SqlInteger z
                      /\ (z = 5 \/ z = 10 \/ z = 15)%Z)
        \/ (exists w, cast_real cast_text_as_real (r "width"%string) = SqlReal w
                      /\ buffer_distance cast_text_as_real r = SqlReal (w / inject_Z 2)
                      /\ (0 <= w -> 0 <= w / inject_Z 2)%Q)).
Proof.
  intros r.
  destruct (cast_real_null_or_real (r "width"%string)) as [Hnull | (w & Hw)].
  - rewrite (distance_when_cast_is_null r Hnull).
    split; [discriminate|]. split; [discriminate|].
    left. split; [exact Hnull|].
    eexists. split; [reflexivity | apply fallback_half_width_values].
  - rewrite (distance_when_cast_is_real r w Hw).
    split; [discriminate|]. split; [discriminate|].
    right. exists w. split; [exact Hw|]. split; [reflexivity|].
    intros Hpos. apply Qle_shift_div_l; [reflexivity|].
    now rewrite Qmult_0_l.
Qed.

End Engine.
End BufferRange.

(* ===================================================================== *)
(** ** [fix_invalid_geometries]: filtering what was filtered *)
(* ===================================================================== *)

Module OsmRefilter.
Import OsmFilter.

(** The keys of a dictionary as Python holds it: no key twice. *)
Definition distinct_keys (d : dict) : Prop := NoDup (map fst d).

Lemma filter_twice {A : Type} (p : A -> bool) (l : list A) :
  filter p (filter p l) = filter p l.
Proof.
  induction l as [|x l IH]; simpl; [reflexivity|].
  destruct (p x) eqn:E; simpl; [rewrite E, IH|]; auto.
Qed.

Section LowerCasing.
(** [str.lower], as in [OsmFilter]: nothing is assumed about it. *)
Variable lower : string -> string.

(** Every key is its own [str.lower] form. *)
Definition lower_case_keys (d : dict) : Prop :=
  forall k, In k (map fst d) -> lower k = k.

(** A dictionary whose keys are distinct and lower-case is rebuilt as it
    is. *)
Lemma lower_keys_fixed (props : dict) :
  distinct_keys props -> lower_case_keys props -> lower_keys lower props = props.
Proof.
  intros Hnd Hlow. unfold lower_keys. fold (set_lowered lower).
  assert (Hkeys : map lower (map fst props) = map fst props).
  { rewrite <- (map_id (map fst props)) at 2. apply map_ext_in. exact Hlow. }
  rewrite fold_set_lowered_injective.
  - simpl. rewrite <- (map_id props) at 2. apply map_ext_in.
    intros [k v] Hin. simpl. f_equal. apply Hlow.
    apply in_map_iff. now exists (k, v).
  - now rewrite Hkeys.
  - intros k [].
Qed.

Lemma lowercase_keys_fixed (f : feature) :
  distinct_keys (properties f) -> lower_case_keys (properties f) ->
  lowercase_keys lower f = f.
Proof.
  intros Hnd Hlow. destruct f as [i g p]. unfold lowercase_keys. simpl in *.
  now rewrite lower_keys_fixed.
Qed.

(** A collection whose features carry distinct keys that [str.lower]
    leaves as they are is returned by the filter as its sub-collection of
    retained features, each feature unchanged, and filtering that result
    again changes nothing. *)
Theorem filtering_lower_case_features_is_idempotent :
  forall (query_name : string) (features : list feature),
    (forall f, In f features ->
               distinct_keys (properties f) /\ lower_case_keys (properties f)) ->
    filtered_features lower query_name features = filter (keep query_name) features
    /\ filtered_features lower query_name (filtered_features lower query_name features)
       = filtered_features lower query_name features.
Proof.
  intros q features Hall.
  assert (Hid : forall l, (forall f, In f l -> In f features) ->
                          map (lowercase_keys lower) l = l).
  { intros l Hl. rewrite <- (map_id l) at 2. apply map_ext_in.
    intros f Hin. destruct (Hall f (Hl f Hin)). now apply lowercase_keys_fixed. }
  assert (Hfirst : filtered_features lower q features = filter (keep q) features).
  { unfold filtered_features. apply Hid. intros f Hin.
    now apply filter_In in Hin as [Hin _]. }
  split; [exact Hfirst|].
  rewrite Hfirst. unfold filtered_features. rewrite filter_twice.
  apply Hid. intros f Hin. now apply filter_In in Hin as [Hin _].
Qed.

End LowerCasing.

(** A way above ground whose level is tagged under the key "Level". *)
Definition bridge_with_capital_level : feature :=
  {| feature_id := "way/3";
     geom := {| geometry_type := "LineString"; coordinates := JArr [] |};
     properties := [ ("highway"%string, JStr "primary"); ("Level"%string, JInt 1) ] |}.

Definition ground_way : feature :=
  {| feature_id := "way/4";
     geom := {| geometry_type := "LineString"; coordinates := JArr [] |};
     properties := [ ("highway"%string, JStr "primary"); ("level"%string, JInt 0) ] |}.

(** The hypothesis on the keys is needed: the level is read before the keys
    are lower-cased, so this way passes once and is dropped the second
    time. *)
Example capital_level_passes_once :
  filtered_features lower_ascii_text "roads" [bridge_with_capital_level]
  = [ {| feature_id := "way/3";
         geom := {| geometry_type := "LineString"; coordinates := JArr [] |};
         properties := [ ("highway"%string, JStr "primary");
                         ("level"%string, JInt 1) ] |} ]
  /\ filtered_features lower_ascii_text "roads"
       (filtered_features lower_ascii_text "roads" [bridge_with_capital_level]) = [].
Proof. split; reflexivity. Qed.

Lemma filtering_lower_case_features_is_idempotent_witness :
  filtered_features lower_ascii_text "roads"
    (filtered_features lower_ascii_text "roads" [ground_way])
  = filtered_features lower_ascii_text "roads" [ground_way].
Proof.
  refine (proj2 (filtering_lower_case_features_is_idempotent lower_ascii_text
                   "roads" [ground_way] _)).
  intros f [<- | []]. split.
  - unfold distinct_keys. simpl. repeat constructor; simpl; intuition discriminate.
  - intros k Hin. simpl in Hin. destruct Hin as [<- | [<- | []]]; reflexivity.
Defined.

End OsmRefilter.

(* ===================================================================== *)
(** ** [Impedance_config_processor.setup_config_impedance] *)
(* ===================================================================== *)

Module ConfigSetup.
Import Validation.

(** Calling [.get] on a value that is no dictionary. *)
Inductive exn : Set :=
| AttributeError (attribute : string).

(** [d[key] = v]: a key already present keeps its place. *)
Fixpoint set (d : dict) (key : string) (v : py_value) : dict :=
  match d with
  | [] => [(key, v)]
  | (k, v0) :: rest =>
      if String.eqb key k then (k, v) :: rest
      else (k, v0) :: set rest key v
  end.

Definition initial_lulc_key : string := "initial_lulc".
Definition enabled_key : string := "enabled".

(** [{'enabled': 'false'}]. *)
Definition disabled : py_value := PDict [(enabled_key, PStr "false")].

(** [setup_config_impedance] (impedance_config_processor.py, lines 45-63) on
    [self.config_impedance] as [load_yaml] returned it; the result is the
    dictionary the method leaves in [self.config_impedance] and returns. *)
Definition setup_config_impedance (config_impedance : py_value) : exn + dict :=
  match config_impedance with
  | PDict config =>
      match get config initial_lulc_key with
      | None | Some PNone => inr (set config initial_lulc_key disabled)
      | Some (PDict initial_lulc) =>
          match get initial_lulc enabled_key with
          | None | Some PNone =>
              inr (set config initial_lulc_key
                       (PDict (set initial_lulc enabled_key (PStr "false"))))
          | Some _ => inr config
          end
      | Some _ => inl (AttributeError "get")
      end
  | _ => inl (AttributeError "get")
  end.

Lemma get_set_same (d : dict) (key : string) (v : py_value) :
  get (set d key v) key = Some v.
Proof.
  induction d as [|[k0 v0] d IH]; simpl.
  - now rewrite String.eqb_refl.
  - destruct (String.eqb_spec key k0) as [-> | Hne]; simpl.
    + now rewrite String.eqb_refl.
    + destruct (String.eqb_spec key k0); [contradiction | exact IH].
Qed.

Lemma get_set_other (d : dict) (key k : string) (v : py_value) :
  k <> key -> get (set d key v) k = get d k.
Proof.
  intros Hne. induction d as [|[k0 v0] d IH]; simpl.
  - destruct (String.eqb_spec k key); [contradiction | reflexivity].
  - destruct (String.eqb_spec key k0) as [-> | Hne0]; simpl.
    + destruct (String.eqb_spec k k0); [contradiction | reflexivity].
    + now rewrite IH.
Qed.

Lemma set_same_value (d : dict) (key : string) (v : py_value) :
  get d key = Some v -> set d key v = d.
Proof.
  induction d as [|[k0 v0] d IH]; simpl; [discriminate|].
  destruct (String.eqb_spec key k0) as [-> | Hne].
  - now intros [= ->].
  - intros H. now rewrite IH.
Qed.

Lemma set_set (d : dict) (key : string) (v1 v2 : py_value) :
  set (set d key v1) key v2 = set d key v2.
Proof.
  induction d as [|[k0 v0] d IH]; simpl.
  - now rewrite String.eqb_refl.
  - destruct (String.eqb_spec key k0) as [-> | Hne]; simpl.
    + now rewrite String.eqb_refl.
    + destruct (String.eqb_spec key k0); [contradiction | now rewrite IH].
Qed.

(** The flag is present: [initial_lulc] is a dictionary whose [enabled]
    entry is not [None]. *)
Definition has_enabled_flag (config : dict) : Prop :=
  exists initial_lulc flag,
    get config initial_lulc_key = Some (PDict initial_lulc)
    /\ get initial_lulc enabled_key = Some flag
    /\ flag <> PNone.

(** When the setup returns, the configuration has the [enabled] flag under
    [initial_lulc]; every other top-level entry is as before, and so is
    every entry of an [initial_lulc] dictionary that was there, an
    [enabled] value other than [None] included. *)
Theorem setup_adds_the_flag_and_keeps_the_rest :
  forall (config_impedance : py_value) (config' : dict),
    setup_config_impedance config_impedance = inr config' ->
    has_enabled_flag config'
    /\ exists config,
         config_impedance = PDict config
         /\ (forall k, k <> initial_lulc_key -> get config' k = get config k)
         /\ (forall initial_lulc,
               get config initial_lulc_key = Some (PDict initial_lulc) ->
               exists initial_lulc',
                 get config' initial_lulc_key = Some (PDict initial_lulc')
                 /\ (forall k, k <> enabled_key ->
                               get initial_lulc' k = get initial_lulc k)
                 /\ (forall flag, get initial_lulc enabled_key = Some flag ->
                                  flag <> PNone ->
                                  get initial_lulc' enabled_key = Some flag)).
Proof.
  intros cfg config' Hsetup. unfold setup_config_impedance in Hsetup.
  destruct cfg as [| | | | | |config]; try discriminate.
  destruct (get config initial_lulc_key) as [v|] eqn:Hget.
  - destruct v as [| | | | | |initial_lulc]; try discriminate.
    + injection Hsetup as <-. split.
      * exists [(enabled_key, PStr "false")], (PStr "false").
        rewrite get_set_same. repeat split. discriminate.
      * exists config. split; [reflexivity|]. split.
        -- intros k Hk. now apply get_set_other.
        -- intros inner Hinner. congruence.
    + destruct (get initial_lulc enabled_key) as [flag|] eqn:Hflag.
      * destruct flag; injection Hsetup as <-;
          try (split;
               [ eexists initial_lulc, _; repeat split; try eassumption; discriminate
               | exists config; split; [reflexivity|]; split; [reflexivity|];
                 intros inner Hinner; rewrite Hget in Hinner; injection Hinner as <-;
                 exists initial_lulc; repeat split; auto ]).
        split.
        -- exists (set initial_lulc enabled_key (PStr "false")), (PStr "false").
           rewrite !get_set_same. repeat split. discriminate.
        -- exists config. split; [reflexivity|]. split.
           ++ intros k Hk. now apply get_set_other.
           ++ intros inner Hinner. rewrite Hget in Hinner. injection Hinner as <-.
              exists (set initial_lulc enabled_key (PStr "false")).
              rewrite get_set_same. split; [reflexivity|]. split.
              ** intros k Hk. now apply get_set_other.
              ** intros flag Hf Hnn. rewrite Hflag in Hf. injection Hf as <-.
                 now destruct Hnn.
      * injection Hsetup as <-. split.
        -- exists (set initial_lulc enabled_key (PStr "false")), (PStr "false").
           rewrite !get_set_same. repeat split. discriminate.
        -- exists config. split; [reflexivity|]. split.
           ++ intros k Hk. now apply get_set_other.
           ++ intros inner Hinner. rewrite Hget in Hinner. injection Hinner as <-.
              exists (set initial_lulc enabled_key (PStr "false")).
              rewrite get_set_same. split; [reflexivity|]. split.
              ** intros k Hk. now apply get_set_other.
              ** intros flag Hf. congruence.
  - injection Hsetup as <-. split.
    + exists [(enabled_key, PStr "false")], (PStr "false").
      rewrite get_set_same. repeat split. discriminate.
    + exists config. split; [reflexivity|]. split.
      * intros k Hk. now apply get_set_other.
      * intros inner Hinner. congruence.
Qed.

(** A configuration that has the flag is left as it is. *)
Lemma setup_with_flag (config : dict) :
  has_enabled_flag config -> setup_config_impedance (PDict config) = inr config.
Proof.
  intros (initial_lulc & flag & Hget & Hflag & Hnn).
  unfold setup_config_impedance. rewrite Hget, Hflag.
  destruct flag; try reflexivity. now destruct Hnn.
Qed.

Lemma setup_result_has_flag (config_impedance : py_value) (config' : dict) :
  setup_config_impedance config_impedance = inr config' ->
  has_enabled_flag config'.
Proof.
  unfold setup_config_impedance, has_enabled_flag.
  destruct config_impedance as [| | | | | |config]; try discriminate.
  destruct (get config initial_lulc_key) as [v|] eqn:Hget.
  - destruct v as [| | | | | |initial_lulc]; try discriminate.
    + intros [= <-]. exists [(enabled_key, PStr "false")], (PStr "false").
      rewrite get_set_same. repeat split. discriminate.
    + destruct (get initial_lulc enabled_key) as [flag|] eqn:Hflag.
      * destruct flag; intros [= <-];
          try (exists initial_lulc; eexists; repeat split; try eassumption; discriminate).
        exists (set initial_lulc enabled_key (PStr "false")), (PStr "false").
        rewrite !get_set_same. repeat split. discriminate.
      * intros [= <-].
        exists (set initial_lulc enabled_key (PStr "false")), (PStr "false").
        rewrite !get_set_same. repeat split. discriminate.
  - intros [= <-]. exists [(enabled_key, PStr "false")], (PStr "false").
    rewrite get_set_same. repeat split. discriminate.
Qed.

(** Running the setup on its own result returns that result: the setup is
    idempotent. *)
Theorem setup_is_idempotent :
  forall (config_impedance : py_value) (config' : dict),
    setup_config_impedance config_impedance = inr config' ->
    setup_config_impedance (PDict config') = inr config'.
Proof.
  intros cfg config' Hsetup. apply setup_with_flag.
  now apply (setup_result_has_flag cfg config').
Qed.

(** The setup fails exactly when the configuration is no dictionary (an
    empty YAML file loads as [None]) or its [initial_lulc] entry is neither
    [None] nor a dictionary; the failure is the [AttributeError] of the
    [.get] call. *)
Theorem setup_fails_on_non_dictionaries_only :
  forall config_impedance : py_value,
    (setup_config_impedance config_impedance = inl (AttributeError "get")
     <-> type_of config_impedance <> PyDict
         \/ exists config v,
              config_impedance = PDict config
              /\ get config initial_lulc_key = Some v
              /\ type_of v <> NoneType /\ type_of v <> PyDict)
    /\ (forall e, setup_config_impedance config_impedance = inl e ->
                  e = AttributeError "get").
Proof.
  intros cfg. split.
  - split.
    + intros Hfail. unfold setup_config_impedance in Hfail.
      destruct cfg as [| | | | | |config]; try (left; discriminate).
      right. destruct (get config initial_lulc_key) as [v|] eqn:Hget; [|discriminate].
      exists config, v. split; [reflexivity|]. split; [exact Hget|].
      destruct v as [| | | | | |inner]; try discriminate; try (split; discriminate).
      destruct (get inner enabled_key) as [[| | | | | |]|]; discriminate.
    + intros [Hnd | (config & v & -> & Hget & Hnn & Hnd)].
      * destruct cfg; try reflexivity. now destruct Hnd.
      * unfold setup_config_impedance. rewrite Hget.
        destruct v; try reflexivity; [now destruct Hnn | now destruct Hnd].
  - intros e He. unfold setup_config_impedance in He.
    destruct cfg as [| | | | | |config]; try (now injection He as <-).
    destruct (get config initial_lulc_key) as [v|]; [|discriminate].
    destruct v as [| | | | | |inner]; try discriminate; try (now injection He as <-).
    destruct (get inner enabled_key) as [[| | | | | |]|]; discriminate.
Qed.

(** A configuration file with one stressor and an [initial_lulc] section
    that has no [enabled] entry. *)
Definition sample_config : py_value :=
  PDict [ ("roads_primary"%string, full_params);
          (initial_lulc_key, PDict [("comment"%string, PStr "base layer")]) ].

Definition sample_config_after : dict :=
  [ ("roads_primary"%string, full_params);
    (initial_lulc_key, PDict [("comment"%string, PStr "base layer");
                              (enabled_key, PStr "false")]) ].

Lemma setup_adds_the_flag_and_keeps_the_rest_witness :
  has_enabled_flag sample_config_after.
Proof.
  exact (proj1 (setup_adds_the_flag_and_keeps_the_rest sample_config sample_config_after
                  eq_refl)).
Defined.

Lemma setup_is_idempotent_witness :
  setup_config_impedance (PDict sample_config_after) = inr sample_config_after.
Proof.
  exact (setup_is_idempotent sample_config sample_config_after eq_refl).
Defined.

End ConfigSetup.

(* ===================================================================== *)
(** ** The years of a run and [process_impedance_config] *)
(* ===================================================================== *)

Module WrapperYears.
Import Validation.

Inductive exn : Set :=
| TypeError
| ValueError
| IndexError
| AttributeError (attribute : string).

(** The warning of a constructor that finds no year. *)
Inductive year_warning : Set :=
| YearIsNull.

Section Years.
(** [int(s)] on a string: [None] when the string is no integer literal. *)
Variable int_of_str : string -> option Z.

(** [int(v)]. *)
Definition py_int (v : py_value) : exn + Z :=
  match v with
  | PInt z => inr z
  | PBool b => inr (if b then 1 else 0)%Z
  | PFloat q => inr (Z.quot (Qnum q) (Zpos (Qden q)))
  | PStr s => match int_of_str s with Some z => inr z | None => inl ValueError end
  | PNone | PList _ | PDict _ => inl TypeError
  end.

Fixpoint characters (s : string) : list py_value :=
  match s with
  | EmptyString => []
  | String c rest => PStr (String c EmptyString) :: characters rest
  end.

(** [for year in v]: the items of a list, the characters of a string, the
    keys of a dictionary. *)
Definition iterate (v : py_value) : exn + list py_value :=
  match v with
  | PList items => inr items
  | PStr s => inr (characters s)
  | PDict d => inr (map (fun kv => PStr (fst kv)) d)
  | PNone | PBool _ | PInt _ | PFloat _ => inl TypeError
  end.

(** [[int(year) for year in items]]: the first failing conversion ends the
    comprehension. *)
Fixpoint int_each (items : list py_value) : exn + list py_value :=
  match items with
  | [] => inr []
  | v :: rest =>
      match py_int v with
      | inl e => inl e
      | inr z =>
          match int_each rest with
          | inl e => inl e
          | inr zs => inr (PInt z :: zs)
          end
      end
  end.

Definition cast_to_list (year : py_value) : exn + list py_value :=
  match iterate year with
  | inl e => inl e
  | inr items => int_each items
  end.

(** [isinstance(v, int)]. *)
Definition is_int (v : py_value) : bool := isinstance v PyInt.

(** [ImpedanceWrapper.__init__], lines 42-50, on [config.get('year', None)]. *)
Definition impedance_wrapper_years (year : py_value)
  : exn + (list year_warning * list py_value) :=
  match year with
  | PNone => inr ([YearIsNull], [])
  | _ =>
      if is_int year then inr ([], [year])
      else match cast_to_list year with
           | inl e => inl e
           | inr years => inr ([], years)
           end
  end.

(** [Osm_PreProcessor.__init__], lines 36-48. *)
Definition osm_preprocessor_years (year : py_value)
  : exn + (list year_warning * list py_value) :=
  match year with
  | PNone => inr ([YearIsNull], [PInt 2022])
  | _ =>
      if is_int year then inr ([], [year])
      else match cast_to_list year with
           | inl e => inl e
           | inr years => inr ([], years)
           end
  end.

(** [years[0]]. *)
Definition first_year (years : list py_value) : exn + py_value :=
  match years with
  | [] => inl IndexError
  | y :: _ => inr y
  end.

Lemma int_each_ints (zs : list Z) :
  int_each (map PInt zs) = inr (map PInt zs).
Proof.
  induction zs as [|z zs IH]; simpl; [reflexivity|]. now rewrite IH.
Qed.

Lemma int_each_all_ints (items years : list py_value) :
  int_each items = inr years ->
  Forall (fun y => exists z, y = PInt z) years /\ length years = length items.
Proof.
  revert years. induction items as [|v items IH]; intros years; simpl.
  - intros [= <-]. split; [constructor | reflexivity].
  - destruct (py_int v) as [e|z]; [discriminate|].
    destruct (int_each items) as [e|zs]; [discriminate|].
    intros [= <-]. destruct (IH zs eq_refl) as [Hall Hlen].
    split; [constructor; eauto | simpl; now rewrite Hlen].
Qed.

Lemma wrapper_years_result (year : py_value) (ws : list year_warning)
      (years : list py_value) :
  impedance_wrapper_years year = inr (ws, years) ->
  Forall (fun y => is_int y = true) years
  /\ (years = [] <-> year = PNone \/ year = PList [] \/ year = PStr ""
                     \/ year = PDict []).
Proof.
  intros Hrun.
  assert (Hcast : forall v, cast_to_list v = inr years ->
                            Forall (fun y => is_int y = true) years
                            /\ (years = [] <-> iterate v = inr [])).
  { intros v Hv. unfold cast_to_list in Hv.
    destruct (iterate v) as [e|items]; [discriminate|].
    destruct (int_each_all_ints items years Hv) as [Hall Hlen].
    split.
    - eapply Forall_impl; [|exact Hall]. now intros y (z & ->).
    - split.
      + intros ->. destruct items; [reflexivity | discriminate].
      + intros [= ->]. now destruct years. }
  unfold impedance_wrapper_years in Hrun.
  destruct year as [| b | z | q | s | items | d]; simpl in Hrun.
  - injection Hrun as <- <-. split; [constructor | tauto].
  - injection Hrun as <- <-. split; [repeat constructor|].
    split; [discriminate | intros [H | [H | [H | H]]]; discriminate].
  - injection Hrun as <- <-. split; [repeat constructor|].
    split; [discriminate | intros [H | [H | [H | H]]]; discriminate].
  - discriminate.
  - destruct (cast_to_list (PStr s)) as [e|ys] eqn:Hc; [discriminate|].
    injection Hrun as <- <-. destruct (Hcast _ Hc) as [Hall Hnil].
    split; [exact Hall|]. rewrite Hnil. simpl. split.
    + intros [= H]. destruct s; [auto | discriminate].
    + intros [H | [H | [H | H]]]; try discriminate. now injection H as ->.
  - destruct (cast_to_list (PList items)) as [e|ys] eqn:Hc; [discriminate|].
    injection Hrun as <- <-. destruct (Hcast _ Hc) as [Hall Hnil].
    split; [exact Hall|]. rewrite Hnil. simpl. split.
    + intros [= ->]. auto.
    + intros [H | [H | [H | H]]]; try discriminate. now injection H as ->.
  - destruct (cast_to_list (PDict d)) as [e|ys] eqn:Hc; [discriminate|].
    injection Hrun as <- <-. destruct (Hcast _ Hc) as [Hall Hnil].
    split; [exact Hall|]. rewrite Hnil. simpl. split.
    + intros [= H]. destruct d; [auto | discriminate].
    + intros [H | [H | [H | H]]]; try discriminate. now injection H as ->.
Qed.

(** The years of a run are ints whatever the configuration holds: an int is
    wrapped in a list, a collection is converted item by item, and a
    missing year gives the empty list in [ImpedanceWrapper] and [2022] in
    [Osm_PreProcessor], each with a warning; on every other value the two
    constructors agree.  [ImpedanceWrapper] ends with no year exactly when
    the year is missing or an empty collection. *)
Theorem years_are_ints :
  forall year : py_value,
    impedance_wrapper_years PNone = inr ([YearIsNull], [])
    /\ osm_preprocessor_years PNone = inr ([YearIsNull], [PInt 2022])
    /\ (year <> PNone -> osm_preprocessor_years year = impedance_wrapper_years year)
    /\ (forall z, impedance_wrapper_years (PInt z) = inr ([], [PInt z]))
    /\ (forall zs, impedance_wrapper_years (PList (map PInt zs)) = inr ([], map PInt zs))
    /\ (forall ws years,
          impedance_wrapper_years year = inr (ws, years) ->
          Forall (fun y => is_int y = true) years
          /\ (years = [] <-> year = PNone \/ year = PList [] \/ year = PStr ""
                             \/ year = PDict [])).
Proof.
  intros year. split; [reflexivity|]. split; [reflexivity|].
  split; [now destruct year|]. split; [reflexivity|].
  split.
  { intros zs. unfold impedance_wrapper_years, cast_to_list. simpl.
    now rewrite int_each_ints. }
  intros ws years. apply wrapper_years_result.
Qed.

End Years.

(** *** [ImpedanceWrapper.process_impedance_config] *)

Section Process.
(** The stressor registry and the two collaborators of
    [Impedance_config_processor.process_stressors]: each receives the year,
    the configuration and the registry so far and returns the updated
    pair. *)
Variable Registry : Type.
Variable empty_registry : Registry.
Variable lulc_update : py_value -> dict -> Registry -> Registry * dict.
Variable osm_update : py_value -> dict -> Registry -> Registry * dict.

(** [process_stressors] (impedance_config_processor.py, lines 65-74). *)
Definition process_stressors (year : py_value) (config_impedance : dict)
  : Registry * dict :=
  let '(stressors, config1) := lulc_update year config_impedance empty_registry in
  osm_update year config1 stressors.

(** What [process_impedance_config] leaves behind. *)
Record processed : Type := mk_processed {
  impedance_stressors : Registry;
  saved_config : dict
}.

(** [process_impedance_config] (impedance_wrapper.py, lines 101-117): the
    registry it returns and the configuration it saves. *)
Definition process_impedance_config (years : list py_value) (config_impedance : py_value)
  : exn + processed :=
  match first_year years with
  | inl e => inl e
  | inr year =>
      match ConfigSetup.setup_config_impedance config_impedance with
      | inl (ConfigSetup.AttributeError a) => inl (AttributeError a)
      | inr config =>
          let '(stressors, config') := process_stressors year config in
          inr {| impedance_stressors := stressors; saved_config := config' |}
      end
  end.

(** Without a year in the configuration [process_impedance_config] raises
    [IndexError] and saves nothing, whatever the impedance configuration.
    When it succeeds, the LULC collaborator was given the first year and a
    configuration that has the [initial_lulc.enabled] flag, the OSM
    collaborator was given what the LULC collaborator returned, and the
    registry returned and the configuration saved are the OSM
    collaborator's. *)
Theorem process_impedance_config_needs_a_year :
  forall (int_of_str : string -> option Z) (year config_impedance : py_value),
    (impedance_wrapper_years int_of_str PNone = inr ([YearIsNull], [])
     /\ process_impedance_config [] config_impedance = inl IndexError)
    /\ (forall ws years result,
          impedance_wrapper_years int_of_str year = inr (ws, years) ->
          process_impedance_config years config_impedance = inr result ->
          exists first rest config,
            years = first :: rest
            /\ is_int first = true
            /\ ConfigSetup.setup_config_impedance config_impedance = inr config
            /\ ConfigSetup.has_enabled_flag config
            /\ impedance_stressors result
               = fst (osm_update first
                        (snd (lulc_update first config empty_registry))
                        (fst (lulc_update first config empty_registry)))
            /\ saved_config result
               = snd (osm_update first
                        (snd (lulc_update first config empty_registry))
                        (fst (lulc_update first config empty_registry)))).
Proof.
  intros int_of_str year cfg. split; [split; reflexivity|].
  intros ws years result Hyears Hrun.
  unfold process_impedance_config in Hrun.
  destruct years as [|first rest]; [discriminate|]. simpl in Hrun.
  destruct (ConfigSetup.setup_config_impedance cfg) as [[a]|config] eqn:Hsetup;
    [discriminate|].
  exists first, rest, config. split; [reflexivity|].
  destruct (wrapper_years_result int_of_str year ws (first :: rest) Hyears) as [Hall _].
  apply Forall_cons_iff in Hall as [Hfirst _].
  split; [exact Hfirst|]. split; [reflexivity|].
  split; [exact (ConfigSetup.setup_result_has_flag cfg config Hsetup)|].
  unfold process_stressors in Hrun.
  destruct (lulc_update first config empty_registry) as [s1 c1]. simpl.
  destruct (osm_update first c1 s1) as [s2 c2].
  injection Hrun as <-. split; reflexivity.
Qed.

End Process.

(** A run with year 2018 and collaborators that register one stressor
    each. *)
Definition register (alias : string) (year : py_value) (config : dict)
    (registry : list string) : list string * dict :=
  (registry ++ [alias], ConfigSetup.set config alias full_params).

Lemma process_impedance_config_needs_a_year_witness :
  exists result : processed (list string),
    process_impedance_config (list string) [] (register "lulc_urban") (register "roads")
      [PInt 2018] ConfigSetup.sample_config = inr result
    /\ impedance_stressors (list string) result = ["lulc_urban"; "roads"]%string.
Proof.
  eexists. split; [reflexivity|].
  destruct (proj2 (process_impedance_config_needs_a_year (list string) []
                     (register "lulc_urban") (register "roads")
                     (fun _ => None) (PInt 2018) ConfigSetup.sample_config)
                  [] [PInt 2018] _ eq_refl eq_refl)
    as (first & rest & config & Hy & _ & Hs & _ & Hreg & _).
  injection Hy as <- <-. injection Hs as <-. exact Hreg.
Defined.

End WrapperYears.

(* ===================================================================== *)
(** ** [UpdateLandImpedance.lulc_impedance_mapper] *)
(* ===================================================================== *)

Module Reclassify.
Local Open Scope Q_scope.

(** A cell of the table after [pd.to_numeric(errors='coerce')]: a number,
    or NaN ([None]) where the text was not numeric. *)
Definition cell : Set := option Q.

(** The reclassification table as a data frame: its rows ([lulc],
    [impedance]) in file order, and whether pandas gave the [impedance]
    column the dtype float64. *)
Record table : Set := mk_table {
  rows : list (cell * cell);
  impedance_is_float64 : bool
}.

(** A Python [dict] with numeric keys, in insertion order. *)
Definition reclass_dict : Set := list (cell * cell).

(** Equality of two keys: numbers by value, NaN equal to nothing. *)
Definition same_key (k1 k2 : cell) : bool :=
  match k1, k2 with
  | Some a, Some b => Qeq_bool a b
  | _, _ => false
  end.

(** [d[key] = v]. *)
Fixpoint dict_put (d : reclass_dict) (key v : cell) : reclass_dict :=
  match d with
  | [] => [(key, v)]
  | (k0, v0) :: rest =>
      if same_key k0 key then (k0, v) :: rest
      else (k0, v0) :: dict_put rest key v
  end.

(** [d.get(pixel)] for a pixel value, the function [reclassify_raster]
    applies to every pixel (line 123): [None] when no key equals it. *)
Fixpoint dict_get (d : reclass_dict) (pixel : Q) : option cell :=
  match d with
  | [] => None
  | (k0, v0) :: rest =>
      if same_key k0 (Some pixel) then Some v0 else dict_get rest pixel
  end.

(** [df.set_index('lulc')['impedance'].to_dict()]. *)
Definition to_dict (rs : list (cell * cell)) : reclass_dict :=
  fold_left (fun d row => dict_put d (fst row) (snd row)) rs [].

(** The three values that stand for "no data" in the input rasters: the
    minimum of int32 as written in the source, the minimum of int16, and
    0. *)
Definition nodata_codes : list Q := [inject_Z (-2147483647); inject_Z (-32768); 0].

(** [reclass_dict.update({-2147483647: 9999, -32768: 9999, 0: 9999})]. *)
Definition with_nodata (d : reclass_dict) : reclass_dict :=
  fold_left (fun d code => dict_put d (Some code) (Some (inject_Z 9999))) nodata_codes d.

(** [lulc_impedance_mapper] (update_land_impedance.py, lines 43-68): the
    dictionary, [has_decimal] and the data type name. *)
Definition lulc_impedance_mapper (t : table) : reclass_dict * bool * string :=
  let has_decimal := impedance_is_float64 t in
  (with_nodata (to_dict (rows t)), has_decimal,
   if has_decimal then "Float64"%string else "Int64"%string).

Definition is_nodata (pixel : Q) : bool :=
  existsb (fun code => Qeq_bool code pixel) nodata_codes.

Lemma same_key_trans (k1 k2 k3 : cell) :
  same_key k1 k2 = true -> same_key k2 k3 = true -> same_key k1 k3 = true.
Proof.
  destruct k1, k2, k3; simpl; try discriminate.
  rewrite !Qeq_bool_iff. intros H1 H2. now rewrite H1.
Qed.

Lemma same_key_sym (k1 k2 : cell) : same_key k1 k2 = same_key k2 k1.
Proof.
  destruct k1 as [a|], k2 as [b|]; simpl; try reflexivity.
  destruct (Qeq_bool a b) eqn:E1, (Qeq_bool b a) eqn:E2; try reflexivity.
  - apply Qeq_bool_iff in E1. symmetry in E1. apply Qeq_bool_iff in E1. congruence.
  - apply Qeq_bool_iff in E2. symmetry in E2. apply Qeq_bool_iff in E2. congruence.
Qed.

Lemma dict_get_put (d : reclass_dict) (key v : cell) (pixel : Q) :
  dict_get (dict_put d key v) pixel
  = if same_key key (Some pixel) then Some v else dict_get d pixel.
Proof.
  induction d as [|[k0 v0] d IH]; simpl; [reflexivity|].
  destruct (same_key k0 key) eqn:Hk; simpl.
  - destruct (same_key k0 (Some pixel)) eqn:H0.
    + rewrite same_key_sym in Hk.
      now rewrite (same_key_trans key k0 (Some pixel) Hk H0).
    + destruct (same_key key (Some pixel)) eqn:H1; [|reflexivity].
      now rewrite (same_key_trans k0 key (Some pixel) Hk H1) in H0.
  - destruct (same_key k0 (Some pixel)) eqn:H0; [|exact IH].
    destruct (same_key key (Some pixel)) eqn:H1; [|reflexivity].
    rewrite (same_key_sym key) in H1.
    now rewrite (same_key_trans k0 (Some pixel) key H0 H1) in Hk.
Qed.

Definition put_row (d : reclass_dict) (row : cell * cell) : reclass_dict :=
  dict_put d (fst row) (snd row).

Lemma dict_get_rows_none (rs : list (cell * cell)) (pixel : Q) :
  forall d,
    Forall (fun row => same_key (fst row) (Some pixel) = false) rs ->
    dict_get (fold_left put_row rs d) pixel = dict_get d pixel.
Proof.
  induction rs as [|row rs IH]; intros d Hall; simpl; [reflexivity|].
  apply Forall_cons_iff in Hall as [Hrow Hall].
  rewrite IH by exact Hall. unfold put_row. now rewrite dict_get_put, Hrow.
Qed.

Lemma dict_get_rows_last (before after : list (cell * cell)) (k v : cell) (pixel : Q) :
  forall d,
    same_key k (Some pixel) = true ->
    Forall (fun row => same_key (fst row) (Some pixel) = false) after ->
    dict_get (fold_left put_row (before ++ (k, v) :: after) d) pixel = Some v.
Proof.
  intros d Hk Hafter. rewrite fold_left_app. simpl.
  rewrite dict_get_rows_none by exact Hafter.
  unfold put_row at 1. simpl. now rewrite dict_get_put, Hk.
Qed.

Lemma dict_get_with_nodata (d : reclass_dict) (pixel : Q) :
  dict_get (with_nodata d) pixel
  = if is_nodata pixel then Some (Some (inject_Z 9999)) else dict_get d pixel.
Proof.
  unfold with_nodata, is_nodata, nodata_codes. simpl.
  rewrite !dict_get_put. simpl.
  destruct (Qeq_bool 0 pixel); [now rewrite !orb_true_r|].
  destruct (Qeq_bool (inject_Z (-32768)) pixel); [now rewrite !orb_true_r|].
  destruct (Qeq_bool (inject_Z (-2147483647)) pixel); reflexivity.
Qed.

(** The value a pixel is reclassified to.  The three no-data codes always
    give 9999, whatever the table says about them; any other pixel value
    gives the impedance of the last table row whose [lulc] equals it; and
    a pixel value that no row lists gives [None], not a number. *)
Theorem reclassification_of_a_pixel :
  forall (t : table) (pixel : Z),
    let d := fst (fst (lulc_impedance_mapper t)) in
    (is_nodata (inject_Z pixel) = true ->
       dict_get d (inject_Z pixel) = Some (Some (inject_Z 9999)))
    /\ (is_nodata (inject_Z pixel) = false ->
        forall before after k v,
          rows t = before ++ (k, v) :: after ->
          same_key k (Some (inject_Z pixel)) = true ->
          Forall (fun row => same_key (fst row) (Some (inject_Z pixel)) = false) after ->
          dict_get d (inject_Z pixel) = Some v)
    /\ (is_nodata (inject_Z pixel) = false ->
        Forall (fun row => same_key (fst row) (Some (inject_Z pixel)) = false) (rows t) ->
        dict_get d (inject_Z pixel) = None).
Proof.
  intros t pixel d. subst d. unfold lulc_impedance_mapper. simpl fst.
  rewrite dict_get_with_nodata.
  split; [now intros ->|]. split.
  - intros -> before after k v Hrows Hk Hafter.
    unfold to_dict. fold put_row. rewrite Hrows.
    now apply dict_get_rows_last.
  - intros -> Hnone. unfold to_dict. fold put_row.
    now rewrite dict_get_rows_none.
Qed.

(** A table that lists class 1 twice and, against the convention, class 0. *)
Definition sample_table : table :=
  {| rows := [ (Some 1, Some 10); (Some 0, Some 3); (Some 2, Some 20); (Some 1, Some 15) ];
     impedance_is_float64 := false |}.

Lemma reclassification_of_a_pixel_witness :
  dict_get (fst (fst (lulc_impedance_mapper sample_table))) (inject_Z 0)
  = Some (Some (inject_Z 9999))
  /\ dict_get (fst (fst (lulc_impedance_mapper sample_table))) (inject_Z 1)
     = Some (Some 15)
  /\ dict_get (fst (fst (lulc_impedance_mapper sample_table))) (inject_Z 7) = None.
Proof.
  split; [|split].
  - exact (proj1 (reclassification_of_a_pixel sample_table 0%Z) eq_refl).
  - refine (proj1 (proj2 (reclassification_of_a_pixel sample_table 1%Z)) eq_refl
              [ (Some 1, Some 10); (Some 0, Some 3); (Some 2, Some 20) ] []
              (Some 1) (Some 15) eq_refl eq_refl _).
    constructor.
  - refine (proj2 (proj2 (reclassification_of_a_pixel sample_table 7%Z)) eq_refl _).
    repeat constructor.
Defined.

End Reclassify.

(* ===================================================================== *)
(** ** [Osm_PreProcessor.get_raster_properties] *)
(* ===================================================================== *)

From Stdlib Require Lqa.

Module RasterProperties.
Local Open Scope Q_scope.

(** What the method reads from an opened raster: the six coefficients of
    [GetGeoTransform()], the size in cells, and the WKT of
    [gdal.Info(...)['coordinateSystem']['wkt']] when both keys are there. *)
Record dataset : Set := mk_dataset {
  gt0 : Q; gt1 : Q; gt2 : Q; gt3 : Q; gt4 : Q; gt5 : Q;
  RasterXSize : Z;
  RasterYSize : Z;
  wkt : option string
}.

(** What the method asks of [osr.SpatialReference]. *)
Record spatial_reference : Set := mk_srs {
  IsProjected : bool;
  authority_code : option string
}.

(** Returning a local variable that no branch has assigned. *)
Inductive exn : Set :=
| UnboundLocalError (variable : string).

Record properties : Set := mk_properties {
  x_min_cart : Q;
  x_max_cart : Q;
  y_min_cart : Q;
  y_max_cart : Q;
  epsg_code : option string
}.

Section Gdal.
(** [osr.SpatialReference(wkt=...)]. *)
Variable SpatialReference : string -> spatial_reference.

(** [get_raster_properties] (osm_preprocessor.py, lines 108-140) on the
    result of [gdal.Open(lulc)], [None] when the raster cannot be opened. *)
Definition get_raster_properties (raster : option dataset) : exn + properties :=
  match raster with
  | None => inl (UnboundLocalError "x_min_cart")
  | Some ds =>
      let x_min := gt0 ds in
      let x_max := gt0 ds + inject_Z (RasterXSize ds) * gt1 ds in
      let y_min := gt3 ds + inject_Z (RasterYSize ds) * gt5 ds in
      let y_max := gt3 ds in
      match wkt ds with
      | Some text =>
          let srs := SpatialReference text in
          if IsProjected srs then
            inr {| x_min_cart := x_min; x_max_cart := x_max;
                   y_min_cart := y_min; y_max_cart := y_max;
                   epsg_code := authority_code srs |}
          else inl (UnboundLocalError "epsg_code")
      | None => inl (UnboundLocalError "epsg_code")
      end
  end.

(** The method returns only for a raster that opens and has a projected
    coordinate system; a missing raster and a raster without projection
    information or with a geographic system both end in
    [UnboundLocalError], after the message was printed.  When it returns,
    the corner it reports is the upper left corner of the geotransform, the
    code is the authority code of the raster's coordinate system, and for a
    north-up raster the minima do not exceed the maxima. *)
Theorem raster_properties_need_a_projected_raster :
  forall raster : option dataset,
    ((exists p, get_raster_properties raster = inr p)
     <-> exists ds text,
           raster = Some ds /\ wkt ds = Some text
           /\ IsProjected (SpatialReference text) = true)
    /\ (raster = None ->
        get_raster_properties raster = inl (UnboundLocalError "x_min_cart"))
    /\ (forall ds, raster = Some ds ->
          (wkt ds = None
           \/ exists text, wkt ds = Some text
                           /\ IsProjected (SpatialReference text) = false) ->
          get_raster_properties raster = inl (UnboundLocalError "epsg_code"))
    /\ (forall ds p,
          raster = Some ds -> get_raster_properties raster = inr p ->
          x_min_cart p = gt0 ds
          /\ y_max_cart p = gt3 ds
          /\ (exists text, wkt ds = Some text
                           /\ epsg_code p = authority_code (SpatialReference text))
          /\ ((0 <= RasterXSize ds)%Z -> 0 <= gt1 ds -> x_min_cart p <= x_max_cart p)
          /\ ((0 <= RasterYSize ds)%Z -> gt5 ds <= 0 -> y_min_cart p <= y_max_cart p)).
Proof.
  intros raster. split; [|split; [|split]].
  - split.
    + intros (p & Hp). destruct raster as [ds|]; [|discriminate].
      simpl in Hp. destruct (wkt ds) as [text|] eqn:Hw; [|discriminate].
      destruct (IsProjected (SpatialReference text)) eqn:Hproj; [|discriminate].
      now exists ds, text.
    + intros (ds & text & -> & Hw & Hproj). simpl. rewrite Hw, Hproj. eauto.
  - now intros ->.
  - intros ds -> [Hw | (text & Hw & Hproj)]; simpl; rewrite Hw; [reflexivity|].
    now rewrite Hproj.
  - intros ds p -> Hp. simpl in Hp.
    destruct (wkt ds) as [text|]; [|discriminate].
    destruct (IsProjected (SpatialReference text)); [|discriminate].
    injection Hp as <-. simpl.
    split; [reflexivity|]. split; [reflexivity|].
    split; [now exists text|]. split.
    + intros Hx Hg.
      assert (Hn : 0 <= inject_Z (RasterXSize ds)).
      { change 0 with (inject_Z 0). now rewrite <- Zle_Qle. }
      pose proof (Qmult_le_0_compat _ _ Hn Hg) as Hprod.
      set (width := inject_Z (RasterXSize ds) * gt1 ds) in *.
      clearbody width. clear Hn. Lqa.lra.
    + intros Hy Hg.
      assert (Hn : 0 <= inject_Z (RasterYSize ds)).
      { change 0 with (inject_Z 0). now rewrite <- Zle_Qle. }
      assert (Hneg : 0 <= - gt5 ds) by Lqa.lra.
      pose proof (Qmult_le_0_compat _ _ Hn Hneg) as Hprod.
      assert (Heq : inject_Z (RasterYSize ds) * - gt5 ds
                    == - (inject_Z (RasterYSize ds) * gt5 ds)) by ring.
      rewrite Heq in Hprod.
      set (height := inject_Z (RasterYSize ds) * gt5 ds) in *.
      clearbody height. clear Hn Heq. Lqa.lra.
Qed.

End Gdal.

(** A 100 by 50 raster of 20 m cells in EPSG:27700. *)
Definition british_grid (text : string) : spatial_reference :=
  {| IsProjected := true; authority_code := Some "27700"%string |}.

Definition sample_raster : dataset :=
  {| gt0 := 400000; gt1 := 20; gt2 := 0; gt3 := 300000; gt4 := 0; gt5 := -(20);
     RasterXSize := 100; RasterYSize := 50; wkt := Some "PROJCRS[...]"%string |}.

Lemma raster_properties_need_a_projected_raster_witness :
  exists p, get_raster_properties british_grid (Some sample_raster) = inr p
            /\ x_min_cart p <= x_max_cart p.
Proof.
  eexists. split; [reflexivity|].
  refine (proj1 (proj2 (proj2 (proj2
            (proj2 (proj2 (proj2 (raster_properties_need_a_projected_raster
                                    british_grid (Some sample_raster))))
               sample_raster _ eq_refl eq_refl)))) _ _);
    discriminate.
Defined.

End RasterProperties.

(* ===================================================================== *)
(** ** [OsmGeojson_to_gpkg]: file names, conversion and merge *)
(* ===================================================================== *)

From Stdlib Require DecimalString.

Module OsmGpkg.
Local Open Scope nat_scope.

(** [str(year)]. *)
Definition py_str (year : Z) : string :=
  DecimalString.NilZero.string_of_int (Z.to_int year).

Fixpoint has_char (c : ascii) (s : string) : bool :=
  match s with
  | EmptyString => false
  | String c0 rest => Ascii.eqb c0 c || has_char c rest
  end.

(** [s.endswith(suffix)]. *)
Fixpoint ends_with (suffix s : string) : bool :=
  String.eqb suffix s
  || match s with
     | EmptyString => false
     | String _ rest => ends_with suffix rest
     end.

(** [s.replace(old, new)] for a non-empty [old]: occurrences are replaced
    from the left and do not overlap; [skip] counts the characters of an
    occurrence still to be passed over. *)
Fixpoint replace_from (old new : string) (skip : nat) (s : string) : string :=
  match s with
  | EmptyString => EmptyString
  | String c rest =>
      match skip with
      | S k => replace_from old new k rest
      | O =>
          if String.prefix old s
          then String.append new (replace_from old new (String.length old - 1) rest)
          else String c (replace_from old new 0 rest)
      end
  end.

Definition replace (old new s : string) : string := replace_from old new 0 s.

(** [s.split(sep)[0]] for a non-empty [sep]: the text before the first
    occurrence of [sep], the whole of [s] when there is none. *)
Fixpoint split_first (sep s : string) : string :=
  match s with
  | EmptyString => EmptyString
  | String c rest =>
      if String.prefix sep s then EmptyString
      else String c (split_first sep rest)
  end.

(** The name under which [fix_invalid_geometries] writes the filtered
    collection of a query (osm_preprocessor.py, lines 308 and 363). *)
Definition geojson_name (query_name : string) (year : Z) (overwrite_original : bool)
  : string :=
  if overwrite_original
  then String.append query_name (String.append "_" (String.append (py_str year) ".geojson"))
  else String.append query_name
         (String.append "_" (String.append (py_str year) "_filtered.geojson")).

(** [layer_name = gpkg_file.split(f"_{year}")[0]] (lines 51 and 62). *)
Definition layer_name (year : Z) (gpkg_file : string) : string :=
  split_first (String.append "_" (py_str year)) gpkg_file.

Inductive exn : Set :=
| IndexError
| CalledProcessError (file : string).

(** The ogr2ogr runs of [merge_gpkg_files]: the first file creates the
    merged GeoPackage, the others are appended to it. *)
Inductive operation : Set :=
| Create (layer file : string)
| Append (layer file : string).

Section Ogr2ogr.
(** Whether ogr2ogr converts a GeoJSON file, and whether it carries out a
    merge operation, without error. *)
Variable converts : string -> bool.
Variable merges : operation -> bool.

(** [convert_geojson_to_gpkg] (osm_geojson_to_gpkg.py, lines 14-46) on the
    listing of [input_dir]: the names of the files converted. *)
Definition convert_geojson_to_gpkg (listing : list string) (file_ending : string)
  : list string :=
  filter (fun filename => ends_with file_ending filename && converts filename) listing.

(** [self.gpkg_files] as [__init__] computes it (line 12). *)
Definition gpkg_files (listing : list string) : list string :=
  map (replace ".geojson" ".gpkg") (convert_geojson_to_gpkg listing "filtered.geojson").

(** [merge_gpkg_files] (lines 48-80): the operations carried out. *)
Definition merge_gpkg_files (files : list string) (year : Z) : exn + list operation :=
  match files with
  | [] => inl IndexError
  | first :: others =>
      if merges (Create (layer_name year first) first) then
        inr (Create (layer_name year first) first
             :: filter merges (map (fun f => Append (layer_name year f) f) others))
      else inl (CalledProcessError first)
  end.

End Ogr2ogr.

(** *** Facts about the string operations *)

Lemma prefix_append (s rest : string) : String.prefix s (String.append s rest) = true.
Proof.
  induction s as [|c s IH]; simpl; [now destruct rest|].
  destruct (ascii_dec c c); [exact IH | contradiction].
Qed.

Lemma prefix_other_char (c0 c : ascii) (sep' rest : string) :
  Ascii.eqb c c0 = false -> String.prefix (String c0 sep') (String c rest) = false.
Proof.
  intros Hne. simpl. destruct (ascii_dec c0 c) as [-> | _]; [|reflexivity].
  now rewrite Ascii.eqb_refl in Hne.
Qed.

Lemma ends_with_append (p suffix : string) : ends_with suffix (String.append p suffix) = true.
Proof.
  induction p as [|c p IH]; simpl.
  - destruct suffix; simpl; [reflexivity|]. now rewrite Ascii.eqb_refl, String.eqb_refl.
  - rewrite IH. apply orb_true_r.
Qed.

Lemma replace_skip_all (old new s : string) :
  replace_from old new (String.length s) s = EmptyString.
Proof. induction s as [|c s IH]; simpl; [reflexivity | exact IH]. Qed.

Lemma append_empty (s : string) : String.append s EmptyString = s.
Proof. induction s as [|c s IH]; simpl; [reflexivity | now rewrite IH]. Qed.

Lemma prefix_refl (s : string) : String.prefix s s = true.
Proof.
  rewrite <- (append_empty s) at 2. apply prefix_append.
Qed.

Lemma append_assoc (a b c : string) :
  String.append (String.append a b) c = String.append a (String.append b c).
Proof. induction a as [|x a IH]; simpl; [reflexivity | now rewrite IH]. Qed.

Lemma has_char_append (c : ascii) (a b : string) :
  has_char c (String.append a b) = has_char c a || has_char c b.
Proof.
  induction a as [|x a IH]; simpl; [reflexivity|]. now rewrite IH, orb_assoc.
Qed.

(** A text without the first character of [old], followed by [old]: the
    one occurrence is the one at the end. *)
Lemma replace_at_end (c0 : ascii) (old' new s : string) :
  has_char c0 s = false ->
  replace (String c0 old') new (String.append s (String c0 old')) = String.append s new.
Proof.
  unfold replace. induction s as [|c s IH]; intros Hs.
  - cbn [String.append replace_from].
    rewrite prefix_refl.
    replace (String.length (String c0 old') - 1) with (String.length old')
      by (simpl; lia).
    now rewrite replace_skip_all, append_empty.
  - simpl in Hs. apply orb_false_iff in Hs as [Hc Hs].
    cbn [String.append replace_from].
    rewrite prefix_other_char by exact Hc. now rewrite IH.
Qed.

(** A text without the first character of [sep], followed by [sep]: the
    split is at the end of the text. *)
Lemma split_first_at_end (c0 : ascii) (sep' q rest : string) :
  has_char c0 q = false ->
  split_first (String c0 sep') (String.append q (String.append (String c0 sep') rest)) = q.
Proof.
  induction q as [|c q IH]; intros Hq.
  - cbn [String.append split_first].
    change (String c0 (String.append sep' rest))
      with (String.append (String c0 sep') rest).
    now rewrite prefix_append.
  - simpl in Hq. apply orb_false_iff in Hq as [Hc Hq].
    cbn [String.append split_first].
    rewrite prefix_other_char by exact Hc. f_equal. now apply IH.
Qed.

Lemma uint_has_no_dot (d : Decimal.uint) :
  has_char "." (DecimalString.NilEmpty.string_of_uint d) = false.
Proof. induction d; simpl; auto. Qed.

Lemma py_str_has_no_dot (year : Z) : has_char "." (py_str year) = false.
Proof.
  unfold py_str. destruct (Z.to_int year) as [d | d]; simpl.
  - destruct d; simpl; auto using uint_has_no_dot.
  - destruct d; simpl; auto using uint_has_no_dot.
Qed.

(** *** From the filtered GeoJSON files to the layers of the merge *)

(** The GeoPackage written for a query. *)
Definition gpkg_name (query_name : string) (year : Z) : string :=
  String.append query_name
    (String.append "_" (String.append (py_str year) "_filtered.gpkg")).

(** A query name as [overpass_query_builder] uses them: without underscore
    and without dot. *)
Definition plain_name (query_name : string) : Prop :=
  has_char "_" query_name = false /\ has_char "." query_name = false.

Lemma filtered_name_is_selected (query_name : string) (year : Z) :
  ends_with "filtered.geojson" (geojson_name query_name year false) = true.
Proof.
  unfold geojson_name.
  change "_filtered.geojson"%string with (String.append "_" "filtered.geojson").
  rewrite <- !append_assoc. apply ends_with_append.
Qed.

Lemma gpkg_name_of_geojson_name (query_name : string) (year : Z) :
  has_char "." query_name = false ->
  replace ".geojson" ".gpkg" (geojson_name query_name year false)
  = gpkg_name query_name year.
Proof.
  intros Hdot. unfold geojson_name, gpkg_name.
  change "_filtered.geojson"%string with (String.append "_filtered" ".geojson").
  change "_filtered.gpkg"%string with (String.append "_filtered" ".gpkg").
  rewrite <- !append_assoc.
  apply (replace_at_end "." "geojson" ".gpkg").
  rewrite !has_char_append, Hdot, py_str_has_no_dot. reflexivity.
Qed.

Lemma layer_name_of_gpkg_name (query_name : string) (year : Z) :
  has_char "_" query_name = false ->
  layer_name year (gpkg_name query_name year) = query_name.
Proof.
  intros Hunder. unfold layer_name, gpkg_name.
  rewrite <- (append_assoc "_" (py_str year)).
  apply (split_first_at_end "_" (py_str year) query_name "_filtered.gpkg" Hunder).
Qed.

(** The file names make the round trip: the filtered collection of a query
    with a plain name is written under a name that
    [convert_geojson_to_gpkg] selects, the GeoPackage name derived from it
    differs in the extension only, and the layer name [merge_gpkg_files]
    cuts out of that name is the query name again. *)
Theorem layer_name_is_the_query_name :
  forall (query_name : string) (year : Z),
    plain_name query_name ->
    ends_with "filtered.geojson" (geojson_name query_name year false) = true
    /\ replace ".geojson" ".gpkg" (geojson_name query_name year false)
       = gpkg_name query_name year
    /\ layer_name year (gpkg_name query_name year) = query_name.
Proof.
  intros q year [Hunder Hdot]. split; [|split].
  - apply filtered_name_is_selected.
  - now apply gpkg_name_of_geojson_name.
  - now apply layer_name_of_gpkg_name.
Qed.

Section Pipeline.
Variable converts : string -> bool.
Variable merges : operation -> bool.

Lemma gpkg_files_of_queries (queries : list string) (year : Z) :
  Forall plain_name queries ->
  gpkg_files converts (map (fun q => geojson_name q year false) queries)
  = map (fun q => gpkg_name q year)
        (filter (fun q => converts (geojson_name q year false)) queries).
Proof.
  unfold gpkg_files, convert_geojson_to_gpkg.
  induction 1 as [|q queries [_ Hdot] _ IH]; [reflexivity|].
  cbn [map filter]. rewrite filtered_name_is_selected. cbn [andb].
  destruct (converts (geojson_name q year false)); cbn [map];
    [rewrite (gpkg_name_of_geojson_name q year Hdot)|]; now rewrite IH.
Qed.

(** When the directory holds the filtered collections of a list of
    plainly named queries, the merge creates the GeoPackage from the first
    query whose file was converted and appends one layer per later
    converted query, each layer named after its query; a failed append is
    left out and the later ones still run.  The merge raises [IndexError]
    when no file was converted, and the error of ogr2ogr when the first
    operation fails, in which case nothing is appended. *)
Theorem merged_layers_are_named_after_the_queries :
  forall (queries : list string) (year : Z),
    Forall plain_name queries ->
    merge_gpkg_files merges
      (gpkg_files converts (map (fun q => geojson_name q year false) queries)) year
    = match filter (fun q => converts (geojson_name q year false)) queries with
      | [] => inl IndexError
      | first :: others =>
          if merges (Create first (gpkg_name first year)) then
            inr (Create first (gpkg_name first year)
                 :: filter merges
                      (map (fun q => Append q (gpkg_name q year)) others))
          else inl (CalledProcessError (gpkg_name first year))
      end.
Proof.
  intros queries year Hplain. rewrite gpkg_files_of_queries by exact Hplain.
  assert (Hsub : Forall plain_name
                   (filter (fun q => converts (geojson_name q year false)) queries)).
  { rewrite Forall_forall in *. intros q Hin. apply Hplain.
    now apply filter_In in Hin as [Hin _]. }
  destruct (filter _ queries) as [|first others]; [reflexivity|].
  apply Forall_cons_iff in Hsub as [Hfirst Hothers].
  cbn [map merge_gpkg_files].
  rewrite (layer_name_of_gpkg_name first year (proj1 Hfirst)).
  destruct (merges (Create first (gpkg_name first year))); [|reflexivity].
  do 3 f_equal. rewrite map_map. apply map_ext_in. intros q Hin.
  rewrite Forall_forall in Hothers.
  now rewrite (layer_name_of_gpkg_name q year (proj1 (Hothers q Hin))).
Qed.

End Pipeline.

(** The four queries of [overpass_query_builder] (lines 199-280). *)
Definition query_names : list string :=
  ["roads"; "railways"; "waterways"; "waterbodies"]%string.

Lemma layer_name_is_the_query_name_witness :
  layer_name 2018 "roads_2018_filtered.gpkg" = "roads"%string.
Proof.
  refine (proj2 (proj2 (layer_name_is_the_query_name "roads" 2018 _))).
  split; reflexivity.
Defined.

Lemma merged_layers_are_named_after_the_queries_witness :
  merge_gpkg_files (fun _ => true)
    (gpkg_files (fun _ => true) (map (fun q => geojson_name q 2018 false) query_names))
    2018
  = inr [ Create "roads" "roads_2018_filtered.gpkg";
          Append "railways" "railways_2018_filtered.gpkg";
          Append "waterways" "waterways_2018_filtered.gpkg";
          Append "waterbodies" "waterbodies_2018_filtered.gpkg" ].
Proof.
  refine (merged_layers_are_named_after_the_queries (fun _ => true) (fun _ => true)
            query_names 2018 _).
  repeat constructor.
Defined.

End OsmGpkg.

(* ===================================================================== *)
(** ** [fix_geometries_in_gpkg]: the data source after a pass *)
(* ===================================================================== *)

Module RepairPasses.
Import GeometryRepair.
Local Open Scope nat_scope.

Section Passes.
Variable Geometry : Type.
Variable IsValid : Geometry -> bool.
Variable MakeValid : Geometry -> Geometry.

#[local] Arguments fid {Geometry} _.
#[local] Arguments geometry {Geometry} _.
#[local] Arguments layer_name {Geometry} _.
#[local] Arguments features {Geometry} _.

Local Abbreviation feature := (GeometryRepair.feature Geometry).
Local Abbreviation layer := (GeometryRepair.layer Geometry).
Local Abbreviation repaired := (GeometryRepair.repaired Geometry IsValid MakeValid).

(** The line printed for one feature. *)
Definition feature_events (name : string) (f : feature) : list output :=
  if IsValid (geometry f) then []
  else if IsValid (MakeValid (geometry f)) then [FixedInvalid name (fid f)]
       else [CouldNotFix name (fid f)].

Definition layer_events (l : layer) : list output :=
  flat_map (feature_events (layer_name l)) (features l).

(** The layer as a pass leaves it. *)
Definition repair_layer (l : layer) : layer :=
  {| GeometryRepair.layer_name := layer_name l;
     GeometryRepair.features := map repaired (features l) |}.

(** The counters at the end of a layer. *)
Definition layer_counts (l : layer) : counters :=
  {| feature_to_fix_count := length (invalid_features Geometry IsValid (features l));
     fixed_feature_count :=
       length (fixable_features Geometry IsValid MakeValid (features l));
     invalid_feature_count :=
       length (unfixable_features Geometry IsValid MakeValid (features l)) |}.

(** The summary printed after the loop, from the counters of one layer. *)
Definition summary (l : layer) : list output :=
  if Nat.eqb (feature_to_fix_count (layer_counts l)) 0 then [AllValid (layer_name l)]
  else [GeometriesFixed (layer_name l) (fixed_feature_count (layer_counts l));
        GeometriesNotFixed (layer_name l) (invalid_feature_count (layer_counts l))].

Lemma fix_feature_output (name : string) (written : list feature) (c : counters)
      (out : list output) (f : feature) :
  snd (fix_feature Geometry IsValid MakeValid name (written, c, out) f)
  = out ++ feature_events name f.
Proof.
  unfold fix_feature, feature_events.
  destruct (IsValid (geometry f)); simpl; [now rewrite app_nil_r|].
  destruct (IsValid (MakeValid (geometry f))); reflexivity.
Qed.

Lemma fold_fix_feature_output (name : string) (fs : list feature) :
  forall (acc : list feature * counters * list output),
    snd (fold_left (fix_feature Geometry IsValid MakeValid name) fs acc)
    = snd acc ++ flat_map (feature_events name) fs.
Proof.
  induction fs as [|f fs IH]; intros [[written c] out].
  - simpl. now rewrite app_nil_r.
  - cbn [fold_left flat_map snd].
    rewrite IH, fix_feature_output. now rewrite <- app_assoc.
Qed.

Lemma fix_layer_exact (l : layer) (layers : list layer)
      (prev : option (string * counters)) (out : list output) :
  fix_layer Geometry IsValid MakeValid (layers, prev, out) l
  = (layers ++ [repair_layer l], Some (layer_name l, layer_counts l),
     out ++ layer_events l).
Proof.
  unfold fix_layer.
  pose proof (fold_fix_feature_output (layer_name l) (features l) ([], no_counts, out))
    as Hout.
  destruct (fold_fix_feature Geometry IsValid MakeValid (layer_name l) (features l)
              [] no_counts out) as (out' & Heq).
  rewrite Heq in Hout |- *. simpl in Hout. subst out'. reflexivity.
Qed.

Lemma fold_fix_layer (pre : list layer) (last_layer : layer) :
  forall (layers : list layer) (prev : option (string * counters)) (out : list output),
    fold_left (fix_layer Geometry IsValid MakeValid) (pre ++ [last_layer])
              (layers, prev, out)
    = (layers ++ map repair_layer (pre ++ [last_layer]),
       Some (layer_name last_layer, layer_counts last_layer),
       out ++ flat_map layer_events (pre ++ [last_layer])).
Proof.
  induction pre as [|l pre IH]; intros layers prev out.
  - cbn [app fold_left]. rewrite fix_layer_exact. simpl. now rewrite app_nil_r.
  - cbn [app fold_left]. rewrite fix_layer_exact, IH.
    cbn [map flat_map app]. now rewrite <- !app_assoc.
Qed.

Lemma repaired_twice (f : feature) : repaired (repaired f) = repaired f.
Proof.
  unfold GeometryRepair.repaired.
  destruct (IsValid (geometry f)) eqn:Hv; [now rewrite Hv|].
  destruct (IsValid (MakeValid (geometry f))) eqn:Hm; simpl.
  - now rewrite Hm.
  - now rewrite Hv, Hm.
Qed.

Lemma repair_layer_twice (l : layer) : repair_layer (repair_layer l) = repair_layer l.
Proof.
  unfold repair_layer. simpl. f_equal. rewrite map_map.
  apply map_ext. apply repaired_twice.
Qed.

(** What the second pass prints for a feature: only what could not be
    fixed is reported again. *)
Definition unfixable_events (name : string) (f : feature) : list output :=
  if IsValid (geometry f) then []
  else if IsValid (MakeValid (geometry f)) then []
       else [CouldNotFix name (fid f)].

Lemma feature_events_repaired (name : string) (f : feature) :
  feature_events name (repaired f) = unfixable_events name f.
Proof.
  unfold feature_events, unfixable_events, GeometryRepair.repaired.
  destruct (IsValid (geometry f)) eqn:Hv; [now rewrite Hv|].
  destruct (IsValid (MakeValid (geometry f))) eqn:Hm; simpl.
  - now rewrite Hm.
  - now rewrite Hv, Hm.
Qed.

Lemma layer_events_repaired (l : layer) :
  layer_events (repair_layer l)
  = flat_map (unfixable_events (layer_name l)) (features l).
Proof.
  unfold layer_events, repair_layer. simpl.
  induction (features l) as [|f fs IH]; simpl; [reflexivity|].
  now rewrite IH, feature_events_repaired.
Qed.

(** On a data source with at least one layer the routine returns every
    layer under its name with its features in their order, each feature as
    [repaired] leaves it, and prints one line per invalid feature followed
    by the summary of the last layer.  Repairing is idempotent: a second
    pass over the result returns the same layers, and the only features it
    mentions are those that could not be fixed the first time. *)
Theorem repair_pass_is_idempotent :
  forall (pre : list layer) (last_layer : layer),
    fix_geometries_in_gpkg Geometry IsValid MakeValid (pre ++ [last_layer])
    = inr (map repair_layer (pre ++ [last_layer]),
           flat_map layer_events (pre ++ [last_layer]) ++ summary last_layer)
    /\ fix_geometries_in_gpkg Geometry IsValid MakeValid
         (map repair_layer (pre ++ [last_layer]))
       = inr (map repair_layer (pre ++ [last_layer]),
              flat_map (fun l => flat_map (unfixable_events (layer_name l)) (features l))
                       (pre ++ [last_layer])
              ++ summary (repair_layer last_layer)).
Proof.
  assert (Hpass : forall pre last_layer,
             fix_geometries_in_gpkg Geometry IsValid MakeValid (pre ++ [last_layer])
             = inr (map repair_layer (pre ++ [last_layer]),
                    flat_map layer_events (pre ++ [last_layer]) ++ summary last_layer)).
  { intros pre last_layer. unfold fix_geometries_in_gpkg.
    rewrite fold_fix_layer. unfold summary. simpl.
    destruct (Nat.eqb _ 0); reflexivity. }
  intros pre last_layer. split; [apply Hpass|].
  assert (Hshape : map repair_layer (pre ++ [last_layer])
                   = map repair_layer pre ++ [repair_layer last_layer])
    by now rewrite map_app.
  rewrite Hshape at 1. rewrite Hpass, <- Hshape.
  rewrite map_map. f_equal. f_equal.
  - apply map_ext. apply repair_layer_twice.
  - f_equal. rewrite flat_map_concat_map, map_map, <- flat_map_concat_map.
    apply flat_map_ext. apply layer_events_repaired.
Qed.

End Passes.
End RepairPasses.

(* ===================================================================== *)
(** ** [Rasterizer_Processor]: subsets by year and their rasters *)
(* ===================================================================== *)

Module Rasterizer.
Import OsmGpkg.
Local Open Scope Z_scope.

Section Filter.
(** A row of the GeoDataFrame of protected areas, its [year] column as an
    instant ([None] for a missing date, which compares false), and the
    instant [np.datetime64(str(year_stamp))] stands for. *)
Variable PA : Type.
Variable year_of : PA -> option Z.
Variable start_of_year : Z -> Z.

(** [self.gdf['year'] <= np.datetime64(str(year_stamp))], row by row. *)
Definition established_by (year_stamp : Z) (pa : PA) : bool :=
  match year_of pa with
  | Some t => Z.leb t (start_of_year year_stamp)
  | None => false
  end.

Definition subset (gdf : list PA) (year_stamp : Z) : list PA :=
  filter (established_by year_stamp) gdf.

Definition subset_file (year_stamp : Z) : string :=
  String.append "pas_" (String.append (py_str year_stamp) ".gpkg").

(** [subset.to_file(...)]: whether geopandas writes the frame or raises (it
    has refused an empty frame in some versions). *)
Variable to_file : string -> list PA -> bool.

Inductive write_error : Set :=
| ToFileError (file : string).

(** [filter_pa_by_year] (rasterizer_processor.py, lines 54-73): the files
    written, in the order of the year stamps, up to the first write that
    raises. *)
Fixpoint filter_pa_by_year (gdf : list PA) (year_stamps : list Z)
  : list (string * list PA) * option write_error :=
  match year_stamps with
  | [] => ([], None)
  | year_stamp :: rest =>
      if to_file (subset_file year_stamp) (subset gdf year_stamp) then
        let '(written, raised) := filter_pa_by_year gdf rest in
        ((subset_file year_stamp, subset gdf year_stamp) :: written, raised)
      else ([], Some (ToFileError (subset_file year_stamp)))
  end.

Lemma filter_filter_weaker {A : Type} (p q : A -> bool) (l : list A) :
  (forall x, p x = true -> q x = true) ->
  filter p (filter q l) = filter p l.
Proof.
  intros Himp. induction l as [|x l IH]; simpl; [reflexivity|].
  destruct (q x) eqn:Hq; simpl.
  - now rewrite IH.
  - destruct (p x) eqn:Hp; [|exact IH].
    rewrite (Himp x Hp) in Hq. discriminate.
Qed.

Lemma written_files_are_subsets (gdf : list PA) (year_stamps : list Z)
      (file : string) (rows : list PA) :
  In (file, rows) (fst (filter_pa_by_year gdf year_stamps)) ->
  exists year_stamp,
    In year_stamp year_stamps /\ file = subset_file year_stamp
    /\ rows = subset gdf year_stamp.
Proof.
  induction year_stamps as [|y rest IH]; simpl; [intros []|].
  destruct (to_file (subset_file y) (subset gdf y)); [|intros []].
  destruct (filter_pa_by_year gdf rest) as [written raised]. simpl in *.
  intros [[= <- <-] | Hin].
  - exists y. repeat split. now left.
  - destruct (IH Hin) as (ys & Hys & Hf & Hr). exists ys. repeat split; auto.
Qed.

(** Every file written holds the subset of one of the year stamps, and the
    subsets grow with the stamp.  When later stamps stand for later
    instants, the subset of a stamp is exactly the part of any later
    stamp's subset that was established by the earlier stamp, in the same
    order; an area without a date is in no subset. *)
Theorem subsets_are_cumulative :
  (forall a b, a <= b -> start_of_year a <= start_of_year b) ->
  forall (gdf : list PA) (year_stamps : list Z) (earlier later : Z),
    earlier <= later ->
    (forall file rows,
        In (file, rows) (fst (filter_pa_by_year gdf year_stamps)) ->
        exists year_stamp,
          In year_stamp year_stamps /\ file = subset_file year_stamp
          /\ rows = subset gdf year_stamp)
    /\ subset gdf earlier = filter (established_by earlier) (subset gdf later)
    /\ (forall pa, In pa (subset gdf earlier) -> In pa (subset gdf later))
    /\ (forall pa, year_of pa = None -> ~ In pa (subset gdf later)).
Proof.
  intros Hmono gdf stamps y1 y2 Hle.
  assert (Himp : forall pa, established_by y1 pa = true -> established_by y2 pa = true).
  { intros pa. unfold established_by. destruct (year_of pa) as [t|]; [|discriminate].
    rewrite !Z.leb_le. intros Ht. specialize (Hmono y1 y2 Hle). lia. }
  split; [|split; [|split]].
  - intros file rows. apply written_files_are_subsets.
  - unfold subset. now rewrite filter_filter_weaker.
  - intros pa Hpa. unfold subset in *. apply filter_In in Hpa as [Hin Hy].
    apply filter_In. split; [exact Hin | now apply Himp].
  - intros pa Hnone Hin. unfold subset in Hin. apply filter_In in Hin as [_ Hy].
    unfold established_by in Hy. rewrite Hnone in Hy. discriminate.
Qed.

End Filter.

(** *** [rasterize_pas_by_year] *)

(** How a run of [gdal_rasterize] ends: normally, with a non-zero exit
    ([CalledProcessError], which the method catches), or with any other
    exception, such as a missing executable. *)
Inductive run_result : Set :=
| Succeeded
| ExitedNonZero
| OtherException.

Inductive event : Set :=
| Rasterized (gpkg raster : string)
| RasterizeError (gpkg : string)
| Removed (gpkg : string).

Inductive exn : Set :=
| Uncaught (gpkg : string).

Section Rasterize.
Variable gdal_rasterize : string -> run_result.

(** The [finally] clause (lines 108-111). *)
Definition cleanup (keep_intermediate_gpkg : bool) (gpkg : string) : list event :=
  if keep_intermediate_gpkg then [] else [Removed gpkg].

(** The loop of lines 80-111 over the GeoPackages found. *)
Fixpoint rasterize_each (keep_intermediate_gpkg : bool) (gpkgs : list string)
  : list event * option exn :=
  match gpkgs with
  | [] => ([], None)
  | gpkg :: rest =>
      match gdal_rasterize gpkg with
      | Succeeded =>
          let '(events, raised) := rasterize_each keep_intermediate_gpkg rest in
          (Rasterized gpkg (replace ".gpkg" ".tif" gpkg)
             :: cleanup keep_intermediate_gpkg gpkg ++ events, raised)
      | ExitedNonZero =>
          let '(events, raised) := rasterize_each keep_intermediate_gpkg rest in
          (RasterizeError gpkg :: cleanup keep_intermediate_gpkg gpkg ++ events, raised)
      | OtherException =>
          (cleanup keep_intermediate_gpkg gpkg, Some (Uncaught gpkg))
      end
  end.

(** [rasterize_pas_by_year] (lines 75-111) on the listing of
    [self.output_dir]. *)
Definition rasterize_pas_by_year (keep_intermediate_gpkg : bool) (listing : list string)
  : list event * option exn :=
  rasterize_each keep_intermediate_gpkg (filter (ends_with ".gpkg") listing).

Definition removed_files (events : list event) : list string :=
  flat_map (fun e => match e with Removed f => [f] | _ => [] end) events.

Definition attempted_files (events : list event) : list string :=
  flat_map (fun e => match e with
                     | Rasterized f _ | RasterizeError f => [f]
                     | Removed _ => []
                     end) events.

Lemma rasterize_each_without_exception (gpkgs : list string) :
  Forall (fun f => gdal_rasterize f <> OtherException) gpkgs ->
  snd (rasterize_each false gpkgs) = None
  /\ removed_files (fst (rasterize_each false gpkgs)) = gpkgs
  /\ attempted_files (fst (rasterize_each false gpkgs)) = gpkgs.
Proof.
  induction 1 as [|f rest Hf _ (IHe & IHr & IHa)]; [repeat split|].
  simpl. destruct (gdal_rasterize f); [| |congruence];
    destruct (rasterize_each false rest) as [events raised];
    unfold removed_files, attempted_files in *; simpl in *;
    repeat split; congruence.
Qed.

Lemma rasterize_each_exception (before after : list string) (f : string) :
  Forall (fun g => gdal_rasterize g <> OtherException) before ->
  gdal_rasterize f = OtherException ->
  snd (rasterize_each false (before ++ f :: after)) = Some (Uncaught f)
  /\ removed_files (fst (rasterize_each false (before ++ f :: after))) = before ++ [f]
  /\ attempted_files (fst (rasterize_each false (before ++ f :: after))) = before.
Proof.
  intros Hbefore Hf. induction Hbefore as [|g rest Hg _ (IHe & IHr & IHa)].
  - simpl. rewrite Hf. repeat split.
  - simpl. destruct (gdal_rasterize g); [| |congruence];
      destruct (rasterize_each false (rest ++ f :: after)) as [events raised];
      unfold removed_files, attempted_files in *; simpl in *;
      repeat split; congruence.
Qed.

(** With the default [keep_intermediate_gpkg=False] every GeoPackage of the
    directory is removed once it has been tried, whether gdal_rasterize
    succeeded or exited with an error, and an error exit does not stop the
    loop.  Any other exception is not caught: the GeoPackage at hand is
    still removed, the exception leaves the method, and the remaining
    GeoPackages are neither rasterized nor removed. *)
Theorem intermediate_gpkgs_are_removed_even_on_failure :
  forall listing : list string,
    (Forall (fun f => gdal_rasterize f <> OtherException)
            (filter (ends_with ".gpkg") listing) ->
       snd (rasterize_pas_by_year false listing) = None
       /\ removed_files (fst (rasterize_pas_by_year false listing))
          = filter (ends_with ".gpkg") listing
       /\ attempted_files (fst (rasterize_pas_by_year false listing))
          = filter (ends_with ".gpkg") listing)
    /\ (forall before f after,
          filter (ends_with ".gpkg") listing = before ++ f :: after ->
          Forall (fun g => gdal_rasterize g <> OtherException) before ->
          gdal_rasterize f = OtherException ->
          snd (rasterize_pas_by_year false listing) = Some (Uncaught f)
          /\ removed_files (fst (rasterize_pas_by_year false listing)) = before ++ [f]
          /\ attempted_files (fst (rasterize_pas_by_year false listing)) = before).
Proof.
  intros listing. unfold rasterize_pas_by_year. split.
  - apply rasterize_each_without_exception.
  - intros before f after ->. apply rasterize_each_exception.
Qed.

End Rasterize.

(** Areas dated by their year of establishment, instants counted in years. *)
Definition sample_areas : list (string * option Z) :=
  [ ("Peak District"%string, Some 1951); ("Cairngorms"%string, Some 2003);
    ("undated"%string, None) ].

Lemma subsets_are_cumulative_witness :
  subset (string * option Z) snd (fun y => y) sample_areas 2000
  = filter (established_by (string * option Z) snd (fun y => y) 2000)
           (subset (string * option Z) snd (fun y => y) sample_areas 2018).
Proof.
  refine (proj1 (proj2
            (subsets_are_cumulative (string * option Z) snd (fun y => y)
               (fun _ _ => true) _ sample_areas [2000; 2018] 2000 2018 _))).
  - intros a b Hab. exact Hab.
  - lia.
Defined.

(** Rasterizing fails with an error exit for the 2000 subset. *)
Definition failing_2000 (gpkg : string) : run_result :=
  if String.eqb gpkg "pas_2000.gpkg" then ExitedNonZero else Succeeded.

Lemma intermediate_gpkgs_are_removed_even_on_failure_witness :
  removed_files (fst (rasterize_pas_by_year failing_2000 false
                        ["pas_2000.gpkg"; "notes.txt"; "pas_2018.gpkg"]%string))
  = ["pas_2000.gpkg"; "pas_2018.gpkg"]%string.
Proof.
  refine (proj1 (proj2 (proj1 (intermediate_gpkgs_are_removed_even_on_failure failing_2000
                                 ["pas_2000.gpkg"; "notes.txt"; "pas_2018.gpkg"]%string)
                          _))).
  simpl. repeat constructor; discriminate.
Defined.

End Rasterizer.
